(** * ImageComparisonTool: a shallow embedding of [src/main.py]

    The viewer holds four panes, each optionally bound to a directory of
    images.  Files are matched across directories by a filename prefix, the
    matching files of the selected key are decoded on a thread pool, a zoom
    and pan state shared by the four panes selects the visible crop, and a
    PSNR figure against a ground-truth pane is attached to every other pane.

    Conventions of the embedding:
    - Python exceptions are values of [exn]; an operation of the application
      is a function from the state to an [outcome] and the state at the point
      where the operation returned or raised (a Python exception does not
      undo the assignments made before it).
    - Python [float]s that the session state stores ([zoom], [crop_center],
      the mean squared error) are exact rationals [Q]: binary64 rounding is
      not modelled.  [numpy.uint8] arithmetic is modelled exactly, in [Z]
      with the reduction modulo 256 written out.
    - Strings are [string]s of 8-bit characters, ordered as Python orders
      [str] values (lexicographically by character code).
    - Tk widgets, menu entries, the canvas bitmap and the settings file are
      not part of the state; the size of the canvas, which the code reads
      back from Tk, is. *)

From Stdlib Require Import ZArith QArith Qminmax Qround Lqa Lia Ascii.
From stdpp Require Import base gmap sets list strings sorting.

Open Scope string_scope.
Open Scope Z_scope.

(** ** Python values *)

Inductive exn :=
| TypeError | ValueError | IndexError | KeyError | AttributeError
| ZeroDivisionError | AssertionError | CancelledError.

Inductive outcome (A : Type) :=
| Ok (a : A)
| Raise (e : exn).
Arguments Ok {A} a.
Arguments Raise {A} e.

Definition is_ok {A} (o : outcome A) : bool :=
  match o with Ok _ => true | Raise _ => false end.

(** [l[i]] for a Python list: negative indices count from the end, and an
    index outside [-len, len) raises [IndexError]. *)
Definition py_index {A} (l : list A) (i : Z) : outcome A :=
  let n := Z.of_nat (length l) in
  let j := if i <? 0 then i + n else i in
  if (0 <=? j) && (j <? n)
  then match l !! Z.to_nat j with
       | Some x => Ok x
       | None => Raise IndexError
       end
  else Raise IndexError.

(** [min(a, b)] and [max(a, b)] of Python: the first argument is returned
    unless the second is strictly smaller (resp. larger). *)
Definition py_min (a b : Q) : Q := if Qlt_le_dec b a then b else a.
Definition py_max (a b : Q) : Q := if Qlt_le_dec a b then b else a.

Definition py_minZ (a b : Z) : Z := if b <? a then b else a.

(** ** Strings and paths *)

Definition ascii_lower (c : ascii) : ascii :=
  let n := N_of_ascii c in
  if ((65 <=? n) && (n <=? 90))%N then ascii_of_N (n + 32) else c.

Fixpoint lower (s : string) : string :=
  match s with
  | EmptyString => EmptyString
  | String c s' => String (ascii_lower c) (lower s')
  end.

(** [s.split('.')]: never empty. *)
Fixpoint split_dot (s : string) : list string :=
  match s with
  | EmptyString => [EmptyString]
  | String c s' =>
      if Ascii.eqb c "." then EmptyString :: split_dot s'
      else match split_dot s' with
           | [] => [String c EmptyString]
           | w :: ws => String c w :: ws
           end
  end.

(** [s[:n]]: the first [n] characters, or all but the last [-n] when [n] is
    negative. *)
Definition py_prefix (s : string) (n : Z) : string :=
  let len := Z.of_nat (String.length s) in
  let stop := if n <? 0 then Z.max 0 (len + n) else Z.min n len in
  String.substring 0 (Z.to_nat stop) s.

Fixpoint ends_with_sep (s : string) : bool :=
  match s with
  | EmptyString => false
  | String c EmptyString => Ascii.eqb c "/"
  | String _ s' => ends_with_sep s'
  end.

(** [os.path.join(a, b)] *)
Definition path_join (a b : string) : string :=
  match b with
  | String c _ =>
      if Ascii.eqb c "/" then b
      else if String.eqb a "" || ends_with_sep a then a ++ b
      else a ++ "/" ++ b
  | EmptyString =>
      if String.eqb a "" || ends_with_sep a then a else a ++ "/"
  end.

(** The part of [s] after its last ["/"] ([os.path.basename]) and the part
    before it, the slash included ([os.path.split]'s head before trailing
    slashes are stripped). *)
Fixpoint basename (s : string) : string :=
  match s with
  | EmptyString => EmptyString
  | String c s' =>
      if Ascii.eqb c "/" then basename s'
      else if String.eqb (basename s') s' then s else basename s'
  end.

Fixpoint all_sep (s : string) : bool :=
  match s with
  | EmptyString => true
  | String c s' => Ascii.eqb c "/" && all_sep s'
  end.

Fixpoint rstrip_sep (s : string) : string :=
  match s with
  | EmptyString => EmptyString
  | String c s' => if all_sep s then EmptyString else String c (rstrip_sep s')
  end.

(** [os.path.dirname] *)
Definition dirname (s : string) : string :=
  let head :=
    String.substring 0 (String.length s - String.length (basename s)) s in
  if negb (String.eqb head "") && negb (all_sep head)
  then rstrip_sep head else head.

(** ** The file system, as the program observes it *)

(** What [os.listdir] and the read of [label.txt] return for a path that is
    a directory. *)
Record Directory := {
  listing : list string;
  label_txt : option string
}.

(** [None] for a path that is not a directory. *)
Definition filesystem := string -> option Directory.

(** [is_image_file]; the table of [Image.registered_extensions()] belongs to
    the imaging library and is taken as a parameter. *)
Definition is_image_file (registered_extensions : list string)
    (filename : string) : bool :=
  bool_decide
    ("." ++ List.last (split_dot (lower filename)) "" ∈ registered_extensions).

(** ** class ImageSource *)

Module ImageSource.

Record t := {
  path : string;
  label : string;
  files : gmap string string
}.

(** [__init__]: the dict comprehension inserts in listing order, so a later
    file with the same prefix replaces an earlier one. *)
Definition init (exts : list string) (fs : filesystem)
    (path : string) (prefix_length : Z) : outcome t :=
  match fs path with
  | None => Raise AssertionError
  | Some d =>
      Ok {| path := path;
            label := match label_txt d with
                     | Some l => l
                     | None => basename path
                     end;
            files :=
              foldl (fun m f => <[py_prefix f prefix_length := f]> m) ∅
                    (List.filter (is_image_file exts) (listing d)) |}
  end.

Definition get_file (self : t) (key : string) : outcome string :=
  match files self !! key with
  | Some f => Ok (path_join (path self) f)
  | None => Raise KeyError
  end.

End ImageSource.

(** ** Decoded images and futures *)

(** A decoded image: the file it was opened from and its raw bytes
    ([Image.tobytes()]), each in [0, 256). *)
Record Image := {
  filename : string;
  tobytes : list Z
}.

(** The state of a [concurrent.futures.Future].  A running task carries the
    image it has decoded once the worker has scheduled the completion
    callback and is about to return. *)
Inductive future_state :=
| PENDING
| RUNNING (returning : option Image)
| CANCELLED
| FINISHED (result : option Image).

(** A submitted task: the arguments of [load_image_worker_thread] and the
    state of its future. *)
Record Future := {
  task_path : string;
  task_index : nat;
  state : future_state
}.

Definition future_done (f : Future) : bool :=
  match state f with
  | CANCELLED | FINISHED _ => true
  | _ => false
  end.

Definition future_result (f : Future) : outcome (option Image) :=
  match state f with
  | FINISHED r => Ok r
  | _ => Raise CancelledError
  end.

Definition future_cancel (f : Future) : Future :=
  match state f with
  | PENDING =>
      {| task_path := task_path f; task_index := task_index f;
         state := CANCELLED |}
  | _ => f
  end.

(** ** numpy on byte buffers *)

Definition u8 (x : Z) : Z := x mod 256.

Definition frombuffer_u8 (b : list Z) : list Z := List.map u8 b.

(** Element-wise binary operation on one-dimensional arrays with numpy's
    broadcasting: equal lengths, or one side of length one. *)
Definition np_binop (f : Z -> Z -> Z) (a b : list Z) : outcome (list Z) :=
  if decide (length a = length b) then Ok (zip_with f a b)
  else match a, b with
       | [x], _ => Ok (List.map (f x) b)
       | _, [y] => Ok (List.map (fun x => f x y) a)
       | _, _ => Raise ValueError
       end.

Definition u8_sub (x y : Z) : Z := u8 (x - y).
Definition u8_square (x : Z) : Z := u8 (x * x).

(** A float64 that may be NaN. *)
Inductive npfloat :=
| NaN
| Fin (q : Q).

Definition sumZ (l : list Z) : Z := foldr Z.add 0 l.

(** [a.mean()] of an integer array: accumulated and divided in float64; NaN
    for an empty array. *)
Definition np_mean (a : list Z) : npfloat :=
  match a with
  | [] => NaN
  | _ => Fin (sumZ a # Pos.of_nat (length a))
  end.

(** The comparison label of a pane.  [PSNR m] stands for the text
    [f'PSNR: {20.0 * math.log10(255) - 10.0 * math.log10(m):.2f}dB']. *)
Inductive comparison :=
| GT
| PSNR (mse : npfloat).

(** [math.log10] raises on zero and returns NaN on NaN; here only whether it
    raises is computed. *)
Definition log10_defined (m : npfloat) : outcome unit :=
  match m with
  | NaN => Ok tt
  | Fin q => if Qle_bool q 0 then Raise ValueError else Ok tt
  end.

(** ** class ImageView *)

Module ImageView.

Record t := {
  path : string;
  future : nat;
  image : option Image;
  comparison_text : option comparison
}.

Definition init (path : string) (future : nat) : t :=
  {| path := path; future := future; image := None;
     comparison_text := None |}.

Definition set_image (self : t) (im : option Image) : t :=
  {| path := path self; future := future self; image := im;
     comparison_text := comparison_text self |}.

Definition set_comparison_text (self : t) (c : comparison) : t :=
  {| path := path self; future := future self; image := image self;
     comparison_text := Some c |}.

(** [get_image], given the future the view holds: the view after the call
    and the image returned. *)
Definition get_image (self : t) (f : Future) : outcome (t * option Image) :=
  match image self with
  | Some im => Ok (self, Some im)
  | None =>
      if future_done f
      then match future_result f with
           | Ok r => Ok (set_image self r, r)
           | Raise e => Raise e
           end
      else Ok (self, None)
  end.

Definition set_gt (self : t) : t := set_comparison_text self GT.

(** The mean squared error as line 60 computes it. *)
Definition mse (im gt : Image) : outcome npfloat :=
  let im_array := frombuffer_u8 (tobytes im) in
  let gt_array := frombuffer_u8 (tobytes gt) in
  match np_binop u8_sub im_array gt_array with
  | Raise e => Raise e
  | Ok d => Ok (np_mean (List.map u8_square d))
  end.

(** [calculate_psnr]; either [tobytes()] raises on a missing image. *)
Definition calculate_psnr (self : t) (ground_truth_image : option Image)
    : outcome t :=
  match image self, ground_truth_image with
  | Some im, Some gt =>
      match mse im gt with
      | Raise e => Raise e
      | Ok m =>
          match log10_defined m with
          | Raise e => Raise e
          | Ok _ => Ok (set_comparison_text self (PSNR m))
          end
      end
  | _, _ => Raise AttributeError
  end.

End ImageView.

(** ** class ImageCompareApp: the state

    The attributes of the application object, under their names, and the
    three pieces of its environment that its behaviour depends on:
    [futures], the tasks submitted to [self.loader] (a future is named by its
    position, so that the view holding it and the worker completing it share
    it); [after_queue], the pane indices of the pending
    [root.after(80, self.on_image_load_main_thread, index)] calls; and
    [canvas_size], what [winfo_width()] and [winfo_height()] return. *)

Record App := {
  image_sources : list (option ImageSource.t);
  image_views : list (option ImageView.t);
  key_list : list string;
  current_key : option Z;
  gt_index : option Z;
  initial_dir : string;
  prefix_length : Z;
  dragging : bool;
  zoom : Q;
  crop_center : Q * Q;
  start_drag_crop_center : Q * Q;
  start_drag_mouse : Z * Z;
  futures : list Future;
  after_queue : list nat;
  canvas_size : Z * Z
}.

(** Attribute assignment. *)

Definition set_image_sources (x : list (option ImageSource.t)) (s : App) : App :=
  {| image_sources := x; image_views := image_views s;
     key_list := key_list s; current_key := current_key s;
     gt_index := gt_index s; initial_dir := initial_dir s;
     prefix_length := prefix_length s; dragging := dragging s;
     zoom := zoom s; crop_center := crop_center s;
     start_drag_crop_center := start_drag_crop_center s;
     start_drag_mouse := start_drag_mouse s; futures := futures s;
     after_queue := after_queue s; canvas_size := canvas_size s |}.

Definition set_image_views (x : list (option ImageView.t)) (s : App) : App :=
  {| image_sources := image_sources s; image_views := x;
     key_list := key_list s; current_key := current_key s;
     gt_index := gt_index s; initial_dir := initial_dir s;
     prefix_length := prefix_length s; dragging := dragging s;
     zoom := zoom s; crop_center := crop_center s;
     start_drag_crop_center := start_drag_crop_center s;
     start_drag_mouse := start_drag_mouse s; futures := futures s;
     after_queue := after_queue s; canvas_size := canvas_size s |}.

Definition set_key_list (x : list string) (s : App) : App :=
  {| image_sources := image_sources s; image_views := image_views s;
     key_list := x; current_key := current_key s; gt_index := gt_index s;
     initial_dir := initial_dir s; prefix_length := prefix_length s;
     dragging := dragging s; zoom := zoom s; crop_center := crop_center s;
     start_drag_crop_center := start_drag_crop_center s;
     start_drag_mouse := start_drag_mouse s; futures := futures s;
     after_queue := after_queue s; canvas_size := canvas_size s |}.

Definition set_current_key (x : option Z) (s : App) : App :=
  {| image_sources := image_sources s; image_views := image_views s;
     key_list := key_list s; current_key := x; gt_index := gt_index s;
     initial_dir := initial_dir s; prefix_length := prefix_length s;
     dragging := dragging s; zoom := zoom s; crop_center := crop_center s;
     start_drag_crop_center := start_drag_crop_center s;
     start_drag_mouse := start_drag_mouse s; futures := futures s;
     after_queue := after_queue s; canvas_size := canvas_size s |}.

Definition set_gt_index (x : option Z) (s : App) : App :=
  {| image_sources := image_sources s; image_views := image_views s;
     key_list := key_list s; current_key := current_key s; gt_index := x;
     initial_dir := initial_dir s; prefix_length := prefix_length s;
     dragging := dragging s; zoom := zoom s; crop_center := crop_center s;
     start_drag_crop_center := start_drag_crop_center s;
     start_drag_mouse := start_drag_mouse s; futures := futures s;
     after_queue := after_queue s; canvas_size := canvas_size s |}.

Definition set_initial_dir (x : string) (s : App) : App :=
  {| image_sources := image_sources s; image_views := image_views s;
     key_list := key_list s; current_key := current_key s;
     gt_index := gt_index s; initial_dir := x;
     prefix_length := prefix_length s; dragging := dragging s;
     zoom := zoom s; crop_center := crop_center s;
     start_drag_crop_center := start_drag_crop_center s;
     start_drag_mouse := start_drag_mouse s; futures := futures s;
     after_queue := after_queue s; canvas_size := canvas_size s |}.

Definition set_prefix_length (x : Z) (s : App) : App :=
  {| image_sources := image_sources s; image_views := image_views s;
     key_list := key_list s; current_key := current_key s;
     gt_index := gt_index s; initial_dir := initial_dir s;
     prefix_length := x; dragging := dragging s; zoom := zoom s;
     crop_center := crop_center s;
     start_drag_crop_center := start_drag_crop_center s;
     start_drag_mouse := start_drag_mouse s; futures := futures s;
     after_queue := after_queue s; canvas_size := canvas_size s |}.

Definition set_dragging (x : bool) (s : App) : App :=
  {| image_sources := image_sources s; image_views := image_views s;
     key_list := key_list s; current_key := current_key s;
     gt_index := gt_index s; initial_dir := initial_dir s;
     prefix_length := prefix_length s; dragging := x; zoom := zoom s;
     crop_center := crop_center s;
     start_drag_crop_center := start_drag_crop_center s;
     start_drag_mouse := start_drag_mouse s; futures := futures s;
     after_queue := after_queue s; canvas_size := canvas_size s |}.

Definition set_zoom (x : Q) (s : App) : App :=
  {| image_sources := image_sources s; image_views := image_views s;
     key_list := key_list s; current_key := current_key s;
     gt_index := gt_index s; initial_dir := initial_dir s;
     prefix_length := prefix_length s; dragging := dragging s; zoom := x;
     crop_center := crop_center s;
     start_drag_crop_center := start_drag_crop_center s;
     start_drag_mouse := start_drag_mouse s; futures := futures s;
     after_queue := after_queue s; canvas_size := canvas_size s |}.

Definition set_crop_center (x : Q * Q) (s : App) : App :=
  {| image_sources := image_sources s; image_views := image_views s;
     key_list := key_list s; current_key := current_key s;
     gt_index := gt_index s; initial_dir := initial_dir s;
     prefix_length := prefix_length s; dragging := dragging s;
     zoom := zoom s; crop_center := x;
     start_drag_crop_center := start_drag_crop_center s;
     start_drag_mouse := start_drag_mouse s; futures := futures s;
     after_queue := after_queue s; canvas_size := canvas_size s |}.

Definition set_start_drag_crop_center (x : Q * Q) (s : App) : App :=
  {| image_sources := image_sources s; image_views := image_views s;
     key_list := key_list s; current_key := current_key s;
     gt_index := gt_index s; initial_dir := initial_dir s;
     prefix_length := prefix_length s; dragging := dragging s;
     zoom := zoom s; crop_center := crop_center s;
     start_drag_crop_center := x; start_drag_mouse := start_drag_mouse s;
     futures := futures s; after_queue := after_queue s;
     canvas_size := canvas_size s |}.

Definition set_start_drag_mouse (x : Z * Z) (s : App) : App :=
  {| image_sources := image_sources s; image_views := image_views s;
     key_list := key_list s; current_key := current_key s;
     gt_index := gt_index s; initial_dir := initial_dir s;
     prefix_length := prefix_length s; dragging := dragging s;
     zoom := zoom s; crop_center := crop_center s;
     start_drag_crop_center := start_drag_crop_center s;
     start_drag_mouse := x; futures := futures s;
     after_queue := after_queue s; canvas_size := canvas_size s |}.

Definition set_futures (x : list Future) (s : App) : App :=
  {| image_sources := image_sources s; image_views := image_views s;
     key_list := key_list s; current_key := current_key s;
     gt_index := gt_index s; initial_dir := initial_dir s;
     prefix_length := prefix_length s; dragging := dragging s;
     zoom := zoom s; crop_center := crop_center s;
     start_drag_crop_center := start_drag_crop_center s;
     start_drag_mouse := start_drag_mouse s; futures := x;
     after_queue := after_queue s; canvas_size := canvas_size s |}.

Definition set_after_queue (x : list nat) (s : App) : App :=
  {| image_sources := image_sources s; image_views := image_views s;
     key_list := key_list s; current_key := current_key s;
     gt_index := gt_index s; initial_dir := initial_dir s;
     prefix_length := prefix_length s; dragging := dragging s;
     zoom := zoom s; crop_center := crop_center s;
     start_drag_crop_center := start_drag_crop_center s;
     start_drag_mouse := start_drag_mouse s; futures := futures s;
     after_queue := x; canvas_size := canvas_size s |}.

Definition set_canvas_size (x : Z * Z) (s : App) : App :=
  {| image_sources := image_sources s; image_views := image_views s;
     key_list := key_list s; current_key := current_key s;
     gt_index := gt_index s; initial_dir := initial_dir s;
     prefix_length := prefix_length s; dragging := dragging s;
     zoom := zoom s; crop_center := crop_center s;
     start_drag_crop_center := start_drag_crop_center s;
     start_drag_mouse := start_drag_mouse s; futures := futures s;
     after_queue := after_queue s; canvas_size := x |}.

(** ** Operations: a state and exception monad *)

Definition M (A : Type) : Type := App -> outcome A * App.

#[global] Instance M_ret : MRet M := fun A a s => (Ok a, s).

#[global] Instance M_bind : MBind M := fun A B k m s =>
  match m s with
  | (Ok a, s') => k a s'
  | (Raise e, s') => (Raise e, s')
  end.

Definition raise {A} (e : exn) : M A := fun s => (Raise e, s).
Definition get : M App := fun s => (Ok s, s).
Definition modify (f : App -> App) : M unit := fun s => (Ok tt, f s).

Definition lift {A} (o : outcome A) : M A :=
  match o with
  | Ok a => mret a
  | Raise e => raise e
  end.

(** The state in which an operation ends, whether it returned or raised. *)
Definition exec {A} (m : M A) (s : App) : App := snd (m s).
Definition returns {A} (m : M A) (s : App) : outcome A := fst (m s).

Fixpoint for_each {A} (l : list A) (body : A -> M unit) : M unit :=
  match l with
  | [] => mret tt
  | x :: l' => body x ;; for_each l' body
  end.

(** *** Panes *)

Definition IMAGE_GAP : Z := 5.
Definition TEXT_BAR_HEIGHT : Z := 20.

(** The position a Python index denotes in a list of length [n]. *)
Definition py_pos (n : nat) (i : Z) : outcome nat :=
  let j := if i <? 0 then i + Z.of_nat n else i in
  if (0 <=? j) && (j <? Z.of_nat n) then Ok (Z.to_nat j) else Raise IndexError.

(** The future a view holds.  Views are only built by [load_images], around
    the future it has just submitted, so the lookup never falls through. *)
Definition future_of (pool : list Future) (fid : nat) : Future :=
  default {| task_path := ""; task_index := 0%nat; state := PENDING |}
          (pool !! fid).

(** [self.image_views[i]] *)
Definition get_view (i : Z) : M (option ImageView.t) :=
  s ← get; lift (py_index (image_views s) i).

(** Run a method of the view object at pane [i] and store the mutated object
    back; a [None] slot has no methods. *)
Definition on_view {A} (i : Z)
    (method : ImageView.t -> list Future -> outcome (ImageView.t * A))
    : M A :=
  s ← get;
  p ← lift (py_pos (length (image_views s)) i);
  match image_views s !! p with
  | Some (Some v) =>
      '(v', a) ← lift (method v (futures s));
      modify (fun s => set_image_views (<[p := Some v']> (image_views s)) s);;
      mret a
  | _ => raise AttributeError
  end.

Definition pane_get_image (i : Z) : M (option Image) :=
  on_view i (fun v pool =>
    ImageView.get_image v (future_of pool (ImageView.future v))).

Definition pane_set_gt (i : Z) : M unit :=
  on_view i (fun v _ => Ok (ImageView.set_gt v, tt)).

Definition pane_calculate_psnr (i : Z) (ground_truth_image : option Image)
    : M unit :=
  on_view i (fun v _ =>
    match ImageView.calculate_psnr v ground_truth_image with
    | Ok v' => Ok (v', tt)
    | Raise e => Raise e
    end).

(** *** Rendering *)

Definition current_cell_size (s : App) : Z * Z :=
  let '(canvas_w, canvas_h) := canvas_size s in
  ((canvas_w - IMAGE_GAP) `div` 2,
   (canvas_h - IMAGE_GAP - 2 * TEXT_BAR_HEIGHT) `div` 2).

(** [show]: of the drawing only what touches the state is kept, namely that
    every redrawn pane with a view polls its image, reads the label of its
    source, and that the title reads [current_key]. *)
Definition show (redraw_cells : list nat) : M unit :=
  s ← get;
  let '(cell_w, cell_h) := current_cell_size s in
  if (cell_w <=? 0) || (cell_h <=? 0) then mret tt
  else
    for_each redraw_cells (fun i =>
      view ← get_view (Z.of_nat i);
      match view with
      | Some _ =>
          pane_get_image (Z.of_nat i);;
          s ← get;
          source ← lift (py_index (image_sources s) (Z.of_nat i));
          match source with
          | Some _ => mret tt
          | None => raise AttributeError
          end
      | None => mret tt
      end);;
    s ← get;
    match key_list s, current_key s with
    | _ :: _, None => raise TypeError
    | _, _ => mret tt
    end.

Definition all_cells : list nat := [0; 1; 2; 3]%nat.

(** [save_settings] writes the settings file and changes nothing else. *)
Definition save_settings : M unit := mret tt.

#[global] Instance outcome_ret : MRet outcome := fun A a => Ok a.

#[global] Instance outcome_bind : MBind outcome := fun A B k o =>
  match o with
  | Ok a => k a
  | Raise e => Raise e
  end.

(** [self.image_views[i] = v] and [self.image_sources[i] = v] *)
Definition py_setitem {A} (l : list A) (i : nat) (x : A) : outcome (list A) :=
  if decide (i < length l)%nat then Ok (<[i := x]> l) else Raise IndexError.

Definition assign_view (i : nat) (v : ImageView.t) : M unit :=
  s ← get;
  views ← lift (py_setitem (image_views s) i (Some v));
  modify (set_image_views views).

Definition assign_source (i : nat) (source : ImageSource.t) : M unit :=
  s ← get;
  sources ← lift (py_setitem (image_sources s) i (Some source));
  modify (set_image_sources sources).

(** [[i for i in range(4) if self.image_sources[i]]] *)
Definition configured_panes (sources : list (option ImageSource.t))
    : outcome (list nat) :=
  found ← mapM (fun i => source ← py_index sources (Z.of_nat i);
                         mret (i, source)) all_cells;
  mret (omap (fun '(i, source) =>
                match source : option ImageSource.t with
                | Some _ => Some i
                | None => None
                end) found).

(** *** Key list *)

(** [set.intersection] applied to the unpacked sets: the unbound method
    needs its first argument. *)
Definition set_intersection (sets : list (gset string))
    : outcome (gset string) :=
  match sets with
  | [] => Raise TypeError
  | x :: rest => Ok (foldl (∩) x rest)
  end.

Definition available_sources (s : App) : list ImageSource.t :=
  omap id (image_sources s).

(** [list(common_keys)] followed by [sort()] *)
Definition sorted_keys (keys : gset string) : list string :=
  merge_sort String.le (elements keys).

Definition clamp_current_key (s : App) : App :=
  match key_list s with
  | [] => set_current_key None s
  | _ :: _ =>
      match current_key s with
      | None => set_current_key (Some 0) s
      | Some ck =>
          set_current_key
            (Some (py_minZ ck (Z.of_nat (length (key_list s)) - 1))) s
      end
  end.

(** [update_key_list]; of the menu updates, the read of the label of every
    updated pane's source is kept. *)
Definition update_key_list (update_indices : list nat) : M unit :=
  s ← get;
  common_keys ← lift (set_intersection
                        ((fun source => dom (ImageSource.files source))
                           <$> available_sources s));
  modify (set_key_list (sorted_keys common_keys));;
  modify clamp_current_key;;
  for_each update_indices (fun index =>
    s ← get;
    source ← lift (py_index (image_sources s) (Z.of_nat index));
    match source with
    | Some _ => mret tt
    | None => raise AttributeError
    end).

(** *** Loading *)

(** [self.loader.submit(self.load_image_worker_thread, path, i)] *)
Definition submit (path : string) (i : nat) : M nat :=
  s ← get;
  modify (set_futures
            (futures s ++
             [{| task_path := path; task_index := i; state := PENDING |}]));;
  mret (length (futures s)).

Definition cancel (fid : nat) : M unit :=
  modify (fun s => set_futures (alter future_cancel fid (futures s)) s).

Definition reset_transformations (s : App) : App :=
  set_dragging false (set_crop_center (1 # 2, 1 # 2)%Q (set_zoom 1%Q s)).

(** Lines 276-277: the task is submitted and a view around its future takes
    the pane's slot. *)
Definition load_view (i : nat) (path : string) : M unit :=
  future ← submit path i;
  assign_view i (ImageView.init path future).

Definition load_images : M unit :=
  s ← get;
  for_each (image_views s) (fun view =>
    match view with
    | Some v =>
        match ImageView.image v with
        | None => cancel (ImageView.future v)
        | Some _ => mret tt
        end
    | None => mret tt
    end);;
  s ← get;
  match current_key s with
  | None => modify (set_image_views [None; None; None; None])
  | Some ck =>
      key ← lift (py_index (key_list s) ck);
      for_each (imap pair (image_sources s)) (fun '(i, source) =>
        match source with
        | Some src =>
            path ← lift (ImageSource.get_file src key);
            load_view i path
        | None => mret tt
        end);;
      modify reset_transformations
  end.

(** *** Completion of a decode, on the UI thread *)

Definition on_image_load_main_thread (index : nat) : M unit :=
  pane_get_image (Z.of_nat index);;
  s ← get;
  (if decide (Some (Z.of_nat index) = gt_index s) then
     for_each (seq 0 (length (image_views s))) (fun i =>
       if decide (i = index) then pane_set_gt (Z.of_nat i)
       else
         im ← pane_get_image (Z.of_nat i);
         match im with
         | Some _ =>
             gt ← pane_get_image (Z.of_nat index);
             pane_calculate_psnr (Z.of_nat i) gt
         | None => mret tt
         end)
   else
     match gt_index s with
     | Some g =>
         gt_view ← get_view g;
         match gt_view with
         | Some _ =>
             gt ← pane_get_image g;
             match gt with
             | Some im => pane_calculate_psnr (Z.of_nat index) (Some im)
             | None => mret tt
             end
         | None => mret tt
         end
     | None => mret tt
     end);;
  s ← get;
  if decide (Some (Z.of_nat index) = gt_index s) then show all_cells
  else show [index].

(** *** Navigation *)

Definition menu_go_to_key (index : Z) : M unit :=
  modify (set_current_key (Some index));;
  load_images;; show all_cells;; save_settings.

Definition next_image : M unit :=
  s ← get;
  match current_key s with
  | None => raise TypeError
  | Some ck =>
      let n := Z.of_nat (length (key_list s)) in
      if n =? 0 then raise ZeroDivisionError
      else
        modify (set_current_key (Some ((ck + 1) `mod` n)));;
        load_images;; show all_cells;; save_settings
  end.

Definition prev_image : M unit :=
  s ← get;
  match current_key s with
  | None => raise TypeError
  | Some ck =>
      let n := Z.of_nat (length (key_list s)) in
      if n =? 0 then raise ZeroDivisionError
      else
        modify (set_current_key (Some ((ck + n - 1) `mod` n)));;
        load_images;; show all_cells;; save_settings
  end.

(** *** Ground truth *)

Definition menu_set_gt (index : nat) : M unit :=
  modify (set_gt_index (Some (Z.of_nat index)));;
  s ← get;
  for_each (seq 0 (length (image_views s))) (fun i =>
    view ← get_view (Z.of_nat i);
    match view with
    | Some _ =>
        if decide (i = index) then pane_set_gt (Z.of_nat i)
        else
          gt_view ← get_view (Z.of_nat index);
          match gt_view with
          | Some g =>
              match ImageView.image g with
              | Some im => pane_calculate_psnr (Z.of_nat i) (Some im)
              | None => mret tt
              end
          | None => mret tt
          end
    | None => mret tt
    end);;
  show all_cells;; save_settings.

(** *** Zoom and pan *)

(** The fields of a Tk event that [on_zoom] reads; [num] is the string
    ["??"] ([None] here) for an event that is not a button event. *)
Record WheelEvent := {
  num : option Z;
  delta : Z
}.

Definition wheel_direction (event : WheelEvent) : Z :=
  match num event with
  | Some 4 => 1
  | Some 5 => -1
  | _ => if delta event =? 0 then 0
         else if delta event >? 0 then 1 else -1
  end.

(** Lines 346-347 and 376-377. *)
Definition clamp_center (c half_crop_size : Q) : Q :=
  py_min (py_max c half_crop_size) (1 - half_crop_size)%Q.

Definition zoomed (event : WheelEvent) (s : App) : App :=
  let factor := (if wheel_direction event >? 0 then 11 # 10 else 9 # 10)%Q in
  let z := py_max 1%Q (py_min (zoom s * factor)%Q 100%Q) in
  let half_crop_size := ((1 # 2) / z)%Q in
  let '(cx, cy) := crop_center s in
  set_crop_center
    (clamp_center cx half_crop_size, clamp_center cy half_crop_size)
    (set_zoom z s).

Definition on_zoom (event : WheelEvent) : M unit :=
  modify (zoomed event);; show all_cells.

Definition start_drag (x y : Z) : M unit :=
  modify (fun s =>
    set_start_drag_crop_center (crop_center s)
      (set_start_drag_mouse (x, y) (set_dragging true s))).

Definition stop_drag : M unit :=
  modify (set_dragging false);; show all_cells.

(** [a / b] on floats *)
Definition py_truediv (a b : Q) : outcome Q :=
  if Qeq_bool b 0%Q then Raise ZeroDivisionError else Ok (a / b)%Q.

(** Lines 374-379, given the two quotients of lines 371-372. *)
Definition dragged (mx my : Q) (s : App) : App :=
  let '(cx, cy) := start_drag_crop_center s in
  let half_crop_size := ((1 # 2) / zoom s)%Q in
  set_crop_center
    (clamp_center (cx - mx)%Q half_crop_size,
     clamp_center (cy - my)%Q half_crop_size) s.

Definition do_drag (x y : Z) : M unit :=
  s ← get;
  if negb (dragging s) then mret tt
  else
    let dx := x - fst (start_drag_mouse s) in
    let dy := y - snd (start_drag_mouse s) in
    let '(cell_w, cell_h) := current_cell_size s in
    mx ← lift (py_truediv (inject_Z dx) (inject_Z cell_w * zoom s)%Q);
    my ← lift (py_truediv (inject_Z dy) (inject_Z cell_h * zoom s)%Q);
    modify (dragged mx my);;
    show all_cells.

(** ** The settings file *)

(** A JSON value, as far as [type(v) == int] tells values apart. *)
Inductive json :=
| JInt (z : Z)
| JOther.

Module Settings.

(** The keys of the settings object; [None] for a key that is absent.  The
    value of ['sources'] is the list of paths [save_settings] writes. *)
Record t := {
  sources : option (list string);
  key_index : option json;
  gt_index : option json;
  prefix_length : option json
}.

End Settings.

Section Application.

(** [Image.registered_extensions()] *)
Variable registered_extensions : list string.

(** *** Menus *)

(** [path] is what the directory dialog returned and [fs] the file system
    at that moment. *)
Definition menu_change_view (index : nat) (path : string) (fs : filesystem)
    : M unit :=
  if String.eqb path "" then mret tt
  else
    s ← get;
    source ← lift (ImageSource.init registered_extensions fs path
                     (prefix_length s));
    assign_source index source;;
    modify (set_initial_dir (dirname path));;
    s ← get;
    (if decide (gt_index s = Some (Z.of_nat index))
     then modify (set_gt_index None) else mret tt);;
    update_key_list [index];;
    load_images;; show all_cells;; save_settings.

Definition rebuild_source (fs : filesystem) (prefix_length : Z)
    (source : option ImageSource.t) : outcome (option ImageSource.t) :=
  match source with
  | Some src =>
      src' ← ImageSource.init registered_extensions fs
               (ImageSource.path src) prefix_length;
      mret (Some src')
  | None => mret None
  end.

(** Line 214: every source is rebuilt before the attribute is assigned. *)
Definition rebuild_sources (fs : filesystem) (prefix_length : Z)
    : M (list (option ImageSource.t)) :=
  s ← get;
  sources ← lift (mapM (rebuild_source fs prefix_length) (image_sources s));
  modify (set_image_sources sources);;
  mret sources.

Definition menu_enter_prefix_length (result : option Z) (fs : filesystem)
    : M unit :=
  match result with
  | None => mret tt
  | Some n =>
      modify (set_prefix_length n);;
      sources ← rebuild_sources fs n;
      indices ← lift (configured_panes sources);
      update_key_list indices;;
      load_images;; show all_cells;; save_settings
  end.

(** *** Start-up *)

Definition initial (canvas : Z * Z) : App :=
  {| image_sources := [None; None; None; None];
     image_views := [None; None; None; None];
     key_list := [];
     current_key := None;
     gt_index := None;
     initial_dir := "./";
     prefix_length := 8;
     dragging := false;
     zoom := 1%Q;
     crop_center := (1 # 2, 1 # 2)%Q;
     start_drag_crop_center := (0, 0)%Q;
     start_drag_mouse := (0, 0);
     futures := [];
     after_queue := [];
     canvas_size := canvas |}.

(** Lines 147-148. *)
Definition restore_key_index (settings : Settings.t) : M unit :=
  s ← get;
  match Settings.key_index settings with
  | Some (JInt k) =>
      if (0 <? Z.of_nat (length (key_list s)))
      then modify (set_current_key
                     (Some (py_minZ k (Z.of_nat (length (key_list s))))))
      else mret tt
  | _ => mret tt
  end.

(** Lines 133-152: the part of [__init__] that reads the settings file
    ([None] when there is none). *)
Definition load_savestate (savestate : option Settings.t) (fs : filesystem)
    : M unit :=
  match savestate with
  | None => mret tt
  | Some settings =>
      match Settings.sources settings with
      | None => mret tt
      | Some paths =>
          match Settings.prefix_length settings with
          | Some (JInt n) => modify (set_prefix_length n)
          | _ => mret tt
          end;;
          for_each (imap pair paths) (fun '(i, path) =>
            match fs path with
            | Some _ =>
                s ← get;
                source ← lift (ImageSource.init registered_extensions fs
                                 path (prefix_length s));
                assign_source i source
            | None => mret tt
            end);;
          s ← get;
          indices ← lift (configured_panes (image_sources s));
          update_key_list indices;;
          restore_key_index settings;;
          match Settings.gt_index settings with
          | Some (JInt g) => modify (set_gt_index (Some g))
          | _ => mret tt
          end;;
          load_images
      end
  end.

Definition init (savestate : option Settings.t) (fs : filesystem)
    : M unit :=
  load_savestate savestate fs;; show all_cells.

End Application.

(** ** The worker threads

    What a pool thread does with a task, in the steps at which the UI thread
    can observe it: the future is marked running; [Image.open] and [load]
    succeed, and the completion callback is handed to Tk before the function
    returns the image, or they raise and the function returns [None]; the
    returned value becomes the future's result. *)

Definition set_future_state (fid : nat) (st : future_state) (s : App) : App :=
  set_futures
    (alter (fun f => {| task_path := task_path f;
                        task_index := task_index f; state := st |})
           fid (futures s)) s.

Definition worker_start (fid : nat) : M unit :=
  s ← get;
  match state <$> futures s !! fid with
  | Some PENDING => modify (set_future_state fid (RUNNING None))
  | _ => mret tt
  end.

Definition worker_decoded (fid : nat) (bytes : list Z) : M unit :=
  s ← get;
  match futures s !! fid with
  | Some f =>
      match state f with
      | RUNNING None =>
          let image := {| filename := task_path f; tobytes := bytes |} in
          modify (fun s =>
            set_after_queue (after_queue s ++ [task_index f])
              (set_future_state fid (RUNNING (Some image)) s))
      | _ => mret tt
      end
  | None => mret tt
  end.

Definition worker_failed (fid : nat) : M unit :=
  s ← get;
  match state <$> futures s !! fid with
  | Some (RUNNING None) => modify (set_future_state fid (FINISHED None))
  | _ => mret tt
  end.

Definition worker_return (fid : nat) : M unit :=
  s ← get;
  match state <$> futures s !! fid with
  | Some (RUNNING (Some image)) =>
      modify (set_future_state fid (FINISHED (Some image)))
  | _ => mret tt
  end.

(** ** Events and reachable states *)

Inductive event :=
| MenuChangeView (index : nat) (path : string) (fs : filesystem)
| MenuGoToKey (index : nat)
| MenuEnterPrefixLength (result : option Z) (fs : filesystem)
| MenuSetGt (index : nat)
| NextImage
| PrevImage
| Zoom (ev : WheelEvent)
| StartDrag (x y : Z)
| DoDrag (x y : Z)
| StopDrag
| Configure (w h : Z)
| AfterResize
| ImageLoaded (n : nat)
| WorkerStart (fid : nat)
| WorkerDecoded (fid : nat) (bytes : list Z)
| WorkerFailed (fid : nat)
| WorkerReturn (fid : nat).

Section Session.

Variable registered_extensions : list string.

(** The [n]-th pending completion callback fires. *)
Definition image_loaded (n : nat) : M unit :=
  s ← get;
  match after_queue s !! n with
  | Some index =>
      modify (set_after_queue (delete n (after_queue s)));;
      on_image_load_main_thread index
  | None => mret tt
  end.

(** What Tk and the thread pool make of an event.  A menu command runs only
    if its entry exists and is enabled: the view and ground-truth menus
    have four entries, a ground-truth entry is enabled once its pane has a
    source, the images menu has one entry per key, and the prefix dialog
    only returns integers between 1 and 100. *)
Definition handle (e : event) : M unit :=
  match e with
  | MenuChangeView index path fs =>
      if decide (index < 4)%nat
      then menu_change_view registered_extensions index path fs
      else mret tt
  | MenuGoToKey index =>
      s ← get;
      if decide (index < length (key_list s))%nat
      then menu_go_to_key (Z.of_nat index) else mret tt
  | MenuEnterPrefixLength result fs =>
      match result with
      | Some n =>
          if (1 <=? n) && (n <=? 100)
          then menu_enter_prefix_length registered_extensions result fs
          else mret tt
      | None => menu_enter_prefix_length registered_extensions None fs
      end
  | MenuSetGt index =>
      s ← get;
      match image_sources s !! index with
      | Some (Some _) => menu_set_gt index
      | _ => mret tt
      end
  | NextImage => next_image
  | PrevImage => prev_image
  | Zoom ev => on_zoom ev
  | StartDrag x y => start_drag x y
  | DoDrag x y => do_drag x y
  | StopDrag => stop_drag
  | Configure w h => modify (set_canvas_size (w, h))
  | AfterResize => show all_cells
  | ImageLoaded n => image_loaded n
  | WorkerStart fid => worker_start fid
  | WorkerDecoded fid bytes => worker_decoded fid bytes
  | WorkerFailed fid => worker_failed fid
  | WorkerReturn fid => worker_return fid
  end.

(** The application runs once [__init__] has returned; from then on every
    event leaves it in the state its handler ended in, whether the handler
    returned or raised (Tk reports the exception and goes on). *)
Inductive reachable : App -> Prop :=
| reachable_init savestate fs canvas s :
    init registered_extensions savestate fs (initial canvas) = (Ok tt, s) ->
    reachable s
| reachable_step s e :
    reachable s -> reachable (exec (handle e) s).

Definition run (es : list event) (s : App) : App :=
  foldl (fun s e => exec (handle e) s) s es.

End Session.

(** * Properties *)

(** [preserves I m]: from a state in [I], [m] ends in [I], whether it returns
    or raises. *)
Definition preserves {A} (I : App -> Prop) (m : M A) : Prop :=
  forall s, I s -> I (exec m s).

(** The same from the states of [I] that are also in [P]. *)
Definition preserves_from {A} (P I : App -> Prop) (m : M A) : Prop :=
  forall s, P s -> I s -> I (exec m s).

(** Pane [i] has a source. *)
Definition has_source (i : nat) (s : App) : Prop :=
  exists src, image_sources s !! i = Some (Some src).

(** [I] does not read the views, resp. the futures. *)
Definition frame_views (I : App -> Prop) : Prop :=
  forall x s, I s -> I (set_image_views x s).
Definition frame_futures (I : App -> Prop) : Prop :=
  forall x s, I s -> I (set_futures x s).

(** ** The key index *)

Definition key_index_in_bounds (s : App) : Prop :=
  match current_key s with
  | None => True
  | Some k => 0 <= k <= Z.of_nat (length (key_list s)) - 1
  end.

(** ** The viewport *)

Definition half_crop_size (s : App) : Q := ((1 # 2) / zoom s)%Q.

Definition coordinate_in_bounds (s : App) (c : Q) : Prop :=
  (half_crop_size s <= c /\ c <= 1 - half_crop_size s)%Q.

Definition crop_center_in_bounds (s : App) : Prop :=
  coordinate_in_bounds s (fst (crop_center s)) /\
  coordinate_in_bounds s (snd (crop_center s)).

Definition viewport_ok (s : App) : Prop :=
  (1 <= zoom s /\ zoom s <= 100)%Q /\ crop_center_in_bounds s.

(** The factor line 340 picks. *)
Definition zoom_factor (event : WheelEvent) : Q :=
  (if wheel_direction event >? 0 then 11 # 10 else 9 # 10)%Q.

(** [zoom_by] as the specification words it: times 1.1 to zoom in, divided
    by 1.1 to zoom out, clamped to [1, 100]. *)
Definition zoom_by_spec (direction : Z) (z : Q) : Q :=
  let z' := (if direction >? 0 then z * (11 # 10) else z / (11 # 10))%Q in
  Qmax 1 (Qmin z' 100).

(** ** The metric *)

(** The mean squared error as the specification words it: the exact mean of
    the squared differences of the bytes. *)
Definition mse_exact (candidate reference : list Z) : npfloat :=
  np_mean (zip_with (fun c r => (c - r) ^ 2) candidate reference).

(** ** Views and their decode tasks *)

(** The future a view holds is a submitted task for the view's own file, and
    an image the view has stored is that task's result. *)
Definition view_backed (pool : list Future) (v : ImageView.t) : Prop :=
  exists f,
    pool !! ImageView.future v = Some f /\
    task_path f = ImageView.path v /\
    forall im, ImageView.image v = Some im -> state f = FINISHED (Some im).

Definition views_backed (s : App) : Prop :=
  forall i v, image_views s !! i = Some (Some v) -> view_backed (futures s) v.

(** An image a task has produced was opened from the task's file. *)
Definition results_named (s : App) : Prop :=
  forall fid f im,
    futures s !! fid = Some f ->
    state f = RUNNING (Some im) \/ state f = FINISHED (Some im) ->
    filename im = task_path f.

Definition decodes_consistent (s : App) : Prop :=
  views_backed s /\ results_named s.

(** Only a pane with a source has a view. *)
Definition views_have_sources (s : App) : Prop :=
  forall i v,
    image_views s !! i = Some (Some v) ->
    exists src, image_sources s !! i = Some (Some src).

(** Every view holds a future submitted after the first [n]. *)
Definition views_since (n : nat) (s : App) : Prop :=
  (n <= length (futures s))%nat /\
  forall i v,
    image_views s !! i = Some (Some v) -> (n <= ImageView.future v)%nat.

(** The body of the loop of lines 273-277. *)
Definition load_body (key : string) : nat * option ImageSource.t -> M unit :=
  fun '(i, source) =>
    match source with
    | Some src =>
        path ← lift (ImageSource.get_file src key); load_view i path
    | None => mret tt
    end.

(** The events that select a key; an entry of the images menu exists only
    for an index of the key list. *)
Definition is_navigation (s : App) (e : event) : Prop :=
  match e with
  | NextImage | PrevImage => True
  | MenuGoToKey index => (index < length (key_list s))%nat
  | _ => False
  end.

(** ** A concrete session

    Two directories of three images each, matched on the default prefix of
    eight characters. *)

Definition example_extensions : list string := [".png"; ".jpg"].

Definition example_fs : filesystem := fun path =>
  if String.eqb path "/d/A" then
    Some {| listing := ["img00001_a.png"; "img00002_a.png"; "img00003_a.PNG";
                        "notes.txt"];
            label_txt := None |}
  else if String.eqb path "/d/B" then
    Some {| listing := ["img00001_b.png"; "img00002_b.png";
                        "img00003_b.png"];
            label_txt := Some "B" |}
  else None.

Definition example_canvas : Z * Z := (1200, 850).

Definition wheel_up : WheelEvent := {| num := Some 4; delta := 0 |}.
Definition wheel_down : WheelEvent := {| num := Some 5; delta := 0 |}.

(** Both directories are open and only the second pane has finished
    decoding. *)
Definition example_half_decoded : App :=
  run example_extensions
    [MenuChangeView 0 "/d/A" example_fs; MenuChangeView 1 "/d/B" example_fs;
     WorkerStart 2; WorkerDecoded 2 [10; 20; 30]; WorkerReturn 2;
     ImageLoaded 0]
    (initial example_canvas).

(** A settings file naming the first directory, with the given key index. *)
Definition example_savestate (key_index : Z) : Settings.t :=
  {| Settings.sources := Some ["/d/A"];
     Settings.key_index := Some (JInt key_index);
     Settings.gt_index := None;
     Settings.prefix_length := None |}.

Definition example_initial : App := initial example_canvas.

(** The wheel turned up twice. *)
Definition example_zoomed : App :=
  run example_extensions [Zoom wheel_up; Zoom wheel_up] example_initial.

(** The first directory is open and its pane is the ground truth. *)
Definition example_gt_first : App :=
  run example_extensions [MenuChangeView 0 "/d/A" example_fs; MenuSetGt 0]
    example_initial.

(** The decode of the first pane has started when the user moves on to the
    next key; it completes afterwards, and so does the decode of the first
    pane for the new key. *)
Definition example_before_navigation : App :=
  run example_extensions [WorkerStart 1] example_half_decoded.

Definition example_late_events : list event :=
  [WorkerDecoded 1 [7; 7; 7]; WorkerReturn 1; ImageLoaded 0;
   WorkerStart 3; WorkerDecoded 3 [9; 9; 9]; WorkerReturn 3; ImageLoaded 0].

Definition example_new_image : Image :=
  {| filename := "/d/A/img00002_a.png"; tobytes := [9; 9; 9] |}.

Definition example_new_view : ImageView.t :=
  {| ImageView.path := "/d/A/img00002_a.png";
     ImageView.future := 3;
     ImageView.image := Some example_new_image;
     ImageView.comparison_text := None |}.

(** The application started from [example_savestate key_index] before the
    window is mapped. *)
Definition example_startup (key_index : Z) : outcome unit * App :=
  init example_extensions (Some (example_savestate key_index)) example_fs
       (initial (1, 1)).

(** Which panes have a view, and whether the view has its image. *)
Definition decoded_panes (s : App) : list (option bool) :=
  List.map
    (option_map (fun v => bool_decide (is_Some (ImageView.image v))))
    (image_views s).

(** ** Further properties: definitions *)

(** The keys that the first source and all the others have. *)
Definition common_keys (src : ImageSource.t) (srcs : list ImageSource.t)
    : gset string :=
  foldl (∩) (dom (ImageSource.files src))
        ((fun source => dom (ImageSource.files source)) <$> srcs).

(** The dictionary that line 32 builds from the image files of a listing. *)
Definition files_of (prefix_length : Z) (names : list string)
    : gmap string string :=
  foldl (fun m f => <[py_prefix f prefix_length := f]> m) ∅ names.


(** A source with one image, and the state in which it is the only source. *)
Definition example_source : ImageSource.t :=
  {| ImageSource.path := "/d/A"; ImageSource.label := "A";
     ImageSource.files := files_of 8 ["img00001_a.png"] |}.

Definition example_one_source : App :=
  set_image_sources [Some example_source; None; None; None] example_initial.



(** Where lines 365-377 put the crop centre for a mouse position. *)
Definition drag_center (x y : Z) (s : App) : Q * Q :=
  let dx := x - fst (start_drag_mouse s) in
  let dy := y - snd (start_drag_mouse s) in
  let '(cell_w, cell_h) := current_cell_size s in
  let '(cx, cy) := start_drag_crop_center s in
  let half := ((1 # 2) / zoom s)%Q in
  (clamp_center (cx - inject_Z dx / (inject_Z cell_w * zoom s))%Q half,
   clamp_center (cy - inject_Z dy / (inject_Z cell_h * zoom s))%Q half).

(** The body of the loop of lines 263-265 of [load_images]. *)
Definition cancel_body (view : option ImageView.t) : M unit :=
  match view with
  | Some v =>
      match ImageView.image v with
      | None => cancel (ImageView.future v)
      | Some _ => mret tt
      end
  | None => mret tt
  end.

(** Every key of the key list names a file in every configured source. *)
Definition keys_resolve (s : App) : Prop :=
  forall key src, key ∈ key_list s -> Some src ∈ image_sources s ->
    is_Some (ImageSource.files src !! key).

(** The source of the first directory of [example_fs]. *)
Definition example_source_a : ImageSource.t :=
  {| ImageSource.path := "/d/A"; ImageSource.label := "A";
     ImageSource.files :=
       files_of 8 ["img00001_a.png"; "img00002_a.png"; "img00003_a.PNG"] |}.

(** A key is selected whenever there is one. *)
Definition key_selected (s : App) : Prop :=
  current_key s = None -> key_list s = [].

(** No view waits for a cancelled task. *)
Definition no_cancelled_view (s : App) : Prop :=
  forall i v f,
    image_views s !! i = Some (Some v) ->
    futures s !! ImageView.future v = Some f ->
    state f <> CANCELLED.

(** While the key index is within the key list, no view waits for a
    cancelled task. *)
Definition views_alive (s : App) : Prop :=
  key_index_in_bounds s -> no_cancelled_view s.

(** The key list and index are [ks] and [k], and no view waits for a
    cancelled task if [P] holds. *)
Definition keeps_alive (P : Prop) (ks : list string) (k : option Z)
    (s : App) : Prop :=
  key_list s = ks /\ current_key s = k /\ (P -> no_cancelled_view s).

(** The slots are there, only a pane with a source has a view, and the key
    list and the sources agree. *)
Definition panes_ok (s : App) : Prop :=
  length (image_sources s) = 4%nat /\ length (image_views s) = 4%nat /\
  views_have_sources s /\ keys_resolve s.

(** The body of the loop of [show]. *)
Definition show_cell (i : nat) : M unit :=
  view ← get_view (Z.of_nat i);
  match view with
  | Some _ =>
      pane_get_image (Z.of_nat i);;
      s ← get;
      source ← lift (py_index (image_sources s) (Z.of_nat i));
      match source with
      | Some _ => mret tt
      | None => raise AttributeError
      end
  | None => mret tt
  end.

(** What a redraw needs: the slots, a source for every view, no view
    waiting for a cancelled task, and a selected key if there is one. *)
Definition drawable (s : App) : Prop :=
  length (image_sources s) = 4%nat /\ length (image_views s) = 4%nat /\
  views_have_sources s /\ no_cancelled_view s /\ key_selected s.

(** The key list is the one [update_key_list] computes from the sources. *)
Definition keys_current (s : App) : Prop :=
  match available_sources s with
  | [] => key_list s = []
  | src :: srcs => key_list s = sorted_keys (common_keys src srcs)
  end.

(** The path [save_settings] writes for a pane. *)
Definition saved_path (source : option ImageSource.t) : string :=
  match source with
  | Some src => ImageSource.path src
  | None => ""
  end.

(** Lines 169-174: the object [save_settings] writes. *)
Definition saved_settings (s : App) : Settings.t :=
  {| Settings.sources :=
       Some (saved_path <$> image_sources s);
     Settings.key_index :=
       Some (match current_key s with Some k => JInt k | None => JOther end);
     Settings.gt_index :=
       Some (match gt_index s with Some g => JInt g | None => JOther end);
     Settings.prefix_length := Some (JInt (prefix_length s)) |}.

(** The body of the loop of lines 142-144 of [__init__]. *)
Definition restore_source (exts : list string) (fs : filesystem)
    : nat * string -> M unit :=
  fun '(i, path) =>
    match fs path with
    | Some _ =>
        s ← get;
        source ← lift (ImageSource.init exts fs path (prefix_length s));
        assign_source i source
    | None => mret tt
    end.


(** What the settings file keeps of a state. *)
Definition same_settings (s s' : App) : Prop :=
  image_sources s' = image_sources s /\ key_list s' = key_list s /\
  current_key s' = current_key s /\ gt_index s' = gt_index s /\
  prefix_length s' = prefix_length s.

(** The body of the loop of lines 224-229 of [menu_set_gt]. *)
Definition set_gt_body (index i : nat) : M unit :=
  view ← get_view (Z.of_nat i);
  match view with
  | Some _ =>
      if decide (i = index) then pane_set_gt (Z.of_nat i)
      else
        gt_view ← get_view (Z.of_nat index);
        match gt_view with
        | Some g =>
            match ImageView.image g with
            | Some im => pane_calculate_psnr (Z.of_nat i) (Some im)
            | None => mret tt
            end
        | None => mret tt
        end
  | None => mret tt
  end.

(** The comparison label that pane [j] shows. *)
Definition pane_label (s : App) (j : nat) : option comparison :=
  match image_views s !! j with
  | Some (Some w) => ImageView.comparison_text w
  | _ => None
  end.

(** * Reasoning about operations *)

Lemma exec_bind {A B} (m : M A) (k : A -> M B) s :
  exec (m ≫= k) s =
  match m s with
  | (Ok a, s') => exec (k a) s'
  | (Raise _, s') => s'
  end.
Proof. unfold exec, mbind, M_bind. by destruct (m s) as [[a|e] s']. Qed.

Lemma returns_bind {A B} (m : M A) (k : A -> M B) s :
  returns (m ≫= k) s =
  match m s with
  | (Ok a, s') => returns (k a) s'
  | (Raise e, _) => Raise e
  end.
Proof. unfold returns, mbind, M_bind. by destruct (m s) as [[a|e] s']. Qed.

Lemma exec_bind_ok {A B} (m : M A) (k : A -> M B) s a s' :
  m s = (Ok a, s') -> exec (m ≫= k) s = exec (k a) s'.
Proof. intros H. by rewrite exec_bind, H. Qed.

Lemma exec_bind_raise {A B} (m : M A) (k : A -> M B) s e s' :
  m s = (Raise e, s') -> exec (m ≫= k) s = s'.
Proof. intros H. by rewrite exec_bind, H. Qed.

Lemma returns_bind_okk {A B} (m : M A) (k : A -> M B) s a s' :
  m s = (Ok a, s') -> returns (m ≫= k) s = returns (k a) s'.
Proof. intros H. by rewrite returns_bind, H. Qed.

(** An operation that returned, run as its two halves. *)
Lemma returns_bind_ok {A B} (m : M A) (k : A -> M B) s b :
  returns (m ≫= k) s = Ok b ->
  exists a, returns m s = Ok a /\ returns (k a) (exec m s) = Ok b /\
            exec (m ≫= k) s = exec (k a) (exec m s).
Proof.
  rewrite returns_bind, exec_bind. unfold returns, exec.
  destruct (m s) as [[a|e] s']; simpl; [eauto | done].
Qed.

Section Preserves.

Context {I : App -> Prop}.

Lemma preserves_ret {A} (a : A) : preserves I (mret a).
Proof. by intros s. Qed.

Lemma preserves_raise {A} e : preserves I (@raise A e).
Proof. by intros s. Qed.

Lemma preserves_get : preserves I get.
Proof. by intros s. Qed.

Lemma preserves_lift {A} (o : outcome A) : preserves I (lift o).
Proof. by destruct o; intros s. Qed.

Lemma preserves_modify f :
  (forall s, I s -> I (f s)) -> preserves I (modify f).
Proof. intros Hf s Hs. by apply Hf. Qed.

Lemma preserves_bind {A B} (m : M A) (k : A -> M B) :
  preserves I m -> (forall a, preserves I (k a)) -> preserves I (m ≫= k).
Proof.
  intros Hm Hk s Hs. rewrite exec_bind.
  specialize (Hm s Hs). unfold exec in Hm.
  destruct (m s) as [[a|e] s']; simpl in Hm; [by apply Hk | done].
Qed.

Lemma preserves_for_each_in {A} (l : list A) (body : A -> M unit) :
  (forall x, x ∈ l -> preserves I (body x)) ->
  preserves I (for_each l body).
Proof.
  induction l as [|x l IH]; intros Hb; simpl.
  - apply preserves_ret.
  - apply preserves_bind; [apply Hb; left | intros _; apply IH].
    intros y Hy. apply Hb. by right.
Qed.

Lemma preserves_for_each {A} (l : list A) (body : A -> M unit) :
  (forall x, preserves I (body x)) -> preserves I (for_each l body).
Proof. intros Hb. apply preserves_for_each_in. auto. Qed.

Lemma preserves_get_bind {B} (k : App -> M B) :
  (forall s, I s -> I (exec (k s) s)) -> preserves I (get ≫= k).
Proof. intros Hk s Hs. rewrite exec_bind. simpl. by apply Hk. Qed.

Lemma preserves_weaken {A} (P : App -> Prop) (m : M A) :
  preserves I m -> preserves_from P I m.
Proof. intros Hm s _. apply Hm. Qed.

End Preserves.

(** Splits an operation along its binds, loops and case distinctions; the
    primitive steps are closed from the context. *)
Ltac pres_step :=
  lazymatch goal with
  | |- preserves _ (mret _) => apply preserves_ret
  | |- preserves _ (raise _) => apply preserves_raise
  | |- preserves _ get => apply preserves_get
  | |- preserves _ (lift _) => apply preserves_lift
  | |- preserves _ save_settings => apply preserves_ret
  | |- preserves _ (get_view _) => unfold get_view
  | |- preserves _ (for_each _ _) => apply preserves_for_each; intros ?
  | |- preserves _ (mbind _ _) => apply preserves_bind; [|intros ?]
  | |- preserves _ (match ?x with _ => _ end) => destruct x
  | |- preserves _ (let '(_, _) := ?x in _) => destruct x
  end.

Ltac pres := repeat first [ progress eauto 2 | pres_step ].

(** ** What a method call on a pane does *)

Lemma on_view_cases {A} i (method : ImageView.t -> list Future ->
                                     outcome (ImageView.t * A)) s :
  (exists e, on_view i method s = (Raise e, s)) \/
  exists p v v' a,
    py_pos (length (image_views s)) i = Ok p /\
    image_views s !! p = Some (Some v) /\
    method v (futures s) = Ok (v', a) /\
    on_view i method s =
      (Ok a, set_image_views (<[p := Some v']> (image_views s)) s).
Proof.
  unfold on_view, mbind, M_bind, get, lift. simpl.
  destruct (py_pos _ i) as [p|e] eqn:Hp; simpl; [|eauto].
  destruct (image_views s !! p) as [[v|]|] eqn:Hv; simpl; eauto.
  destruct (method v (futures s)) as [[v' a]|e] eqn:Hm; simpl; eauto.
  right. exists p, v, v', a. eauto.
Qed.

Lemma get_image_cases v f v' r :
  ImageView.get_image v f = Ok (v', r) ->
  ImageView.path v' = ImageView.path v /\
  ImageView.future v' = ImageView.future v /\
  ImageView.comparison_text v' = ImageView.comparison_text v /\
  ImageView.image v' = r /\
  (ImageView.image v = r \/
   ImageView.image v = None /\ state f = FINISHED r).
Proof.
  unfold ImageView.get_image, future_done, future_result.
  destruct (ImageView.image v) as [im|] eqn:Him.
  - intros [= <- <-]. rewrite Him. auto 10.
  - destruct (state f) eqn:Hf; intros [= <- <-]; simpl; auto 10.
Qed.

Lemma calculate_psnr_cases v gt v' :
  ImageView.calculate_psnr v gt = Ok v' ->
  ImageView.path v' = ImageView.path v /\
  ImageView.future v' = ImageView.future v /\
  ImageView.image v' = ImageView.image v.
Proof.
  unfold ImageView.calculate_psnr. intros H.
  repeat case_match; simplify_eq; auto.
Qed.

Lemma load_view_sources i path s :
  image_sources (exec (load_view i path) s) = image_sources s.
Proof.
  unfold load_view, submit, assign_view, py_setitem.
  unfold exec, mbind, M_bind, mret, M_ret, get, modify, lift, raise. simpl.
  by case_decide.
Qed.

(** ** Operations built from primitive steps *)

Section Operations.

Context {I : App -> Prop}.

Hypothesis Hget_image : forall i, preserves I (pane_get_image i).
Hypothesis Hset_gt : forall i, preserves I (pane_set_gt i).
Hypothesis Hpsnr : forall i gt, preserves I (pane_calculate_psnr i gt).
Hypothesis Hcancel : forall fid, preserves I (cancel fid).
Hypothesis Hclear :
  preserves I (modify (set_image_views [None; None; None; None])).
Hypothesis Hload_view :
  forall i path, preserves_from (has_source i) I (load_view i path).
Hypothesis Hreset : preserves I (modify reset_transformations).
Hypothesis Hkey_list : forall l, preserves I (modify (set_key_list l)).
Hypothesis Hclamp : preserves I (modify clamp_current_key).
Hypothesis Hcurrent_key : forall k, preserves I (modify (set_current_key k)).
Hypothesis Hgt_index : forall g, preserves I (modify (set_gt_index g)).
Hypothesis Hinitial_dir : forall d, preserves I (modify (set_initial_dir d)).
Hypothesis Hprefix : forall n, preserves I (modify (set_prefix_length n)).
Hypothesis Hassign_source : forall i src, preserves I (assign_source i src).
Hypothesis Hrebuild :
  forall exts fs n, preserves I (rebuild_sources exts fs n).
Hypothesis Hzoomed : forall ev, preserves I (modify (zoomed ev)).
Hypothesis Hstart_drag : forall x y, preserves I (start_drag x y).
Hypothesis Hdragged : forall mx my, preserves I (modify (dragged mx my)).
Hypothesis Hdragging : forall b, preserves I (modify (set_dragging b)).
Hypothesis Hcanvas : forall c, preserves I (modify (set_canvas_size c)).
Hypothesis Hafter : forall q, preserves I (modify (set_after_queue q)).
Hypothesis Hworker_start : forall fid, preserves I (worker_start fid).
Hypothesis Hworker_decoded :
  forall fid bytes, preserves I (worker_decoded fid bytes).
Hypothesis Hworker_failed : forall fid, preserves I (worker_failed fid).
Hypothesis Hworker_return : forall fid, preserves I (worker_return fid).

Lemma show_preserves cells : preserves I (show cells).
Proof. unfold show. pres. Qed.

Lemma load_images_preserves : preserves I load_images.
Proof.
  unfold load_images.
  apply preserves_bind; [pres|intros s0].
  apply preserves_bind; [pres|intros _].
  apply preserves_get_bind. intros s Hs.
  destruct (current_key s) as [ck|]; [|by apply Hclear].
  destruct (py_index (key_list s) ck) as [key|e];
    [erewrite exec_bind_ok by reflexivity |
     by erewrite exec_bind_raise by reflexivity].
  set (J := fun s' => I s' /\ image_sources s' = image_sources s).
  assert (J (exec (for_each (imap pair (image_sources s))
    (fun '(i, source) =>
       match source with
       | Some src =>
           path ← lift (ImageSource.get_file src key); load_view i path
       | None => mret tt
       end)) s)) as [HI _].
  { apply (preserves_for_each_in (I := J)); [|done].
    intros [i [src|]] Hin; [|apply preserves_ret].
    apply elem_of_lookup_imap in Hin as (i' & x & [= <- <-] & Hx).
    apply preserves_bind; [apply preserves_lift|].
    intros path s' [Hs' E]. split.
    - apply Hload_view; [|done]. exists src. by rewrite E.
    - rewrite <- E. apply load_view_sources. }
  rewrite exec_bind. unfold exec in HI.
  destruct (for_each _ _ s) as [[[]|e] s']; simpl in *; [|done].
  by apply Hreset.
Qed.

Lemma update_key_list_preserves indices :
  preserves I (update_key_list indices).
Proof. unfold update_key_list. pres. Qed.

Lemma on_image_load_main_thread_preserves index :
  preserves I (on_image_load_main_thread index).
Proof using Hget_image Hset_gt Hpsnr.
  unfold on_image_load_main_thread. pres; apply show_preserves.
Qed.

Lemma menu_go_to_key_preserves index : preserves I (menu_go_to_key index).
Proof using Hget_image Hcancel Hclear Hload_view Hreset Hcurrent_key.
  unfold menu_go_to_key.
  pres; first [apply load_images_preserves | apply show_preserves].
Qed.

Lemma next_image_preserves : preserves I next_image.
Proof using Hget_image Hcancel Hclear Hload_view Hreset Hcurrent_key.
  unfold next_image.
  pres; first [apply load_images_preserves | apply show_preserves].
Qed.

Lemma prev_image_preserves : preserves I prev_image.
Proof using Hget_image Hcancel Hclear Hload_view Hreset Hcurrent_key.
  unfold prev_image.
  pres; first [apply load_images_preserves | apply show_preserves].
Qed.

Lemma menu_set_gt_preserves index : preserves I (menu_set_gt index).
Proof using Hget_image Hset_gt Hpsnr Hgt_index.
  unfold menu_set_gt. pres; apply show_preserves.
Qed.

Lemma menu_change_view_preserves exts index path fs :
  preserves I (menu_change_view exts index path fs).
Proof using Hget_image Hcancel Hclear Hload_view Hreset Hkey_list Hclamp
  Hgt_index Hinitial_dir Hassign_source.
  unfold menu_change_view.
  pres; first [ apply update_key_list_preserves
              | apply load_images_preserves | apply show_preserves ].
Qed.

Lemma menu_enter_prefix_length_preserves exts result fs :
  preserves I (menu_enter_prefix_length exts result fs).
Proof using Hget_image Hcancel Hclear Hload_view Hreset Hkey_list Hclamp
  Hprefix Hrebuild.
  unfold menu_enter_prefix_length.
  pres; first [ apply update_key_list_preserves
              | apply load_images_preserves | apply show_preserves ].
Qed.

Lemma on_zoom_preserves ev : preserves I (on_zoom ev).
Proof using Hget_image Hzoomed.
  unfold on_zoom. pres; apply show_preserves.
Qed.

Lemma do_drag_preserves x y : preserves I (do_drag x y).
Proof using Hget_image Hdragged.
  unfold do_drag. pres; apply show_preserves.
Qed.

Lemma stop_drag_preserves : preserves I stop_drag.
Proof using Hget_image Hdragging.
  unfold stop_drag. pres; apply show_preserves.
Qed.

Lemma image_loaded_preserves n : preserves I (image_loaded n).
Proof using Hget_image Hset_gt Hpsnr Hafter.
  unfold image_loaded. pres; apply on_image_load_main_thread_preserves.
Qed.

(** Every event handler keeps an invariant that every primitive step
    keeps. *)
Lemma handle_preserves exts e : preserves I (handle exts e).
Proof using All.
  destruct e; simpl.
  - pres. apply menu_change_view_preserves.
  - pres. apply menu_go_to_key_preserves.
  - pres; apply menu_enter_prefix_length_preserves.
  - pres. apply menu_set_gt_preserves.
  - apply next_image_preserves.
  - apply prev_image_preserves.
  - apply on_zoom_preserves.
  - apply Hstart_drag.
  - apply do_drag_preserves.
  - apply stop_drag_preserves.
  - apply Hcanvas.
  - apply show_preserves.
  - apply image_loaded_preserves.
  - apply Hworker_start.
  - apply Hworker_decoded.
  - apply Hworker_failed.
  - apply Hworker_return.
Qed.

Lemma init_preserves exts savestate fs :
  preserves I (init exts savestate fs).
Proof using Hget_image Hcancel Hclear Hload_view Hreset Hkey_list Hclamp
  Hcurrent_key Hgt_index Hprefix Hassign_source.
  unfold init, load_savestate, restore_key_index.
  pres; first [ apply update_key_list_preserves
              | apply load_images_preserves | apply show_preserves ].
Qed.

(** Hence the invariant holds in every reachable state if it holds when
    [__init__] begins. *)
Lemma reachable_invariant exts s :
  (forall canvas, I (initial canvas)) -> reachable exts s -> I s.
Proof using All.
  intros Hinit Hs. induction Hs as [savestate fs canvas s Hs|s e _ IH].
  - pose proof (init_preserves exts savestate fs (initial canvas)
                  (Hinit canvas)) as H.
    unfold exec in H. by rewrite Hs in H.
  - by apply handle_preserves.
Qed.

End Operations.

(** ** Primitive steps and invariants that do not read what they write *)

(** Runs an operation whose steps are all in sight. *)
Ltac run_m :=
  unfold exec, returns, mbind, M_bind, mret, M_ret, get, modify, lift, raise;
  simpl.

Section Frames.

Context {I : App -> Prop}.

Lemma on_view_frame {A} i
    (method : ImageView.t -> list Future -> outcome (ImageView.t * A)) :
  frame_views I -> preserves I (on_view i method).
Proof.
  intros Hv s Hs. unfold exec.
  destruct (on_view_cases i method s) as [[e ->]|(p & v & v' & a & _ & _ & _ & ->)];
    simpl; auto.
Qed.

Lemma cancel_frame fid : frame_futures I -> preserves I (cancel fid).
Proof. intros Hf s Hs. apply Hf, Hs. Qed.

Lemma clear_frame :
  frame_views I ->
  preserves I (modify (set_image_views [None; None; None; None])).
Proof. intros Hv s Hs. apply Hv, Hs. Qed.

Lemma load_view_frame i path :
  frame_views I -> frame_futures I -> preserves I (load_view i path).
Proof.
  intros Hv Hf s Hs. unfold load_view, submit, assign_view, py_setitem.
  run_m. case_decide; simpl; auto.
Qed.

Lemma worker_start_frame fid :
  frame_futures I -> preserves I (worker_start fid).
Proof.
  intros Hf s Hs. unfold worker_start. run_m.
  repeat case_match; simpl; auto. apply Hf, Hs.
Qed.

Lemma worker_failed_frame fid :
  frame_futures I -> preserves I (worker_failed fid).
Proof.
  intros Hf s Hs. unfold worker_failed. run_m.
  repeat case_match; simpl; auto. apply Hf, Hs.
Qed.

Lemma worker_return_frame fid :
  frame_futures I -> preserves I (worker_return fid).
Proof.
  intros Hf s Hs. unfold worker_return. run_m.
  repeat case_match; simpl; auto. apply Hf, Hs.
Qed.

Lemma worker_decoded_frame fid bytes :
  frame_futures I -> (forall q s, I s -> I (set_after_queue q s)) ->
  preserves I (worker_decoded fid bytes).
Proof.
  intros Hf Hq s Hs. unfold worker_decoded. run_m.
  repeat case_match; simpl; auto. apply Hq. by apply Hf.
Qed.

Lemma assign_source_frame i src :
  (forall x s, I s -> I (set_image_sources x s)) ->
  preserves I (assign_source i src).
Proof.
  intros Hx s Hs. unfold assign_source, py_setitem. run_m.
  case_decide; simpl; auto.
Qed.

Lemma rebuild_sources_frame exts fs n :
  (forall x s, I s -> I (set_image_sources x s)) ->
  preserves I (rebuild_sources exts fs n).
Proof.
  intros Hx s Hs. unfold rebuild_sources. run_m.
  destruct (mapM _ _); simpl; auto.
Qed.

End Frames.

(** ** The viewport *)

Lemma half_crop_size_bounds z :
  (1 <= z -> 0 < (1 # 2) / z /\ (1 # 2) / z <= 1 # 2)%Q.
Proof.
  intros Hz. split.
  - apply Qlt_shift_div_l; lra.
  - apply Qle_shift_div_r; lra.
Qed.

Lemma clamp_center_bounds c h :
  (h <= 1 # 2 -> h <= clamp_center c h /\ clamp_center c h <= 1 - h)%Q.
Proof.
  intros Hh. unfold clamp_center, py_min, py_max.
  repeat destruct (Qlt_le_dec _ _); split; lra.
Qed.

(** A centre that is within bounds is left where it is. *)
Lemma clamp_center_id c h :
  (h <= c -> c <= 1 - h -> clamp_center c h == c)%Q.
Proof.
  intros H1 H2. unfold clamp_center, py_min, py_max.
  repeat destruct (Qlt_le_dec _ _); lra.
Qed.

Lemma zoomed_zoom_bounds ev s :
  (1 <= zoom (zoomed ev s) /\ zoom (zoomed ev s) <= 100)%Q.
Proof.
  unfold zoomed. destruct (crop_center s) as [cx cy]. simpl.
  unfold py_min, py_max. repeat destruct (Qlt_le_dec _ _); split; lra.
Qed.

Lemma zoomed_viewport_ok ev s : viewport_ok (zoomed ev s).
Proof.
  split; [apply zoomed_zoom_bounds|].
  pose proof (zoomed_zoom_bounds ev s) as [Hz _].
  unfold crop_center_in_bounds, coordinate_in_bounds, half_crop_size.
  destruct (half_crop_size_bounds _ Hz) as [_ Hh].
  revert Hz Hh. unfold zoomed. destruct (crop_center s) as [cx cy]. simpl.
  intros Hz Hh. split; by apply clamp_center_bounds.
Qed.

Lemma dragged_viewport_ok mx my s : viewport_ok s -> viewport_ok (dragged mx my s).
Proof.
  intros [[Hz1 Hz2] _]. unfold dragged.
  destruct (start_drag_crop_center s) as [cx cy].
  split; [done|].
  unfold crop_center_in_bounds, coordinate_in_bounds, half_crop_size. simpl.
  destruct (half_crop_size_bounds _ Hz1) as [_ Hh].
  split; by apply clamp_center_bounds.
Qed.

Lemma reset_viewport_ok s : viewport_ok (reset_transformations s).
Proof.
  unfold viewport_ok, crop_center_in_bounds, coordinate_in_bounds,
    half_crop_size. simpl.
  assert ((1 # 2) / 1 == 1 # 2)%Q as -> by reflexivity. lra.
Qed.

(** Close the goal for a primitive step that does not write what the
    invariant reads. *)
Ltac frame_atoms :=
  try apply preserves_weaken;
  first
    [ apply on_view_frame | apply cancel_frame | apply clear_frame
    | apply load_view_frame | apply worker_start_frame
    | apply worker_failed_frame | apply worker_return_frame
    | apply worker_decoded_frame | apply assign_source_frame
    | apply rebuild_sources_frame ];
  by intros ? ? ?.

Ltac modify_atom :=
  apply preserves_modify; intros ? ?;
  unfold clamp_current_key, zoomed, dragged, reset_transformations;
  repeat case_match; done.

Ltac frame_atom := first [ frame_atoms | modify_atom | by intros ? ? ].

Lemma viewport_ok_reachable exts s : reachable exts s -> viewport_ok s.
Proof.
  apply reachable_invariant; intros;
    first
      [ frame_atoms
      | apply preserves_modify; intros ? ?;
        first [ assumption | apply zoomed_viewport_ok
              | by apply dragged_viewport_ok | apply reset_viewport_ok
              | unfold clamp_current_key; by repeat case_match ]
      | by intros ? ?
      | apply (reset_viewport_ok (initial canvas)) ].
Qed.

(** C8: in every reachable state, hence after every zoom and every pan, both
    coordinates of the crop centre lie in [0.5/zoom, 1 - 0.5/zoom]; at zoom 1
    the centre is (0.5, 0.5). *)
Theorem crop_center_always_in_bounds exts s :
  reachable exts s ->
  crop_center_in_bounds s /\
  (zoom s == 1 ->
   fst (crop_center s) == 1 # 2 /\ snd (crop_center s) == 1 # 2)%Q.
Proof.
  intros Hs. destruct (viewport_ok_reachable _ _ Hs) as [_ Hc].
  split; [done|]. intros Hz.
  destruct Hc as [[H1 H2] [H3 H4]]. unfold half_crop_size in *.
  rewrite Hz in H1, H2, H3, H4.
  assert ((1 # 2) / 1 == 1 # 2)%Q as E by reflexivity.
  rewrite E in H1, H2, H3, H4. split; lra.
Qed.

(** ** Zooming *)

Lemma show_keeps_viewport cells z c s :
  zoom s = z /\ crop_center s = c ->
  zoom (exec (show cells) s) = z /\ crop_center (exec (show cells) s) = c.
Proof.
  apply (show_preserves (I := fun s => zoom s = z /\ crop_center s = c)).
  intros; frame_atom.
Qed.

Lemma on_zoom_exec ev s :
  zoom (exec (on_zoom ev) s) = zoom (zoomed ev s) /\
  crop_center (exec (on_zoom ev) s) = crop_center (zoomed ev s).
Proof.
  unfold on_zoom. rewrite exec_bind. simpl.
  by apply show_keeps_viewport.
Qed.

(** C7, as the code has it: a wheel event of positive direction multiplies
    the zoom by 1.1 and every other wheel event multiplies it by 0.9; the
    product is clamped to [1, 100]; each coordinate of the crop centre is
    then clamped to [0.5/zoom, 1 - 0.5/zoom] for the new zoom, and is left
    alone when it already lies there. *)
Theorem on_zoom_scales_and_clamps ev s :
  let factor := (if wheel_direction ev >? 0 then 11 # 10 else 9 # 10)%Q in
  let s' := exec (on_zoom ev) s in
  let clamped (c c' : Q) :=
    (coordinate_in_bounds s' c' /\
     (coordinate_in_bounds s' c -> c' == c) /\
     (c < half_crop_size s' -> c' == half_crop_size s') /\
     (1 - half_crop_size s' < c -> c' == 1 - half_crop_size s'))%Q in
  ((1 <= zoom s' /\ zoom s' <= 100) /\
   (1 <= zoom s * factor /\ zoom s * factor <= 100 ->
    zoom s' == zoom s * factor) /\
   (zoom s * factor < 1 -> zoom s' == 1) /\
   (100 < zoom s * factor -> zoom s' == 100))%Q /\
  clamped (fst (crop_center s)) (fst (crop_center s')) /\
  clamped (snd (crop_center s)) (snd (crop_center s')).
Proof.
  intros factor s' clamped. subst clamped s'. simpl.
  unfold coordinate_in_bounds, half_crop_size.
  destruct (on_zoom_exec ev s) as [-> ->].
  pose proof (zoomed_zoom_bounds ev s) as [Hz1 Hz2].
  destruct (half_crop_size_bounds _ Hz1) as [Hh0 Hh].
  revert Hz1 Hz2 Hh0 Hh. unfold zoomed. fold factor.
  destruct (crop_center s) as [cx cy]. simpl.
  set (z := py_max 1 (py_min (zoom s * factor) 100)).
  set (h := ((1 # 2) / z)%Q). intros Hz1 Hz2 Hh0 Hh.
  split; [|split].
  - subst z. unfold py_max, py_min in *.
    repeat destruct (Qlt_le_dec _ _); repeat split; intros; lra.
  - unfold clamp_center, py_min, py_max.
    repeat destruct (Qlt_le_dec _ _); repeat split; intros; lra.
  - unfold clamp_center, py_min, py_max.
    repeat destruct (Qlt_le_dec _ _); repeat split; intros; lra.
Qed.

(** ** Replacing a source *)

Lemma mapM_outcome_length {A B} (f : A -> outcome B) l l' :
  mapM f l = Ok l' -> length l' = length l.
Proof.
  revert l'. induction l as [|x xs IH]; intros l'; simpl.
  - by intros [= <-].
  - destruct (f x); simpl; [|done].
    destruct (mapM f xs); simpl; [|done].
    intros [= <-]. simpl. f_equal. by apply IH.
Qed.

Lemma sources_length_reachable exts s :
  reachable exts s -> length (image_sources s) = 4%nat.
Proof.
  apply (reachable_invariant
           (I := fun s => length (image_sources s) = 4%nat)); intros;
    try first [ frame_atom | reflexivity ].
  - intros s' Hs'. unfold assign_source, py_setitem. run_m.
    case_decide; simpl; [by rewrite length_insert | done].
  - intros s' Hs'. unfold rebuild_sources. run_m.
    destruct (mapM _ _) as [l|] eqn:Hl; simpl; [|done].
    apply mapM_outcome_length in Hl. congruence.
Qed.

(** C10: when a directory is assigned to the pane that is the ground truth,
    no pane is the ground truth afterwards. *)
Theorem change_view_clears_gt exts s index path fs :
  reachable exts s ->
  (index < 4)%nat ->
  path <> "" ->
  is_Some (fs path) ->
  gt_index s = Some (Z.of_nat index) ->
  gt_index (exec (menu_change_view exts index path fs) s) = None.
Proof.
  intros Hs Hi Hpath [d Hd] Hgt.
  apply sources_length_reachable in Hs.
  unfold menu_change_view.
  destruct (String.eqb path "") eqn:E; [by apply String.eqb_eq in E|].
  erewrite exec_bind_ok by reflexivity.
  erewrite exec_bind_ok
    by (unfold ImageSource.init; rewrite Hd; reflexivity).
  erewrite exec_bind_ok
    by (unfold assign_source, py_setitem; run_m;
        rewrite decide_True by lia; reflexivity).
  erewrite exec_bind_ok by reflexivity.
  erewrite exec_bind_ok by reflexivity.
  erewrite exec_bind_ok
    by (simpl; rewrite Hgt, decide_True by done; reflexivity).
  apply (preserves_bind (I := fun s => gt_index s = None));
    [|intros _; apply preserves_bind; [|intros _; apply preserves_bind]|];
    try done.
  - apply update_key_list_preserves; intros; frame_atom.
  - apply load_images_preserves; intros; frame_atom.
  - apply show_preserves; intros; frame_atom.
  - intros _. apply preserves_ret.
Qed.

(** ** Views and their decode tasks *)

Lemma views_insert (P : ImageView.t -> Prop) (views : list (option ImageView.t))
    p v' :
  (forall i v, views !! i = Some (Some v) -> P v) ->
  P v' ->
  forall i v, <[p := Some v']> views !! i = Some (Some v) -> P v.
Proof.
  intros Hall Hv' i v. destruct (decide (i = p)) as [->|Hne].
  - destruct (decide (p < length views)%nat).
    + rewrite list_lookup_insert_eq by done. by intros [= <-].
    + rewrite list_insert_ge by lia. apply Hall.
  - rewrite list_lookup_insert_ne by done. apply Hall.
Qed.

(** A method of a view that keeps the view backed keeps all views backed. *)
Lemma on_view_backed {A} i
    (method : ImageView.t -> list Future -> outcome (ImageView.t * A)) :
  (forall pool v v' a,
     view_backed pool v -> method v pool = Ok (v', a) -> view_backed pool v') ->
  preserves decodes_consistent (on_view i method).
Proof.
  intros Hm s [Hv Hr]. unfold exec.
  destruct (on_view_cases i method s)
    as [[e ->]|(p & v & v' & a & _ & Hp & Hmv & ->)]; simpl; [done|].
  split; [|done]. intros j w. simpl.
  apply (views_insert (view_backed (futures s))); [apply Hv|].
  eapply Hm; [|done]. by eapply Hv.
Qed.

Lemma pane_get_image_consistent i :
  preserves decodes_consistent (pane_get_image i).
Proof.
  apply on_view_backed. intros pool v v' r (f & Hf & Hpath & Him) Hget.
  unfold future_of in Hget. rewrite Hf in Hget. simpl in Hget.
  apply get_image_cases in Hget as (Ep & Ef & _ & Ei & Hcase).
  exists f. rewrite Ep, Ef. split; [done|split; [done|]].
  intros im Hv'. rewrite Ei in Hv'. subst r.
  destruct Hcase as [E|[_ E]]; [apply Him | ]; congruence.
Qed.

Lemma pane_set_gt_consistent i : preserves decodes_consistent (pane_set_gt i).
Proof.
  apply on_view_backed. intros pool v v' [] Hv [= <-]. exact Hv.
Qed.

Lemma pane_calculate_psnr_consistent i gt :
  preserves decodes_consistent (pane_calculate_psnr i gt).
Proof.
  apply on_view_backed. intros pool v v' [] (f & Hf & Hpath & Him) Hc.
  destruct (ImageView.calculate_psnr v gt) as [w|] eqn:Hw; [|done].
  injection Hc as <-.
  apply calculate_psnr_cases in Hw as (Ep & Ef & Ei).
  exists f. by rewrite Ep, Ef, Ei.
Qed.

(** A change of one future that keeps its file and its finished result, and
    produces no image of another file. *)
Lemma alter_future_consistent g fid s :
  decodes_consistent s ->
  (forall f, futures s !! fid = Some f ->
     task_path (g f) = task_path f /\
     (forall im, state f = FINISHED (Some im) ->
                 state (g f) = FINISHED (Some im)) /\
     (forall im, state (g f) = RUNNING (Some im) \/
                 state (g f) = FINISHED (Some im) ->
                 filename im = task_path f)) ->
  decodes_consistent (set_futures (alter g fid (futures s)) s).
Proof.
  intros [Hv Hr] Hg. split.
  - intros i v Hi. simpl in *. destruct (Hv i v Hi) as (f & Hf & Hpath & Him).
    destruct (decide (ImageView.future v = fid)) as [E|Hne].
    + exists (g f). rewrite E in *. rewrite list_lookup_alter_eq, Hf. simpl.
      destruct (Hg f Hf) as (Hp & Hfin & _).
      repeat split; [congruence|]. intros im Hv'. by apply Hfin, Him.
    + exists f. by rewrite list_lookup_alter_ne.
  - intros j f im. simpl. destruct (decide (j = fid)) as [->|Hne].
    + rewrite list_lookup_alter_eq.
      destruct (futures s !! fid) as [f0|] eqn:Hf0; [|done].
      intros [= <-] Hst. destruct (Hg f0 eq_refl) as (Hp & _ & Hnew).
      rewrite Hp. by apply Hnew.
    + rewrite list_lookup_alter_ne by done. apply Hr.
Qed.

Lemma cancel_consistent fid : preserves decodes_consistent (cancel fid).
Proof.
  intros s Hs. apply alter_future_consistent; [done|].
  intros f Hf. destruct Hs as [_ Hr]. unfold future_cancel.
  destruct (state f) eqn:Hst; simpl; rewrite ?Hst; repeat split; try done;
    intros im Him; eapply Hr; eauto; rewrite Hst; naive_solver.
Qed.

Lemma load_view_consistent i path :
  preserves decodes_consistent (load_view i path).
Proof.
  intros s [Hv Hr]. unfold load_view, submit, assign_view, py_setitem. run_m.
  set (task := {| task_path := path; task_index := i; state := PENDING |}).
  assert (forall j w, image_views s !! j = Some (Some w) ->
            view_backed (futures s ++ [task]) w) as Hv'.
  { intros j w Hj. destruct (Hv j w Hj) as (f & Hf & Hrest).
    exists f. split; [|done]. by apply lookup_app_l_Some. }
  assert (results_named (set_futures (futures s ++ [task]) s)) as Hr'.
  { intros j f im. simpl. intros Hj Hst.
    apply lookup_app_Some in Hj as [Hj|[_ Hj]]; [by eapply Hr|].
    apply list_lookup_singleton_Some in Hj as [_ <-]. simpl in Hst.
    naive_solver. }
  case_decide; simpl; (split; [|done]); [|done].
  intros j w. simpl. apply (views_insert (view_backed (futures s ++ [task])));
    [done|].
  exists task. simpl. split; [|done].
  rewrite lookup_app_r by done. by rewrite Nat.sub_diag.
Qed.

Lemma set_future_state_consistent fid st s f :
  decodes_consistent s ->
  futures s !! fid = Some f ->
  (forall im, state f <> FINISHED (Some im)) ->
  (forall im, st = RUNNING (Some im) \/ st = FINISHED (Some im) ->
              filename im = task_path f) ->
  decodes_consistent (set_future_state fid st s).
Proof.
  intros Hs Hf Hnot Hst. apply alter_future_consistent; [done|].
  intros f' Hf'. simplify_eq. simpl. repeat split; [|done].
  intros im Him. by destruct (Hnot im).
Qed.

Lemma worker_start_consistent fid :
  preserves decodes_consistent (worker_start fid).
Proof.
  intros s Hs. unfold worker_start. run_m.
  destruct (futures s !! fid) as [f|] eqn:Hf; simpl; [|done].
  destruct (state f) eqn:Hst; simpl; try done.
  eapply set_future_state_consistent; eauto; [congruence|naive_solver].
Qed.

Lemma worker_failed_consistent fid :
  preserves decodes_consistent (worker_failed fid).
Proof.
  intros s Hs. unfold worker_failed. run_m.
  destruct (futures s !! fid) as [f|] eqn:Hf; simpl; [|done].
  destruct (state f) as [|[im|]| |] eqn:Hst; simpl; try done.
  eapply set_future_state_consistent; eauto; [congruence|naive_solver].
Qed.

Lemma worker_return_consistent fid :
  preserves decodes_consistent (worker_return fid).
Proof.
  intros s Hs. unfold worker_return. run_m.
  destruct (futures s !! fid) as [f|] eqn:Hf; simpl; [|done].
  destruct (state f) as [|[im|]| |] eqn:Hst; simpl; try done.
  eapply set_future_state_consistent; eauto; [congruence|].
  intros im' [[=]|[= <-]]. destruct Hs as [_ Hr]. eapply Hr; eauto.
Qed.

Lemma worker_decoded_consistent fid bytes :
  preserves decodes_consistent (worker_decoded fid bytes).
Proof.
  intros s Hs. unfold worker_decoded. run_m.
  destruct (futures s !! fid) as [f|] eqn:Hf; simpl; [|done].
  destruct (state f) as [|[im|]| |] eqn:Hst; simpl; try done.
  assert (decodes_consistent
            (set_future_state fid
               (RUNNING (Some {| filename := task_path f;
                                 tobytes := bytes |})) s)) as [Hv Hr].
  { eapply set_future_state_consistent; eauto; [congruence|].
    by intros im [[= <-]|[=]]. }
  by split.
Qed.

Lemma decodes_consistent_reachable exts s :
  reachable exts s -> decodes_consistent s.
Proof.
  apply reachable_invariant; intros;
    try first
      [ apply pane_get_image_consistent | apply pane_set_gt_consistent
      | apply pane_calculate_psnr_consistent | apply cancel_consistent
      | apply preserves_weaken, load_view_consistent
      | apply worker_start_consistent | apply worker_decoded_consistent
      | apply worker_failed_consistent | apply worker_return_consistent
      | frame_atom ].
  - intros s' [_ Hr]. split; [|done]. by intros [|[|[|[|]]]].
  - split; [by intros [|[|[|[|]]]] | by intros []].
Qed.

(** *** Only a pane with a source has a view *)

Lemma on_view_have_sources {A} i
    (method : ImageView.t -> list Future -> outcome (ImageView.t * A)) :
  preserves views_have_sources (on_view i method).
Proof.
  intros s Hs. unfold exec.
  destruct (on_view_cases i method s)
    as [[e ->]|(p & v & v' & a & _ & Hp & _ & ->)]; simpl; [done|].
  intros j w. simpl. destruct (decide (j = p)) as [->|Hne].
  - intros _. by eapply Hs.
  - rewrite list_lookup_insert_ne by done. apply Hs.
Qed.

Lemma load_view_have_sources i path :
  preserves_from (has_source i) views_have_sources (load_view i path).
Proof.
  intros s Hsrc Hs. unfold load_view, submit, assign_view, py_setitem. run_m.
  case_decide; simpl; [|done].
  intros j w. simpl. destruct (decide (j = i)) as [->|Hne].
  - intros _. exact Hsrc.
  - rewrite list_lookup_insert_ne by done. apply Hs.
Qed.

Lemma assign_source_have_sources i src :
  preserves views_have_sources (assign_source i src).
Proof.
  intros s Hs. unfold assign_source, py_setitem. run_m.
  case_decide; simpl; [|done].
  intros j w Hj. simpl in *. destruct (decide (j = i)) as [->|Hne].
  - exists src. by rewrite list_lookup_insert_eq.
  - rewrite list_lookup_insert_ne by done. by eapply Hs.
Qed.

Lemma mapM_outcome_lookup {A B} (f : A -> outcome B) l l' i x :
  mapM f l = Ok l' -> l !! i = Some x ->
  exists y, f x = Ok y /\ l' !! i = Some y.
Proof.
  revert l' i. induction l as [|a l IH]; intros l' i; simpl; [done|].
  destruct (f a) as [b|] eqn:Hb; simpl; [|done].
  destruct (mapM f l) as [k|]; simpl; [|done].
  intros [= <-]. destruct i as [|i]; simpl.
  - intros [= <-]. eauto.
  - by apply IH.
Qed.

Lemma rebuild_sources_have_sources exts fs n :
  preserves views_have_sources (rebuild_sources exts fs n).
Proof.
  intros s Hs. unfold rebuild_sources. run_m.
  destruct (mapM _ _) as [l|] eqn:Hl; simpl; [|done].
  intros j w Hj. simpl in *. destruct (Hs j w Hj) as [src Hsrc].
  destruct (mapM_outcome_lookup _ _ _ _ _ Hl Hsrc) as (y & Hy & Hlook).
  unfold rebuild_source, mbind, outcome_bind, mret, outcome_ret in Hy.
  destruct (ImageSource.init _ _ _ _) as [src'|]; simplify_eq/=. eauto.
Qed.

Lemma views_have_sources_reachable exts s :
  reachable exts s -> views_have_sources s.
Proof.
  apply reachable_invariant; intros;
    try first
      [ apply on_view_have_sources | apply load_view_have_sources
      | apply assign_source_have_sources
      | apply rebuild_sources_have_sources | frame_atom ].
  - intros s' _. by intros [|[|[|[|]]]].
  - by intros [|[|[|[|]]]].
Qed.

(** *** Views hold futures submitted after a given point *)

Lemma on_view_since {A} n i
    (method : ImageView.t -> list Future -> outcome (ImageView.t * A)) :
  (forall pool v v' a,
     method v pool = Ok (v', a) -> ImageView.future v' = ImageView.future v) ->
  preserves (views_since n) (on_view i method).
Proof.
  intros Hm s [Hlen Hs]. unfold exec.
  destruct (on_view_cases i method s)
    as [[e ->]|(p & v & v' & a & _ & Hp & Hmv & ->)]; simpl; [done|].
  split; [done|]. simpl.
  apply (views_insert (fun v => n <= ImageView.future v)%nat); [done|].
  rewrite (Hm _ _ _ _ Hmv). by eapply Hs.
Qed.

Lemma load_view_run i path s :
  let task := {| task_path := path; task_index := i; state := PENDING |} in
  let s1 := set_futures (futures s ++ [task]) s in
  load_view i path s =
  if decide (i < length (image_views s))%nat
  then (Ok tt,
        set_image_views
          (<[i := Some (ImageView.init path (length (futures s)))]>
             (image_views s)) s1)
  else (Raise IndexError, s1).
Proof.
  unfold load_view, submit, assign_view, py_setitem. run_m.
  by case_decide.
Qed.

Lemma load_view_since n i path :
  preserves (views_since n) (load_view i path).
Proof.
  intros s [Hlen Hs]. unfold exec. rewrite load_view_run.
  case_decide; simpl; (split; [simpl; rewrite length_app; simpl; lia|]);
    [|done].
  simpl. by apply (views_insert (fun v => n <= ImageView.future v)%nat).
Qed.

Lemma alter_futures_since n g fid s :
  views_since n s -> views_since n (set_futures (alter g fid (futures s)) s).
Proof. intros [Hlen Hs]. split; [|done]. simpl. by rewrite length_alter. Qed.

Lemma views_since_handle n exts e :
  preserves (views_since n) (handle exts e).
Proof.
  apply handle_preserves; intros;
    try first
      [ apply preserves_weaken, load_view_since
      | apply on_view_since; intros ? ? ? ?;
        first [ by intros (_ & ? & _)%get_image_cases | by intros [= <-]
              | unfold ImageView.calculate_psnr, ImageView.set_comparison_text;
                intros ?; by repeat (case_match; simplify_eq/=) ]
      | intros ? ?; by apply alter_futures_since
      | frame_atom
      | intros ? ?; unfold worker_start, worker_failed, worker_return,
          worker_decoded; run_m; repeat case_match; simpl; try done;
        first [ by apply alter_futures_since
              | by apply (alter_futures_since n _ _ _) ] ].
  intros s' [Hlen _]. split; [done|]. by intros [|[|[|[|]]]].
Qed.

Lemma views_since_run n exts es s :
  views_since n s -> views_since n (run exts es s).
Proof.
  revert s. induction es as [|e es IH]; intros s Hs; simpl; [done|].
  apply IH. by apply views_since_handle.
Qed.

Lemma reachable_run exts es s :
  reachable exts s -> reachable exts (run exts es s).
Proof.
  revert s. induction es as [|e es IH]; intros s Hs; simpl; [done|].
  apply IH. by constructor.
Qed.

(** *** Navigation replaces every view *)

Lemma lift_ok {A} (o : outcome A) s a :
  returns (lift o) s = Ok a -> o = Ok a /\ exec (lift o) s = s.
Proof. destruct o; by intros [= <-]. Qed.

Lemma load_view_ok i path s :
  returns (load_view i path) s = Ok tt ->
  (i < length (image_views s))%nat /\
  exec (load_view i path) s =
    set_image_views
      (<[i := Some (ImageView.init path (length (futures s)))]>
         (image_views s))
      (set_futures
         (futures s ++
          [{| task_path := path; task_index := i; state := PENDING |}]) s).
Proof.
  unfold returns, exec. rewrite load_view_run. by case_decide.
Qed.

Lemma load_loop_fresh key n l :
  forall off s,
    (n <= length (futures s))%nat ->
    (forall i v, image_views s !! i = Some (Some v) ->
       (i < off /\ n <= ImageView.future v)%nat \/
       ((off <= i)%nat /\ exists src, l !! (i - off)%nat = Some (Some src))) ->
    returns (for_each (imap (fun j => pair (off + j)%nat) l) (load_body key)) s
      = Ok tt ->
    views_since n
      (exec (for_each (imap (fun j => pair (off + j)%nat) l) (load_body key))
            s).
Proof.
  induction l as [|x l IH]; intros off s Hn Hv Hret.
  - split; [done|]. intros i v Hi.
    destruct (Hv i v Hi) as [[_ ?]|[_ [src Hsrc]]]; [done|].
    by rewrite lookup_nil in Hsrc.
  - assert (imap (fun j => pair (off + j)%nat) (x :: l) =
            (off, x) :: imap (fun j => pair (S off + j)%nat) l) as E.
    { cbn [imap]. rewrite Nat.add_0_r. f_equal.
      apply imap_ext. intros j y _. simpl. f_equal. lia. }
    rewrite E in Hret |- *. clear E. cbn [for_each] in Hret |- *.
    apply returns_bind_ok in Hret as ([] & Hbody & Hrest & ->).
    destruct x as [src|].
    + change (load_body key (off, Some src))
        with (path ← lift (ImageSource.get_file src key); load_view off path)
        in *.
      apply returns_bind_ok in Hbody as (path & Hpath & Hlv & Hexec).
      apply lift_ok in Hpath as [_ Hs]. rewrite Hs in Hlv, Hexec.
      apply load_view_ok in Hlv as [Hoff Hs1]. rewrite Hs1 in Hexec.
      rewrite Hexec in Hrest |- *. clear Hexec Hs Hs1.
      apply IH; [| |exact Hrest].
      * simpl. rewrite length_app. simpl. lia.
      * intros i v. simpl. destruct (decide (i = off)) as [->|Hne].
        -- rewrite list_lookup_insert_eq by done. intros [= <-]. left.
           simpl. lia.
        -- rewrite list_lookup_insert_ne by done. intros Hi.
           destruct (Hv i v Hi) as [[? ?]|[? [src' Hsrc']]]; [left; lia|].
           right. split; [lia|]. exists src'.
           replace (i - off)%nat with (S (i - S off)) in Hsrc' by lia.
           exact Hsrc'.
    + change (exec (load_body key (off, None)) s) with s in *.
      apply IH; [done| |exact Hrest].
      intros i v Hi.
      destruct (Hv i v Hi) as [[? ?]|[? [src' Hsrc']]]; [left; lia|].
      destruct (decide (i = off)) as [->|Hne].
      { by rewrite Nat.sub_diag in Hsrc'. }
      right. split; [lia|]. exists src'.
      replace (i - off)%nat with (S (i - S off)) in Hsrc' by lia.
      exact Hsrc'.
Qed.

(** When [load_images] returns, every view holds a future that it has
    submitted itself. *)
Lemma load_images_fresh s :
  views_have_sources s ->
  returns load_images s = Ok tt ->
  views_since (length (futures s)) (exec load_images s).
Proof.
  intros Hsrc Hret. unfold load_images in Hret |- *.
  apply returns_bind_ok in Hret as (s0 & [= <-] & Hret & ->). simpl in *.
  change (exec get s) with s in *.
  apply returns_bind_ok in Hret as ([] & _ & Hret & ->).
  match goal with |- context [exec (for_each ?l ?b) s] =>
    set (s2 := exec (for_each l b) s) in *;
    assert (image_views s2 = image_views s /\
            image_sources s2 = image_sources s /\
            length (futures s2) = length (futures s)) as (Ev & Es & Ef)
  end.
  { apply (preserves_for_each
             (I := fun s' => image_views s' = image_views s /\
                             image_sources s' = image_sources s /\
                             length (futures s') = length (futures s)));
      [|done].
    intros [v|]; [|apply preserves_ret].
    destruct (ImageView.image v); [apply preserves_ret|].
    intros s' (? & ? & ?). unfold cancel. run_m.
    by rewrite length_alter. }
  rewrite <- Ef. clearbody s2.
  apply returns_bind_ok in Hret as (s3 & [= <-] & Hret & ->). simpl in *.
  change (exec get s2) with s2 in *.
  destruct (current_key s2) as [ck|].
  - apply returns_bind_ok in Hret as (key & Hkey & Hret & ->).
    apply lift_ok in Hkey as [_ Hs2]. rewrite Hs2 in Hret |- *.
    apply returns_bind_ok in Hret as ([] & Hloop & _ & ->).
    change (imap pair (image_sources s2))
      with (imap (fun j => pair (0 + j)%nat) (image_sources s2)) in *.
    apply (load_loop_fresh key (length (futures s2))) in Hloop; [done|done|].
    intros i v Hi. right. split; [lia|]. rewrite Nat.sub_0_r, Es.
    apply (Hsrc i v). by rewrite <- Ev.
  - split; [done|]. by intros [|[|[|[|]]]].
Qed.

Lemma show_since n cells : preserves (views_since n) (show cells).
Proof.
  apply show_preserves. intros i. apply on_view_since.
  by intros ? ? ? ? (_ & ? & _)%get_image_cases.
Qed.

Lemma go_to_key_fresh k s :
  views_have_sources s ->
  returns (modify (set_current_key k);; load_images;; show all_cells;;
           save_settings) s = Ok tt ->
  views_since (length (futures s))
    (exec (modify (set_current_key k);; load_images;; show all_cells;;
           save_settings) s).
Proof.
  intros Hsrc Hret.
  apply returns_bind_ok in Hret as ([] & _ & Hret & ->).
  apply returns_bind_ok in Hret as ([] & Hload & _ & ->).
  apply preserves_bind; [apply show_since|intros _; apply preserves_ret|].
  by apply (load_images_fresh (set_current_key k s)).
Qed.

Lemma navigation_fresh exts s nav :
  views_have_sources s ->
  is_navigation s nav ->
  returns (handle exts nav) s = Ok tt ->
  views_since (length (futures s)) (exec (handle exts nav) s).
Proof.
  intros Hsrc Hnav Hret. destruct nav; try done; simpl in *.
  - apply returns_bind_ok in Hret as (s0 & [= <-] & Hret & ->). simpl in *.
    change (exec get s) with s in *.
    rewrite decide_True in Hret |- * by done.
    by apply go_to_key_fresh.
  - unfold next_image in *.
    apply returns_bind_ok in Hret as (s0 & [= <-] & Hret & ->). simpl in *.
    change (exec get s) with s in *.
    destruct (current_key s); [|done].
    destruct (_ =? 0); [done|]. by apply go_to_key_fresh.
  - unfold prev_image in *.
    apply returns_bind_ok in Hret as (s0 & [= <-] & Hret & ->). simpl in *.
    change (exec get s) with s in *.
    destruct (current_key s); [|done].
    destruct (_ =? 0); [done|]. by apply go_to_key_fresh.
Qed.

(** C9: once a navigation has completed, the image a view displays, in any
    later state, is the result of that view's own decode task, a task
    submitted by the navigation or later for the view's own file; the image
    was opened from that file.  A decode still in flight when the user
    navigated away is therefore never displayed. *)
Theorem late_decode_never_displayed exts s nav es i v im :
  reachable exts s ->
  is_navigation s nav ->
  returns (handle exts nav) s = Ok tt ->
  let s' := run exts es (exec (handle exts nav) s) in
  image_views s' !! i = Some (Some v) ->
  ImageView.image v = Some im ->
  filename im = ImageView.path v /\
  (length (futures s) <= ImageView.future v)%nat /\
  exists f,
    futures s' !! ImageView.future v = Some f /\
    state f = FINISHED (Some im) /\
    task_path f = ImageView.path v.
Proof.
  intros Hs Hnav Hret s' Hi Him.
  assert (reachable exts s') as Hs'.
  { apply reachable_run. by constructor. }
  destruct (decodes_consistent_reachable _ _ Hs') as [Hv Hr].
  destruct (Hv i v Hi) as (f & Hf & Hpath & Hres).
  specialize (Hres im Him).
  assert (views_since (length (futures s)) s') as [_ Hsince].
  { apply views_since_run, navigation_fresh; try done.
    by eapply views_have_sources_reachable. }
  split; [|split; [by eapply Hsince|by eauto]].
  rewrite <- Hpath. eapply Hr; eauto.
Qed.

(** * The claims on concrete sessions *)

Lemma example_initial_reachable canvas :
  reachable example_extensions (initial canvas).
Proof.
  apply (reachable_init _ None example_fs canvas).
  unfold init, load_savestate, show.
  destruct canvas as [w h]. run_m. by destruct (_ || _).
Qed.

Lemma example_half_decoded_reachable :
  reachable example_extensions example_half_decoded.
Proof. apply reachable_run, example_initial_reachable. Qed.

Lemma reachable_started exts savestate fs canvas :
  fst (init exts savestate fs (initial canvas)) = Ok tt ->
  reachable exts (snd (init exts savestate fs (initial canvas))).
Proof.
  intros H. destruct (init _ _ _ _) as [o s] eqn:E. simpl in *. subst o.
  by eapply reachable_init.
Qed.

(** ** The key index *)

(** What [update_key_list] does about the index: it is in bounds afterwards
    if it was not negative before. *)
Lemma clamp_current_key_in_bounds s :
  match current_key s with Some k => 0 <= k | None => True end ->
  key_index_in_bounds (clamp_current_key s).
Proof.
  unfold clamp_current_key, key_index_in_bounds, py_minZ.
  destruct (key_list s) as [|k0 ks] eqn:Hk; simpl; [done|].
  destruct (current_key s) as [ck|]; simpl; rewrite Hk; simpl; [|lia].
  intros Hck.
  destruct (_ <? ck) eqn:E;
    [apply Z.ltb_lt in E|apply Z.ltb_ge in E]; simpl length in *; lia.
Qed.

(** C1, on the code: a settings file with key index 3 for a directory that
    yields three keys leaves the index at 3, outside [0, 2], and
    [load_images] then raises; with key index -1 the application starts and
    runs with the index at -1. *)
Theorem restored_key_index_out_of_bounds :
  fst (example_startup 3) = Raise IndexError /\
  current_key (snd (example_startup 3)) = Some 3 /\
  length (key_list (snd (example_startup 3))) = 3%nat /\
  fst (example_startup (-1)) = Ok tt /\
  current_key (snd (example_startup (-1))) = Some (-1) /\
  reachable example_extensions (snd (example_startup (-1))) /\
  ~ key_index_in_bounds (snd (example_startup (-1))).
Proof.
  assert (fst (example_startup (-1)) = Ok tt) as Hok
    by (vm_compute; reflexivity).
  assert (current_key (snd (example_startup (-1))) = Some (-1)) as Hkey
    by (vm_compute; reflexivity).
  split; [vm_compute; reflexivity|].
  split; [vm_compute; reflexivity|].
  split; [vm_compute; reflexivity|].
  split; [exact Hok|]. split; [exact Hkey|]. split.
  - by apply (reachable_started _ (Some (example_savestate (-1))) example_fs
                (1, 1)).
  - unfold key_index_in_bounds. rewrite Hkey. lia.
Qed.

(** ** The metric *)

Lemma u8_square_sub c r : u8_square (u8_sub (u8 c) (u8 r)) = u8 ((c - r) ^ 2).
Proof.
  unfold u8_square, u8_sub, u8.
  rewrite <- Zminus_mod, <- Zmult_mod. f_equal. lia.
Qed.

(** What line 60 computes for buffers of one length: the mean of the squared
    differences reduced modulo 256. *)
Lemma mse_mean_of_wrapped_squares im gt :
  length (tobytes im) = length (tobytes gt) ->
  ImageView.mse im gt =
  Ok (np_mean (zip_with (fun c r => u8 ((c - r) ^ 2)) (tobytes im) (tobytes gt))).
Proof.
  intros Hlen. unfold ImageView.mse, np_binop, frombuffer_u8.
  rewrite decide_True by by rewrite !length_map.
  f_equal. f_equal. revert Hlen.
  generalize (tobytes gt). induction (tobytes im) as [|c cs IH];
    intros [|r rs]; simpl; try done.
  intros [= Hlen]. by rewrite u8_square_sub, IH.
Qed.

(** C2, on the code: for candidate bytes 16, 1 and reference bytes 0, 0 the
    squared differences are 256 and 1 and their exact mean is 257/2; line 60
    squares in uint8, gets 0 and 1, and the metric is computed from the mean
    1/2. *)
Theorem mse_wraps_modulo_256 :
  let candidate := {| filename := "/d/A/img00001_a.png"; tobytes := [16; 1] |} in
  let reference := {| filename := "/d/B/img00001_b.png"; tobytes := [0; 0] |} in
  let view := ImageView.set_image (ImageView.init (filename candidate) 0%nat)
                                  (Some candidate) in
  mse_exact (tobytes candidate) (tobytes reference) = Fin (257 # 2) /\
  ImageView.mse candidate reference = Ok (Fin (1 # 2)) /\
  ImageView.calculate_psnr view (Some reference)
  = Ok (ImageView.set_comparison_text view (PSNR (Fin (1 # 2)))).
Proof. vm_compute. auto. Qed.

Lemma sumZ_zeros (l : list Z) : sumZ (List.map (fun _ => 0) l) = 0.
Proof. induction l as [|x l IH]; simpl; [done|]. by rewrite IH. Qed.

Lemma wrapped_squares_self l :
  zip_with (fun c r => u8 ((c - r) ^ 2)) l l = List.map (fun _ => 0) l.
Proof.
  induction l as [|x l IH]; simpl; [done|].
  rewrite IH. f_equal. by rewrite Z.sub_diag.
Qed.

(** The mean squared error of an image against itself is zero. *)
Lemma mse_self im b bs :
  tobytes im = b :: bs ->
  ImageView.mse im im = Ok (Fin (0 # Pos.of_nat (S (length bs)))).
Proof.
  intros Hb. rewrite mse_mean_of_wrapped_squares by done.
  rewrite wrapped_squares_self, Hb.
  pose proof (sumZ_zeros (b :: bs)) as Hsum.
  unfold np_mean. simpl in Hsum |- *. by rewrite Hsum, length_map.
Qed.

(** C3, on the code: for a view whose image has the same bytes as the
    ground truth, at least one of them, [calculate_psnr] raises: the mean is
    zero and [math.log10] is applied to it. *)
Theorem identical_images_raise path future text name b bs :
  let im := {| filename := name; tobytes := b :: bs |} in
  let view := {| ImageView.path := path; ImageView.future := future;
                 ImageView.image := Some im;
                 ImageView.comparison_text := text |} in
  ImageView.calculate_psnr view (Some im) = Raise ValueError.
Proof.
  intros im view. unfold ImageView.calculate_psnr.
  cbn [ImageView.image view]. by rewrite (mse_self im b bs).
Qed.

(** ** Ground truth *)

(** C4, on the code: both panes have a view, the second has decoded and the
    first has not; making the second pane the ground truth raises, because
    line 229 computes the metric of the first pane without its image. *)
Theorem set_gt_raises_on_undecoded_pane :
  reachable example_extensions example_half_decoded /\
  decoded_panes example_half_decoded = [Some false; Some true; None; None] /\
  returns (handle example_extensions (MenuSetGt 1)) example_half_decoded
  = Raise AttributeError.
Proof.
  split; [apply example_half_decoded_reachable|]. by vm_compute.
Qed.

(** ** The key list *)

Lemma elem_of_foldl_intersection (x : gset string) rest k :
  k ∈ foldl (∩) x rest <-> k ∈ x /\ forall y, y ∈ rest -> k ∈ y.
Proof.
  revert x. induction rest as [|y rest IH]; intros x; simpl.
  - split; [|by intros [? _]]. intros ?. split; [done|]. by intros ? ?%elem_of_nil.
  - rewrite IH, elem_of_intersection. split.
    + intros [[Hx Hy] Hrest]. split; [done|].
      intros z [->|?]%elem_of_cons; auto.
    + intros [Hx Hall]. repeat split; [done|apply Hall; left|].
      intros z Hz. apply Hall. by right.
Qed.

(** With at least one source, [update_key_list] leaves in [key_list] the
    keys that every source has, each once, in ascending order. *)
Lemma update_key_list_sorted_intersection indices s src srcs :
  available_sources s = src :: srcs ->
  let keys := key_list (exec (update_key_list indices) s) in
  Sorted String.le keys /\ NoDup keys /\
  forall k, k ∈ keys <->
            forall x, x ∈ src :: srcs -> k ∈ dom (ImageSource.files x).
Proof.
  intros Hsrc keys. subst keys. unfold update_key_list.
  erewrite exec_bind_ok by reflexivity. rewrite Hsrc. cbn [fmap list_fmap].
  erewrite exec_bind_ok by reflexivity.
  erewrite exec_bind_ok by reflexivity.
  match goal with |- context [sorted_keys ?K] => set (common := K) end.
  match goal with |- context [exec ?m ?s0] =>
    assert (key_list (exec m s0) = sorted_keys common) as ->
  end.
  { apply (preserves_bind (I := fun s => key_list s = sorted_keys common));
      [|intros _|done].
    - apply preserves_modify. intros s' Hs'. unfold clamp_current_key.
      repeat case_match; simpl in *; congruence.
    - pres. }
  unfold sorted_keys. split; [apply Sorted_merge_sort; apply _|].
  split; [rewrite merge_sort_Permutation; apply NoDup_elements|].
  intros k. rewrite merge_sort_Permutation, elem_of_elements.
  subst common. rewrite elem_of_foldl_intersection. split.
  - intros [Hk Hall] x [->|Hx]%elem_of_cons; [done|].
    apply Hall. apply list_elem_of_fmap. eauto.
  - intros Hall. split; [apply Hall; left|].
    intros y (x & -> & Hx)%list_elem_of_fmap. apply Hall. by right.
Qed.

(** C5, on the code: with no source configured [update_key_list] raises
    [TypeError], for instance when the prefix length is entered before any
    directory has been chosen. *)
Theorem update_key_list_without_sources_raises exts fs canvas indices :
  returns (update_key_list indices) (initial canvas) = Raise TypeError /\
  returns (handle exts (MenuEnterPrefixLength (Some 4) fs)) (initial canvas)
  = Raise TypeError.
Proof. split; reflexivity. Qed.

(** ** Navigation *)

Lemma load_show_keep_current_key k s :
  current_key s = k ->
  current_key (exec (load_images;; show all_cells;; save_settings) s) = k.
Proof.
  apply (preserves_bind (I := fun s => current_key s = k)).
  - apply load_images_preserves; intros; frame_atom.
  - intros _. apply preserves_bind; [|intros _; apply preserves_ret].
    apply show_preserves; intros; frame_atom.
Qed.

(** [next_image] from the last key selects key 0, and [prev_image] from key
    0 selects the last key. *)
Lemma navigation_wraps s k ks :
  key_list s = k :: ks ->
  (current_key s = Some (Z.of_nat (length ks)) ->
   current_key (exec next_image s) = Some 0) /\
  (current_key s = Some 0 ->
   current_key (exec prev_image s) = Some (Z.of_nat (length ks))).
Proof.
  intros Hk. split; intros Hc.
  - unfold next_image. erewrite exec_bind_ok by reflexivity.
    rewrite Hc, Hk. cbn [length].
    rewrite (proj2 (Z.eqb_neq (Z.of_nat (S (length ks))) 0)) by lia.
    erewrite exec_bind_ok by reflexivity.
    apply load_show_keep_current_key. simpl. f_equal.
    replace (Z.of_nat (length ks) + 1) with (Z.of_nat (S (length ks))) by lia.
    apply Z_mod_same_full.
  - unfold prev_image. erewrite exec_bind_ok by reflexivity.
    rewrite Hc, Hk. cbn [length].
    rewrite (proj2 (Z.eqb_neq (Z.of_nat (S (length ks))) 0)) by lia.
    erewrite exec_bind_ok by reflexivity.
    apply load_show_keep_current_key. simpl. f_equal.
    rewrite Z.mod_small; lia.
Qed.

(** C6, on the code: with an empty key list, as when the application has
    just started without settings, [next_image] and [prev_image] raise
    [TypeError]; the state is left as it was. *)
Theorem navigation_on_empty_key_list_raises canvas :
  key_list (initial canvas) = [] /\
  next_image (initial canvas) = (Raise TypeError, initial canvas) /\
  prev_image (initial canvas) = (Raise TypeError, initial canvas).
Proof. repeat split. Qed.

(** ** Zooming out *)


(** C7 as stated fails: after the wheel has been turned up twice the zoom is
    1.21; turning it down gives 1.089, not 1.21 / 1.1 = 1.1. *)
Lemma zoom_out_is_not_division :
  let s' := exec (handle example_extensions (Zoom wheel_down)) example_zoomed in
  (zoom example_zoomed == 121 # 100 /\ zoom s' == 1089 # 1000 /\
   ~ zoom s' == zoom_by_spec (wheel_direction wheel_down) (zoom example_zoomed))%Q.
Proof. vm_compute. repeat split; try done. Qed.

(** ** Witnesses *)

Lemma crop_center_always_in_bounds_witness :
  crop_center_in_bounds example_zoomed /\
  (zoom example_zoomed == 1 ->
   fst (crop_center example_zoomed) == 1 # 2 /\
   snd (crop_center example_zoomed) == 1 # 2)%Q.
Proof.
  apply (crop_center_always_in_bounds example_extensions).
  apply reachable_run, example_initial_reachable.
Defined.

Lemma example_gt_first_reachable :
  reachable example_extensions example_gt_first.
Proof. apply reachable_run, example_initial_reachable. Qed.

Lemma change_view_clears_gt_witness :
  gt_index
    (exec (menu_change_view example_extensions 0 "/d/B" example_fs)
          example_gt_first) = None.
Proof.
  apply change_view_clears_gt.
  - apply example_gt_first_reachable.
  - lia.
  - discriminate.
  - vm_compute. eauto.
  - vm_compute. reflexivity.
Defined.

Lemma late_decode_never_displayed_witness :
  let s' := run example_extensions example_late_events
              (exec (handle example_extensions NextImage)
                    example_before_navigation) in
  filename example_new_image = ImageView.path example_new_view /\
  (length (futures example_before_navigation)
   <= ImageView.future example_new_view)%nat /\
  exists f,
    futures s' !! ImageView.future example_new_view = Some f /\
    state f = FINISHED (Some example_new_image) /\
    task_path f = ImageView.path example_new_view.
Proof.
  apply (late_decode_never_displayed example_extensions
           example_before_navigation NextImage example_late_events 0%nat).
  - apply reachable_run, example_half_decoded_reachable.
  - exact I.
  - vm_compute. reflexivity.
  - vm_compute. reflexivity.
  - reflexivity.
Defined.

(** * Further properties of the code *)

(** ** The key list *)

Lemma for_each_read_only {A} (l : list A) (body : A -> M unit) s :
  (forall x s', exec (body x) s' = s') -> exec (for_each l body) s = s.
Proof.
  intros Hb. induction l as [|x l IH]; simpl; [done|].
  rewrite exec_bind. specialize (Hb x s). unfold exec in Hb.
  destruct (body x s) as [[[]|e] s']; simpl in Hb; subst; [exact IH|done].
Qed.

(** With a source, [update_key_list] ends, whether its menu updates raise
    or not, in the state with the sorted common keys and the clamped
    index. *)
Lemma update_key_list_exec indices s src srcs :
  available_sources s = src :: srcs ->
  exec (update_key_list indices) s =
  clamp_current_key (set_key_list (sorted_keys (common_keys src srcs)) s).
Proof.
  intros Hsrc. unfold update_key_list.
  erewrite exec_bind_ok by reflexivity. rewrite Hsrc. cbn [fmap list_fmap].
  erewrite exec_bind_ok by reflexivity.
  erewrite exec_bind_ok by reflexivity.
  erewrite exec_bind_ok by reflexivity.
  apply for_each_read_only. intros index s'.
  erewrite exec_bind_ok by reflexivity.
  destruct (py_index (image_sources s') (Z.of_nat index)) as [[x|]|e]; done.
Qed.

(** X1: After [update_key_list], from an index that is absent or not negative,
    the index is within the key list, and it is absent exactly when the key
    list is empty. *)
Theorem update_key_list_reclamps indices s src srcs :
  available_sources s = src :: srcs ->
  match current_key s with Some k => 0 <= k | None => True end ->
  let s' := exec (update_key_list indices) s in
  key_index_in_bounds s' /\ (current_key s' = None <-> key_list s' = []).
Proof.
  intros Hsrc Hk s'. subst s'. rewrite (update_key_list_exec _ _ _ _ Hsrc).
  split; [by apply clamp_current_key_in_bounds|].
  unfold clamp_current_key. simpl.
  destruct (sorted_keys _) as [|k ks]; simpl; [done|].
  destruct (current_key s); simpl; split; done.
Qed.

Lemma update_key_list_reclamps_witness :
  let s' := exec (update_key_list [0%nat]) example_gt_first in
  key_index_in_bounds s' /\ (current_key s' = None <-> key_list s' = []).
Proof.
  eapply update_key_list_reclamps.
  - vm_compute. reflexivity.
  - vm_compute. discriminate.
Defined.

(** X2: After [update_key_list], every key of the key list names a file in
    every configured source, so that [get_file] returns its path. *)
Theorem key_list_resolves indices s src srcs key x :
  available_sources s = src :: srcs ->
  key ∈ key_list (exec (update_key_list indices) s) ->
  x ∈ src :: srcs ->
  exists f,
    ImageSource.files x !! key = Some f /\
    ImageSource.get_file x key = Ok (path_join (ImageSource.path x) f).
Proof.
  intros Hsrc Hkey Hx.
  destruct (update_key_list_sorted_intersection indices s src srcs Hsrc)
    as (_ & _ & Hall).
  pose proof (proj1 (Hall key) Hkey x Hx) as Hd.
  apply elem_of_dom in Hd as [f Hf]. exists f. split; [done|].
  unfold ImageSource.get_file. by rewrite Hf.
Qed.

Lemma key_list_resolves_witness :
  exists f,
    ImageSource.files example_source !! "img00001" = Some f /\
    ImageSource.get_file example_source "img00001"
    = Ok (path_join (ImageSource.path example_source) f).
Proof.
  apply (key_list_resolves [] example_one_source example_source []).
  - reflexivity.
  - vm_compute. left.
  - left.
Defined.

(** ** Source directories *)








(** ** Image files *)







(** ** The metric *)

Lemma u8_square_sub_any x y : u8_square (u8_sub x y) = u8 ((x - y) ^ 2).
Proof.
  unfold u8_square, u8_sub, u8. rewrite <- Zmult_mod. f_equal. lia.
Qed.

Lemma u8_square_sub_sym x y :
  u8_square (u8_sub x y) = u8_square (u8_sub y x).
Proof. rewrite !u8_square_sub_any. f_equal. lia. Qed.

Lemma squares_zip_sym a b :
  List.map u8_square (zip_with u8_sub a b)
  = List.map u8_square (zip_with u8_sub b a).
Proof.
  revert b. induction a as [|x a IH]; intros [|y b]; simpl; try done.
  by rewrite u8_square_sub_sym, IH.
Qed.

Lemma squares_map_sym x b :
  List.map u8_square (List.map (u8_sub x) b)
  = List.map u8_square (List.map (fun c => u8_sub c x) b).
Proof.
  induction b as [|y b IH]; simpl; [done|].
  by rewrite u8_square_sub_sym, IH.
Qed.

(** X6: The mean squared error, and with it the metric, does not depend on
    which of the two images is the reference. *)
Theorem mse_symmetric im gt : ImageView.mse im gt = ImageView.mse gt im.
Proof.
  unfold ImageView.mse, np_binop.
  generalize (frombuffer_u8 (tobytes im)) (frombuffer_u8 (tobytes gt)).
  intros a b.
  destruct (decide (length a = length b)) as [E|E],
    (decide (length b = length a)) as [E'|E']; try congruence.
  - by rewrite squares_zip_sym.
  - destruct a as [|x [|x' a]], b as [|y [|y' b]]; simpl in *;
      try done;
      by rewrite ?squares_map_sym, ?(u8_square_sub_sym x y),
        ?(u8_square_sub_sym x y'), ?(u8_square_sub_sym x' y).
Qed.

Lemma sumZ_bounds l :
  Forall (fun x => 0 <= x <= 255) l ->
  0 <= sumZ l <= 255 * Z.of_nat (length l).
Proof.
  induction 1 as [|x l Hx _ IH]; simpl; [lia|].
  unfold sumZ in *. simpl. lia.
Qed.

Lemma Forall_u8_square l :
  Forall (fun x => 0 <= x <= 255) (List.map u8_square l).
Proof.
  induction l as [|x l IH]; simpl; constructor; [|done].
  unfold u8_square, u8.
  pose proof (Z.mod_pos_bound (x * x) 256). lia.
Qed.

(** X7: Whatever the images, the mean squared error that is computed lies
    between 0 and 255, as every squared difference is reduced to a byte. *)
Theorem mse_at_most_255 im gt q :
  ImageView.mse im gt = Ok (Fin q) -> (0 <= q /\ q <= 255)%Q.
Proof.
  unfold ImageView.mse.
  destruct (np_binop _ _ _) as [d|]; [|done].
  pose proof (Forall_u8_square d) as Hd.
  destruct (List.map u8_square d) as [|x l] eqn:E; [done|].
  intros [= <-]. apply sumZ_bounds in Hd.
  unfold Qle. cbn [Qnum Qden length].
  rewrite <- Pos.of_nat_succ, Zpos_P_of_succ_nat.
  change (sumZ (x :: l)) with (x + sumZ l) in Hd. cbn [length] in Hd.
  split; lia.
Qed.

Lemma mse_at_most_255_witness :
  (0 <= 1 # 2 /\ 1 # 2 <= 255)%Q.
Proof.
  apply (mse_at_most_255
           {| filename := "a"; tobytes := [16; 1] |}
           {| filename := "b"; tobytes := [0; 0] |}).
  reflexivity.
Defined.

Lemma byte_square_zero e :
  0 <= e < 256 -> (e * e mod 256 = 0 <-> e mod 16 = 0).
Proof.
  intros He.
  assert (forallb
            (fun n => Bool.eqb (Z.of_nat n * Z.of_nat n mod 256 =? 0)
                               (Z.of_nat n mod 16 =? 0))
            (seq 0 256) = true) as Hall by (vm_compute; reflexivity).
  rewrite forallb_forall in Hall.
  specialize (Hall (Z.to_nat e)). rewrite Z2Nat.id in Hall by lia.
  assert (In (Z.to_nat e) (seq 0 256)) as Hin.
  { apply in_seq. lia. }
  apply Hall, Bool.eqb_prop in Hin.
  rewrite <- !Z.eqb_eq. by rewrite Hin.
Qed.

(** A squared difference is reduced to zero exactly when the difference is
    a multiple of 16. *)
Lemma wrapped_square_zero d : u8 (d ^ 2) = 0 <-> d mod 16 = 0.
Proof.
  unfold u8. replace (d ^ 2) with (d * d) by lia.
  rewrite Zmult_mod.
  pose proof (Z.mod_pos_bound d 256 ltac:(lia)) as Hb.
  rewrite (byte_square_zero (d mod 256) Hb).
  rewrite (Z.mod_mod_divide d 256 16); [done|]. by exists 16.
Qed.

Lemma sumZ_bounds' l : Forall (fun x => 0 <= x) l -> 0 <= sumZ l.
Proof.
  induction 1 as [|y l Hy _ IH]; [done|].
  change (sumZ (y :: l)) with (y + sumZ l). lia.
Qed.

Lemma sumZ_zero_iff l :
  Forall (fun x => 0 <= x) l -> (sumZ l = 0 <-> Forall (fun x => x = 0) l).
Proof.
  induction 1 as [|x l Hx Hl IH].
  - split; [constructor|done].
  - change (sumZ (x :: l)) with (x + sumZ l).
    pose proof (sumZ_bounds' l Hl) as Hs.
    split.
    + intros H0. constructor; [lia|]. apply IH. lia.
    + intros H0. apply Forall_cons in H0 as [-> H0]. apply IH in H0. lia.
Qed.

(** X8: For buffers of one length, not empty, [calculate_psnr] raises
    [ValueError] exactly when every byte of the image differs from the byte
    of the ground truth by a multiple of 16; otherwise it returns the view
    with the label of the mean of the reduced squares. *)
Theorem calculate_psnr_raises_iff path future text im gt :
  tobytes im <> [] ->
  length (tobytes im) = length (tobytes gt) ->
  let view := {| ImageView.path := path; ImageView.future := future;
                 ImageView.image := Some im;
                 ImageView.comparison_text := text |} in
  let squares := zip_with (fun c r => u8 ((c - r) ^ 2))
                          (tobytes im) (tobytes gt) in
  (ImageView.calculate_psnr view (Some gt) = Raise ValueError <->
   Forall2 (fun c r => (c - r) mod 16 = 0) (tobytes im) (tobytes gt)) /\
  (ImageView.calculate_psnr view (Some gt) <> Raise ValueError ->
   ImageView.calculate_psnr view (Some gt)
   = Ok (ImageView.set_comparison_text view (PSNR (np_mean squares)))).
Proof.
  intros Hne Hlen view squares. unfold ImageView.calculate_psnr.
  cbn [ImageView.image view].
  rewrite (mse_mean_of_wrapped_squares im gt Hlen). fold squares.
  assert (Forall (fun x => 0 <= x) squares) as Hpos.
  { subst squares. clear. generalize (tobytes gt).
    induction (tobytes im) as [|c l IH]; intros [|r l']; simpl;
      constructor; [|apply IH].
    unfold u8. pose proof (Z.mod_pos_bound ((c - r) ^ 2) 256). lia. }
  assert (Forall (fun x => x = 0) squares <->
          Forall2 (fun c r => (c - r) mod 16 = 0) (tobytes im) (tobytes gt))
    as Hz.
  { subst squares. clear -Hlen. revert Hlen. generalize (tobytes gt).
    induction (tobytes im) as [|c l IH]; intros [|r l']; simpl; try done.
    intros [= Hlen]. rewrite Forall_cons, Forall2_cons, (IH _ Hlen).
    by rewrite wrapped_square_zero. }
  assert (squares <> []) as Hsq.
  { subst squares. destruct (tobytes im), (tobytes gt); done. }
  destruct squares as [|x l] eqn:E; [done|].
  unfold np_mean, log10_defined, Qle_bool. cbn [Qnum Qden].
  rewrite Z.mul_1_r, Z.mul_0_l.
  destruct (Z.leb_spec (sumZ (x :: l)) 0) as [Hle|Hgt].
  - split; [|done]. split; [|done]. intros _. apply Hz, sumZ_zero_iff; [done|].
    apply sumZ_bounds' in Hpos. lia.
  - split; [|done]. split; [done|]. intros H.
    apply Hz, sumZ_zero_iff in H; [lia|done].
Qed.

(** X9: Buffers of different lengths, neither of length one, are refused;
    against a ground truth of a single byte the image is compared byte by
    byte with that byte. *)
Theorem mse_shapes im gt :
  (length (tobytes im) <> length (tobytes gt) ->
   length (tobytes im) <> 1%nat -> length (tobytes gt) <> 1%nat ->
   ImageView.mse im gt = Raise ValueError) /\
  (forall g, tobytes gt = [g] ->
   ImageView.mse im gt
   = Ok (np_mean (List.map (fun c => u8 ((c - g) ^ 2)) (tobytes im)))).
Proof.
  unfold ImageView.mse, np_binop, frombuffer_u8. split.
  - intros Hne H1 H2. rewrite decide_False by by rewrite !length_map.
    destruct (tobytes im) as [|x [|x' a]], (tobytes gt) as [|y [|y' b]];
      simpl in *; done.
  - intros g ->. simpl.
    assert (forall l, List.map u8_square (List.map (fun x => u8_sub x (u8 g))
                                                   (List.map u8 l))
                      = List.map (fun c => u8 ((c - g) ^ 2)) l) as Hmap.
    { induction l as [|c l IH]; simpl; [done|].
      by rewrite u8_square_sub, IH. }
    destruct (tobytes im) as [|x [|x' a]]; simpl.
    + reflexivity.
    + by rewrite u8_square_sub.
    + by rewrite !u8_square_sub, Hmap.
Qed.

(** ** Decode tasks *)

(** X10: The result of a finished decode is never overwritten, cancelled or
    dropped, whatever happens afterwards. *)
Theorem finished_future_is_final exts e s fid f r :
  futures s !! fid = Some f ->
  state f = FINISHED r ->
  exists f',
    futures (exec (handle exts e) s) !! fid = Some f' /\
    state f' = FINISHED r /\ task_path f' = task_path f /\
    task_index f' = task_index f.
Proof.
  intros Hf Hr.
  set (I := fun s' : App => exists f',
    futures s' !! fid = Some f' /\ state f' = FINISHED r /\
    task_path f' = task_path f /\ task_index f' = task_index f).
  assert (forall g k s',
            (forall h, state h = FINISHED r -> g h = h) ->
            I s' -> I (set_futures (alter g k (futures s')) s')) as Halter.
  { intros g k s' Hg (f' & Hf' & Hst & Hp). exists f'. simpl.
    split; [|done]. destruct (decide (k = fid)) as [->|Hne].
    - rewrite list_lookup_alter_eq, Hf'. simpl. by rewrite Hg.
    - by rewrite list_lookup_alter_ne. }
  assert (forall k st s' h,
            futures s' !! k = Some h -> state h <> FINISHED r ->
            I s' -> I (set_future_state k st s')) as Hset.
  { intros k st s' h Hh Hne (f' & Hf' & Hst & Hp). exists f'. simpl.
    split; [|done]. destruct (decide (k = fid)) as [->|Hk].
    - congruence.
    - by rewrite list_lookup_alter_ne. }
  apply (handle_preserves (I := I)); [..|by exists f]; intros;
    try first [ frame_atom ].
  - intros s' Hs'. apply Halter; [|done].
    intros h Hh. unfold future_cancel. by rewrite Hh.
  - intros s' _ (f' & Hf' & Hrest).
    unfold load_view, submit, assign_view, py_setitem. run_m.
    case_decide; simpl; exists f'; (split; [|done]);
      by apply lookup_app_l_Some.
  - intros s' Hs'. unfold worker_start. run_m.
    destruct (futures s' !! fid0) as [h|] eqn:Hh; simpl; [|done].
    destruct (state h) eqn:Hst; simpl; try done.
    eapply Hset; eauto. congruence.
  - intros s' Hs'. unfold worker_decoded. run_m.
    destruct (futures s' !! fid0) as [h|] eqn:Hh; simpl; [|done].
    destruct (state h) as [|[]| |] eqn:Hst; simpl; try done.
    assert (I (set_future_state fid0
                 (RUNNING (Some {| filename := task_path h;
                                   tobytes := bytes |})) s'))
      as (f' & Hf' & Hrest) by (eapply Hset; eauto; congruence).
    by exists f'.
  - intros s' Hs'. unfold worker_failed. run_m.
    destruct (futures s' !! fid0) as [h|] eqn:Hh; simpl; [|done].
    destruct (state h) as [|[]| |] eqn:Hst; simpl; try done.
    eapply Hset; eauto. congruence.
  - intros s' Hs'. unfold worker_return. run_m.
    destruct (futures s' !! fid0) as [h|] eqn:Hh; simpl; [|done].
    destruct (state h) as [|[]| |] eqn:Hst; simpl; try done.
    eapply Hset; eauto. congruence.
Qed.

Lemma calculate_psnr_raises_iff_witness :
  let im := {| filename := "a.png"; tobytes := [10; 20; 30] |} in
  let gt := {| filename := "b.png"; tobytes := [26; 4; 30] |} in
  let view := {| ImageView.path := "a.png"; ImageView.future := 0%nat;
                 ImageView.image := Some im;
                 ImageView.comparison_text := None |} in
  let squares := zip_with (fun c r => u8 ((c - r) ^ 2))
                          (tobytes im) (tobytes gt) in
  (ImageView.calculate_psnr view (Some gt) = Raise ValueError <->
   Forall2 (fun c r => (c - r) mod 16 = 0) (tobytes im) (tobytes gt)) /\
  (ImageView.calculate_psnr view (Some gt) <> Raise ValueError ->
   ImageView.calculate_psnr view (Some gt)
   = Ok (ImageView.set_comparison_text view (PSNR (np_mean squares)))).
Proof.
  apply (calculate_psnr_raises_iff "a.png" 0%nat None
           {| filename := "a.png"; tobytes := [10; 20; 30] |}
           {| filename := "b.png"; tobytes := [26; 4; 30] |}).
  - simpl. discriminate.
  - reflexivity.
Defined.

Lemma finished_future_is_final_witness :
  exists f',
    futures (exec (handle example_extensions NextImage) example_half_decoded)
      !! 2%nat = Some f' /\
    state f' = FINISHED (Some {| filename := "/d/B/img00001_b.png";
                                 tobytes := [10; 20; 30] |}) /\
    task_path f' = "/d/B/img00001_b.png" /\ task_index f' = 1%nat.
Proof.
  apply (finished_future_is_final example_extensions NextImage
           example_half_decoded 2%nat
           {| task_path := "/d/B/img00001_b.png"; task_index := 1;
              state := FINISHED (Some {| filename := "/d/B/img00001_b.png";
                                         tobytes := [10; 20; 30] |}) |}).
  - vm_compute. reflexivity.
  - reflexivity.
Defined.

(** ** The panes *)

Lemma views_length_reachable exts s :
  reachable exts s -> length (image_views s) = 4%nat.
Proof.
  apply (reachable_invariant
           (I := fun s => length (image_views s) = 4%nat)); intros;
    try first [ frame_atom | reflexivity ].
  - intros s' Hs'. unfold pane_get_image, exec.
    destruct (on_view_cases i
                (fun v pool => ImageView.get_image v
                                 (future_of pool (ImageView.future v))) s')
      as [[e ->]|(p & v & v' & a & _ & _ & _ & ->)]; simpl; [done|].
    by rewrite length_insert.
  - intros s' Hs'. unfold pane_set_gt, exec.
    destruct (on_view_cases i (fun v _ => Ok (ImageView.set_gt v, tt)) s')
      as [[e ->]|(p & v & v' & a & _ & _ & _ & ->)]; simpl; [done|].
    by rewrite length_insert.
  - intros s' Hs'. unfold pane_calculate_psnr, exec.
    destruct (on_view_cases i
                (fun v _ => match ImageView.calculate_psnr v gt with
                            | Ok v' => Ok (v', tt)
                            | Raise e => Raise e
                            end) s')
      as [[e ->]|(p & v & v' & a & _ & _ & _ & ->)]; simpl; [done|].
    by rewrite length_insert.
  - intros s' _ Hs'. unfold exec. rewrite load_view_run.
    case_decide; simpl; [by rewrite length_insert|done].
Qed.

(** X11: In every reachable state there are four source slots and four view
    slots, and only a pane that has a source has a view. *)
Theorem panes_invariant exts s :
  reachable exts s ->
  length (image_sources s) = 4%nat /\ length (image_views s) = 4%nat /\
  forall i v, image_views s !! i = Some (Some v) ->
              exists src, image_sources s !! i = Some (Some src).
Proof.
  intros Hs. split; [by eapply sources_length_reachable|].
  split; [by eapply views_length_reachable|].
  by eapply views_have_sources_reachable.
Qed.

Lemma panes_invariant_witness :
  length (image_sources example_half_decoded) = 4%nat /\
  length (image_views example_half_decoded) = 4%nat /\
  forall i v, image_views example_half_decoded !! i = Some (Some v) ->
              exists src, image_sources example_half_decoded !! i
                          = Some (Some src).
Proof.
  apply (panes_invariant example_extensions).
  apply reachable_run, example_initial_reachable.
Defined.

(** ** The key index, event by event *)

Lemma load_show_keep_keys ks k s :
  key_list s = ks /\ current_key s = k ->
  key_list (exec (load_images;; show all_cells;; save_settings) s) = ks /\
  current_key (exec (load_images;; show all_cells;; save_settings) s) = k.
Proof.
  apply (preserves_bind (I := fun s => key_list s = ks /\ current_key s = k)).
  - apply load_images_preserves; intros; frame_atom.
  - intros _. apply preserves_bind; [|intros _; apply preserves_ret].
    apply show_preserves; intros; frame_atom.
Qed.

Lemma load_show_in_bounds s :
  key_index_in_bounds s ->
  key_index_in_bounds (exec (load_images;; show all_cells;; save_settings) s).
Proof.
  intros Hs.
  destruct (load_show_keep_keys (key_list s) (current_key s) s) as [Hk Hc];
    [done|].
  unfold key_index_in_bounds in *. by rewrite Hk, Hc.
Qed.

Lemma update_key_list_in_bounds indices s :
  key_index_in_bounds s -> key_index_in_bounds (exec (update_key_list indices) s).
Proof.
  intros Hs. destruct (available_sources s) as [|src srcs] eqn:Hsrc.
  - unfold update_key_list. erewrite exec_bind_ok by reflexivity.
    rewrite Hsrc. by erewrite exec_bind_raise by reflexivity.
  - rewrite (update_key_list_exec _ _ _ _ Hsrc).
    apply clamp_current_key_in_bounds. simpl.
    unfold key_index_in_bounds in Hs. destruct (current_key s); lia.
Qed.

(** X12: Once the key index is within the key list it stays there, whatever the
    event: only the start-up can leave it outside. *)
Theorem key_index_stays_in_bounds exts e s :
  key_index_in_bounds s -> key_index_in_bounds (exec (handle exts e) s).
Proof.
  intros Hs.
  assert (forall cells, preserves key_index_in_bounds (show cells)) as Hshow.
  { intros. apply show_preserves; intros; frame_atom. }
  assert (preserves key_index_in_bounds load_images) as Hload.
  { apply load_images_preserves; intros; frame_atom. }
  assert (forall idx, preserves key_index_in_bounds (update_key_list idx))
    as Hupd by (intros idx s'; apply update_key_list_in_bounds).
  revert s Hs. change (preserves key_index_in_bounds (handle exts e)).
  destruct e; simpl.
  - case_decide; [|apply preserves_ret]. unfold menu_change_view.
    pres; first [ frame_atom | apply Hupd | apply Hload | apply Hshow ].
  - apply preserves_get_bind. intros s Hs.
    case_decide; [|done]. unfold menu_go_to_key.
    erewrite exec_bind_ok by reflexivity.
    apply load_show_in_bounds. unfold key_index_in_bounds. simpl. lia.
  - assert (preserves key_index_in_bounds
              (menu_enter_prefix_length exts result fs)).
    { unfold menu_enter_prefix_length.
      pres; first [ frame_atom | apply Hupd | apply Hload | apply Hshow ]. }
    destruct result; [|done]. by destruct (_ && _); [|apply preserves_ret].
  - pres. apply menu_set_gt_preserves; intros; frame_atom.
  - unfold next_image. apply preserves_get_bind. intros s Hs.
    destruct (current_key s) as [ck|] eqn:Hck; [|done].
    destruct (Z.eqb_spec (Z.of_nat (length (key_list s))) 0); [done|].
    erewrite exec_bind_ok by reflexivity.
    apply load_show_in_bounds. unfold key_index_in_bounds. simpl.
    pose proof (Z.mod_pos_bound (ck + 1) (Z.of_nat (length (key_list s)))).
    lia.
  - unfold prev_image. apply preserves_get_bind. intros s Hs.
    destruct (current_key s) as [ck|] eqn:Hck; [|done].
    destruct (Z.eqb_spec (Z.of_nat (length (key_list s))) 0); [done|].
    erewrite exec_bind_ok by reflexivity.
    apply load_show_in_bounds. unfold key_index_in_bounds. simpl.
    pose proof (Z.mod_pos_bound (ck + Z.of_nat (length (key_list s)) - 1)
                  (Z.of_nat (length (key_list s)))).
    lia.
  - apply on_zoom_preserves; intros; frame_atom.
  - by intros ? ?.
  - apply do_drag_preserves; intros; frame_atom.
  - apply stop_drag_preserves; intros; frame_atom.
  - by intros ? ?.
  - apply Hshow.
  - apply image_loaded_preserves; intros; frame_atom.
  - frame_atom.
  - frame_atom.
  - frame_atom.
  - frame_atom.
Qed.

Lemma key_index_stays_in_bounds_witness :
  key_index_in_bounds
    (exec (handle example_extensions NextImage) example_half_decoded).
Proof.
  apply key_index_stays_in_bounds. vm_compute. split; discriminate.
Defined.

(** ** Navigation *)

Lemma next_image_exec s ck :
  current_key s = Some ck -> key_list s <> [] ->
  let n := Z.of_nat (length (key_list s)) in
  key_list (exec next_image s) = key_list s /\
  current_key (exec next_image s) = Some ((ck + 1) `mod` n).
Proof.
  intros Hc Hk n. unfold next_image. erewrite exec_bind_ok by reflexivity.
  rewrite Hc. fold n.
  destruct (Z.eqb_spec n 0) as [E|_].
  { subst n. destruct (key_list s); simpl in *; [done|lia]. }
  erewrite exec_bind_ok by reflexivity. by apply load_show_keep_keys.
Qed.

Lemma prev_image_exec s ck :
  current_key s = Some ck -> key_list s <> [] ->
  let n := Z.of_nat (length (key_list s)) in
  key_list (exec prev_image s) = key_list s /\
  current_key (exec prev_image s) = Some ((ck + n - 1) `mod` n).
Proof.
  intros Hc Hk n. unfold prev_image. erewrite exec_bind_ok by reflexivity.
  rewrite Hc. fold n.
  destruct (Z.eqb_spec n 0) as [E|_].
  { subst n. destruct (key_list s); simpl in *; [done|lia]. }
  erewrite exec_bind_ok by reflexivity. by apply load_show_keep_keys.
Qed.

(** X13: From an index within the key list, [next_image] followed by
    [prev_image], and [prev_image] followed by [next_image], come back to
    the same key. *)
Theorem next_prev_round_trip s ck :
  current_key s = Some ck ->
  0 <= ck <= Z.of_nat (length (key_list s)) - 1 ->
  current_key (exec prev_image (exec next_image s)) = Some ck /\
  current_key (exec next_image (exec prev_image s)) = Some ck.
Proof.
  intros Hc Hb.
  assert (key_list s <> []) as Hne.
  { destruct (key_list s); simpl in *; [lia|done]. }
  set (n := Z.of_nat (length (key_list s))) in *.
  destruct (next_image_exec s ck Hc Hne) as [Hk1 Hc1].
  destruct (prev_image_exec s ck Hc Hne) as [Hk2 Hc2].
  split.
  - destruct (prev_image_exec _ _ Hc1) as [_ ->]; [by rewrite Hk1|].
    rewrite Hk1. fold n. f_equal.
    destruct (decide (ck + 1 = n)) as [E|E].
    + rewrite E, Z_mod_same_full. rewrite Z.mod_small; lia.
    + rewrite (Z.mod_small (ck + 1)) by lia.
      replace (ck + 1 + n - 1) with (ck + 1 * n) by lia.
      rewrite Z_mod_plus_full. apply Z.mod_small. lia.
  - destruct (next_image_exec _ _ Hc2) as [_ ->]; [by rewrite Hk2|].
    rewrite Hk2. fold n. f_equal.
    destruct (decide (ck = 0)) as [->|E].
    + rewrite (Z.mod_small (0 + n - 1)) by lia.
      replace (0 + n - 1 + 1) with n by lia. apply Z_mod_same_full.
    + replace (ck + n - 1) with (ck - 1 + 1 * n) by lia.
      rewrite Z_mod_plus_full, (Z.mod_small (ck - 1)) by lia.
      rewrite Z.mod_small; lia.
Qed.

Lemma next_prev_round_trip_witness :
  current_key (exec prev_image (exec next_image example_half_decoded))
  = Some 0 /\
  current_key (exec next_image (exec prev_image example_half_decoded))
  = Some 0.
Proof.
  apply next_prev_round_trip.
  - vm_compute. reflexivity.
  - vm_compute. split; discriminate.
Defined.

(** ** Start-up *)

Lemma for_each_skips {A} (l : list A) (body : A -> M unit) s :
  (forall x, x ∈ l -> body x s = (Ok tt, s)) ->
  for_each l body s = (Ok tt, s).
Proof.
  induction l as [|x l IH]; intros Hb; simpl; [done|].
  unfold mbind, M_bind. rewrite Hb by left.
  apply IH. intros y Hy. apply Hb. by right.
Qed.

(** X14: A settings file none of whose source paths is a directory any more
    keeps the application from starting: [__init__] raises [TypeError]. *)
Theorem startup_without_directories_raises exts fs canvas settings paths :
  Settings.sources settings = Some paths ->
  (forall p, p ∈ paths -> fs p = None) ->
  returns (init exts (Some settings) fs) (initial canvas) = Raise TypeError.
Proof.
  intros Hsrc Hnone. unfold init, load_savestate. rewrite Hsrc.
  rewrite returns_bind.
  match goal with |- context [?m (initial canvas)] =>
    assert (exists s, m (initial canvas) = (Raise TypeError, s)) as [s ->]
  end; [|done].
  set (s1 := match Settings.prefix_length settings with
             | Some (JInt n) => set_prefix_length n (initial canvas)
             | _ => initial canvas
             end).
  unfold mbind at 1, M_bind at 1.
  assert ((match Settings.prefix_length settings with
           | Some (JInt n) => modify (set_prefix_length n)
           | _ => mret tt
           end) (initial canvas) = (Ok tt, s1)) as ->.
  { subst s1. by destruct (Settings.prefix_length settings) as [[]|]. }
  unfold mbind at 1, M_bind at 1.
  rewrite for_each_skips.
  - exists s1. subst s1.
    by destruct (Settings.prefix_length settings) as [[]|].
  - intros [i p] (i' & p' & [= <- <-] & Hp)%elem_of_lookup_imap.
    rewrite Hnone; [done|]. by eapply list_elem_of_lookup_2.
Qed.

Lemma startup_without_directories_raises_witness :
  returns (init example_extensions
             (Some {| Settings.sources := Some ["/gone"; ""; ""; ""];
                      Settings.key_index := Some (JInt 0);
                      Settings.gt_index := None;
                      Settings.prefix_length := Some (JInt 8) |})
             example_fs) (initial (1, 1)) = Raise TypeError.
Proof.
  eapply startup_without_directories_raises; [reflexivity|].
  intros p Hp. repeat (apply elem_of_cons in Hp as [->|Hp]); try done.
  by apply elem_of_nil in Hp.
Defined.

(** ** Panning *)

Lemma py_truediv_ok a b :
  ~ (b == 0)%Q -> py_truediv a b = Ok (a / b)%Q.
Proof.
  intros Hb. unfold py_truediv.
  destruct (Qeq_bool b 0) eqn:E; [|done]. by apply Qeq_bool_eq in E.
Qed.

Lemma do_drag_keeps_inputs x y s :
  let s' := exec (do_drag x y) s in
  dragging s' = dragging s /\ start_drag_mouse s' = start_drag_mouse s /\
  canvas_size s' = canvas_size s /\
  start_drag_crop_center s' = start_drag_crop_center s /\ zoom s' = zoom s.
Proof.
  simpl.
  apply (do_drag_preserves
           (I := fun s' =>
              dragging s' = dragging s /\
              start_drag_mouse s' = start_drag_mouse s /\
              canvas_size s' = canvas_size s /\
              start_drag_crop_center s' = start_drag_crop_center s /\
              zoom s' = zoom s)); intros;
    first [ frame_atom
          | apply preserves_modify; intros s0 Hs0; unfold dragged;
            destruct (start_drag_crop_center s0) eqn:E; simpl;
            rewrite E; exact Hs0
          | done ].
Qed.

Lemma do_drag_crop_center x y s :
  dragging s = true ->
  fst (current_cell_size s) <> 0 -> snd (current_cell_size s) <> 0 ->
  (1 <= zoom s)%Q ->
  crop_center (exec (do_drag x y) s) = drag_center x y s.
Proof.
  intros Hd Hw Hh Hz. unfold do_drag, drag_center.
  erewrite exec_bind_ok by reflexivity. rewrite Hd. simpl negb. cbv iota.
  destruct (current_cell_size s) as [cell_w cell_h]. simpl in Hw, Hh.
  assert (forall c : Z, c <> 0 -> ~ (inject_Z c * zoom s == 0)%Q) as Hnz.
  { intros c Hc E. apply Qmult_integral in E as [E|E]; [|lra].
    apply Hc. unfold Qeq, inject_Z in E. simpl in E. lia. }
  erewrite exec_bind_ok by (rewrite py_truediv_ok by auto; reflexivity).
  erewrite exec_bind_ok by (rewrite py_truediv_ok by auto; reflexivity).
  erewrite exec_bind_ok by reflexivity.
  destruct (show_keeps_viewport all_cells (zoom s)
              (crop_center (dragged
                 (inject_Z (x - (start_drag_mouse s).1)
                  / (inject_Z cell_w * zoom s))
                 (inject_Z (y - (start_drag_mouse s).2)
                  / (inject_Z cell_h * zoom s)) s))
              (dragged
                 (inject_Z (x - (start_drag_mouse s).1)
                  / (inject_Z cell_w * zoom s))
                 (inject_Z (y - (start_drag_mouse s).2)
                  / (inject_Z cell_h * zoom s)) s)) as [_ ->].
  { split; [|done]. unfold dragged. by destruct (start_drag_crop_center s). }
  unfold dragged. by destruct (start_drag_crop_center s).
Qed.

(** X15: While the button is held, the crop centre is computed from where the
    drag began and where the mouse is now: an earlier motion event of the
    same drag leaves no trace. *)
Theorem drag_is_relative_to_start s x y x' y' :
  dragging s = true ->
  fst (current_cell_size s) <> 0 -> snd (current_cell_size s) <> 0 ->
  (1 <= zoom s)%Q ->
  crop_center (exec (do_drag x y) s) = drag_center x y s /\
  crop_center (exec (do_drag x y) (exec (do_drag x' y') s))
  = drag_center x y s.
Proof.
  intros Hd Hw Hh Hz. split; [by apply do_drag_crop_center|].
  destruct (do_drag_keeps_inputs x' y' s) as (E1 & E2 & E3 & E4 & E5).
  rewrite do_drag_crop_center.
  - unfold drag_center, current_cell_size. by rewrite E2, E3, E4, E5.
  - by rewrite E1.
  - unfold current_cell_size. by rewrite E3.
  - unfold current_cell_size. by rewrite E3.
  - by rewrite E5.
Qed.

Lemma drag_is_relative_to_start_witness :
  let s := exec (start_drag 100 100) example_zoomed in
  crop_center (exec (do_drag 40 70) s) = drag_center 40 70 s /\
  crop_center (exec (do_drag 40 70) (exec (do_drag 300 5) s))
  = drag_center 40 70 s.
Proof.
  apply drag_is_relative_to_start.
  - reflexivity.
  - vm_compute. discriminate.
  - vm_compute. discriminate.
  - vm_compute. discriminate.
Defined.

(** X16: A motion event of a drag raises [ZeroDivisionError], and changes
    nothing, when the canvas is so small that a cell has no width or no
    height. *)
Theorem do_drag_on_flat_cell_raises s x y w h :
  dragging s = true ->
  canvas_size s = (w, h) ->
  w = 5 \/ w = 6 \/ h = 45 \/ h = 46 ->
  do_drag x y s = (Raise ZeroDivisionError, s).
Proof.
  intros Hd Hc Hwh. unfold do_drag, current_cell_size, mbind, M_bind, get.
  rewrite Hd, Hc. simpl negb. cbv iota beta.
  unfold IMAGE_GAP, TEXT_BAR_HEIGHT.
  assert (forall a c : Z, c = 0 ->
            py_truediv (inject_Z a) (inject_Z c * zoom s)
            = Raise ZeroDivisionError) as Hzero.
  { intros a c ->. unfold py_truediv.
    assert (Qeq_bool (inject_Z 0 * zoom s) 0 = true) as ->; [|done].
    apply Qeq_bool_iff. change (inject_Z 0) with 0%Q. lra. }
  destruct (decide ((w - 5) `div` 2 = 0)) as [E|E].
  - by rewrite (Hzero _ _ E).
  - assert ((h - 5 - 2 * 20) `div` 2 = 0) as E'.
    { destruct Hwh as [-> | [-> | [-> | ->]]]; done. }
    rewrite (Hzero (y - (start_drag_mouse s).2) _ E').
    unfold py_truediv at 1. by destruct (Qeq_bool _ _).
Qed.

Lemma do_drag_on_flat_cell_raises_witness :
  let s := exec (start_drag 10 10) (set_canvas_size (6, 850) example_initial) in
  do_drag 30 40 s = (Raise ZeroDivisionError, s).
Proof.
  apply (do_drag_on_flat_cell_raises _ 30 40 6 850).
  - reflexivity.
  - reflexivity.
  - right. left. reflexivity.
Defined.

(** ** Zooming at the ends of the range *)

(** X17: At zoom 1 a wheel event that does not zoom in, and at zoom 100 one that
    zooms in, leaves the zoom and the crop centre of a reachable state as
    they are. *)
Theorem zoom_saturates exts ev s :
  reachable exts s ->
  (zoom s == 1)%Q /\ wheel_direction ev <= 0 \/
  (zoom s == 100)%Q /\ 0 < wheel_direction ev ->
  let s' := exec (on_zoom ev) s in
  (zoom s' == zoom s /\
   fst (crop_center s') == fst (crop_center s) /\
   snd (crop_center s') == snd (crop_center s))%Q.
Proof.
  intros Hs Hcase s'.
  destruct (viewport_ok_reachable _ _ Hs) as [_ [Hx Hy]].
  destruct (on_zoom_exec ev s) as [Ez Ec]. subst s'. rewrite Ez, Ec.
  clear Ez Ec. unfold coordinate_in_bounds, half_crop_size in Hx, Hy.
  unfold zoomed. destruct (crop_center s) as [cx cy]. simpl in *.
  set (z := py_max 1%Q (py_min _ 100%Q)).
  assert (z == zoom s)%Q as Hz.
  { subst z. unfold py_min, py_max.
    destruct Hcase as [[Hz Hd]|[Hz Hd]].
    - replace (wheel_direction ev >? 0) with false by lia.
      repeat destruct (Qlt_le_dec _ _); lra.
    - replace (wheel_direction ev >? 0) with true by lia.
      repeat destruct (Qlt_le_dec _ _); lra. }
  split; [done|]. clearbody z.
  assert ((1 # 2) / z == (1 # 2) / zoom s)%Q as Hh by (by rewrite Hz).
  split; apply clamp_center_id; rewrite Hh; tauto.
Qed.

Lemma zoom_saturates_witness :
  let s' := exec (on_zoom wheel_down) example_initial in
  (zoom s' == zoom example_initial /\
   fst (crop_center s') == fst (crop_center example_initial) /\
   snd (crop_center s') == snd (crop_center example_initial))%Q.
Proof.
  apply (zoom_saturates example_extensions).
  - apply example_initial_reachable.
  - left. split; [reflexivity|]. vm_compute. discriminate.
Defined.

(** ** The crop box *)








(** ** Completion of the ground-truth pane *)

Lemma py_pos_nat n j : (j < n)%nat -> py_pos n (Z.of_nat j) = Ok j.
Proof.
  intros Hj. unfold py_pos.
  destruct (Z.ltb_spec (Z.of_nat j) 0); [lia|].
  destruct (Z.leb_spec 0 (Z.of_nat j)); [|lia].
  destruct (Z.ltb_spec (Z.of_nat j) (Z.of_nat n)); [|lia].
  simpl. by rewrite Nat2Z.id.
Qed.






(** ** Loading the images of a key *)

Lemma load_loop_views key l :
  forall off s,
    returns (for_each (imap (fun j => pair (off + j)%nat) l) (load_body key)) s
      = Ok tt ->
    let s' :=
      exec (for_each (imap (fun j => pair (off + j)%nat) l) (load_body key))
           s in
    (forall j src, l !! j = Some (Some src) ->
       exists path fid,
         ImageSource.get_file src key = Ok path /\
         image_views s' !! (off + j)%nat
         = Some (Some (ImageView.init path fid)) /\
         futures s' !! fid
         = Some {| task_path := path; task_index := (off + j)%nat;
                   state := PENDING |}) /\
    (forall i, (i < off)%nat -> image_views s' !! i = image_views s !! i) /\
    (forall fid f, futures s !! fid = Some f -> futures s' !! fid = Some f) /\
    zoom s' = zoom s /\ crop_center s' = crop_center s /\
    dragging s' = dragging s.
Proof.
  induction l as [|x l IH]; intros off s Hret.
  - simpl. split; [by intros j src|done].
  - assert (imap (fun j => pair (off + j)%nat) (x :: l) =
            (off, x) :: imap (fun j => pair (S off + j)%nat) l) as E.
    { cbn [imap]. rewrite Nat.add_0_r. f_equal.
      apply imap_ext. intros j y _. simpl. f_equal. lia. }
    rewrite E in Hret |- *. clear E. cbn [for_each] in Hret |- *.
    apply returns_bind_ok in Hret as ([] & Hbody & Hrest & ->).
    destruct x as [src|].
    + change (load_body key (off, Some src))
        with (path ← lift (ImageSource.get_file src key); load_view off path)
        in *.
      apply returns_bind_ok in Hbody as (path & Hpath & Hlv & Hexec).
      apply lift_ok in Hpath as [Hpath Hs]. rewrite Hs in Hlv, Hexec.
      apply load_view_ok in Hlv as [Hoff Hs1]. rewrite Hs1 in Hexec.
      rewrite Hexec in Hrest |- *. clear Hexec Hs Hs1.
      destruct (IH _ _ Hrest) as (Hviews & Hold & Hfut & Hz & Hc & Hd).
      clear IH Hrest. simpl. split; [|split; [|split]].
      * intros [|j] src' Hj; simpl in Hj.
        -- injection Hj as <-. exists path, (length (futures s)).
           split; [done|]. rewrite Nat.add_0_r. split.
           ++ rewrite Hold by lia. simpl.
              by rewrite list_lookup_insert_eq.
           ++ apply Hfut. simpl. rewrite lookup_app_r by done.
              by rewrite Nat.sub_diag.
        -- destruct (Hviews j src' Hj) as (p & fid & ? & ? & ?).
           exists p, fid. by rewrite <- Nat.add_succ_comm.
      * intros i Hi. rewrite Hold by lia. simpl.
        by rewrite list_lookup_insert_ne by lia.
      * intros fid f Hf. apply Hfut. simpl. by apply lookup_app_l_Some.
      * done.
    + change (exec (load_body key (off, None)) s) with s in *.
      destruct (IH _ _ Hrest) as (Hviews & Hold & Hfut & Hrest').
      clear IH Hrest. simpl. split; [|split; [|split]]; try done.
      * intros [|j] src' Hj; simpl in Hj; [done|].
        destruct (Hviews j src' Hj) as (p & fid & ? & ? & ?).
        exists p, fid. by rewrite <- Nat.add_succ_comm.
      * intros i Hi. apply Hold. lia.
Qed.

Lemma load_images_current_key_views s ck :
  current_key s = Some ck ->
  returns load_images s = Ok tt ->
  let s' := exec load_images s in
  (zoom s' = 1 /\ crop_center s' = (1 # 2, 1 # 2) /\ dragging s' = false)%Q /\
  exists key,
    py_index (key_list s) ck = Ok key /\
    forall i src, image_sources s !! i = Some (Some src) ->
      exists path fid,
        ImageSource.get_file src key = Ok path /\
        image_views s' !! i = Some (Some (ImageView.init path fid)) /\
        futures s' !! fid
        = Some {| task_path := path; task_index := i; state := PENDING |}.
Proof.
  intros Hck Hret. simpl. unfold load_images in Hret |- *.
  apply returns_bind_ok in Hret as (s0 & [= <-] & Hret & ->). simpl in *.
  change (exec get s) with s in *.
  apply returns_bind_ok in Hret as ([] & _ & Hret & ->).
  match goal with |- context [exec (for_each ?l ?b) s] =>
    set (s2 := exec (for_each l b) s) in *;
    assert (image_sources s2 = image_sources s /\
            key_list s2 = key_list s /\ current_key s2 = current_key s)
      as (Es & Ek & Ec)
  end.
  { apply (preserves_for_each
             (I := fun s' => image_sources s' = image_sources s /\
                             key_list s' = key_list s /\
                             current_key s' = current_key s)); [|done].
    intros [v|]; [|apply preserves_ret].
    destruct (ImageView.image v); [apply preserves_ret|].
    by intros s' (? & ? & ?). }
  clearbody s2.
  apply returns_bind_ok in Hret as (s3 & [= <-] & Hret & ->). simpl in *.
  change (exec get s2) with s2 in *.
  rewrite Ec, Hck in Hret |- *.
  apply returns_bind_ok in Hret as (key & Hkey & Hret & ->).
  apply lift_ok in Hkey as [Hkey Hs2]. rewrite Hs2 in Hret |- *.
  apply returns_bind_ok in Hret as ([] & Hloop & _ & ->).
  change (imap pair (image_sources s2))
    with (imap (fun j => pair (0 + j)%nat) (image_sources s2)) in *.
  destruct (load_loop_views key _ 0%nat s2 Hloop)
    as (Hviews & _ & _ & _).
  split; [done|]. exists key. rewrite <- Ek. split; [done|].
  intros i src Hi. rewrite <- Es in Hi.
  destruct (Hviews i src Hi) as (path & fid & ? & ? & ?).
  by exists path, fid.
Qed.

(** X20: When [load_images] returns for a selected key, every pane that has a
    source holds a new view for the file of that key in its source, without
    image, around a task submitted for that file and that pane; zoom, crop
    centre and drag are reset. *)
Theorem load_images_loads_current_key s ck :
  current_key s = Some ck ->
  returns load_images s = Ok tt ->
  let s' := exec load_images s in
  (zoom s' = 1 /\ crop_center s' = (1 # 2, 1 # 2) /\ dragging s' = false)%Q /\
  exists key,
    py_index (key_list s) ck = Ok key /\
    forall i src, image_sources s !! i = Some (Some src) ->
      exists path fid,
        ImageSource.get_file src key = Ok path /\
        image_views s' !! i = Some (Some (ImageView.init path fid)) /\
        futures s' !! fid
        = Some {| task_path := path; task_index := i; state := PENDING |}.
Proof. apply load_images_current_key_views. Qed.

Lemma load_images_loads_current_key_witness :
  let s := set_current_key (Some 1) example_half_decoded in
  let s' := exec load_images s in
  (zoom s' = 1 /\ crop_center s' = (1 # 2, 1 # 2) /\ dragging s' = false)%Q /\
  exists key,
    py_index (key_list s) 1 = Ok key /\
    forall i src, image_sources s !! i = Some (Some src) ->
      exists path fid,
        ImageSource.get_file src key = Ok path /\
        image_views s' !! i = Some (Some (ImageView.init path fid)) /\
        futures s' !! fid
        = Some {| task_path := path; task_index := i; state := PENDING |}.
Proof.
  apply load_images_loads_current_key.
  - reflexivity.
  - vm_compute. reflexivity.
Defined.

Lemma for_each_returns {A} (l : list A) (body : A -> M unit) s :
  (forall x s', returns (body x) s' = Ok tt) ->
  returns (for_each l body) s = Ok tt.
Proof.
  intros Hb. induction l as [|x l IH] in s |- *; simpl; [done|].
  rewrite returns_bind. specialize (Hb x s). unfold returns in Hb.
  destruct (body x s) as [[[]|e] s']; [apply IH|done].
Qed.

Lemma load_images_no_key_views s :
  current_key s = None ->
  let s' := exec load_images s in
  returns load_images s = Ok tt /\
  image_views s' = [None; None; None; None] /\
  zoom s' = zoom s /\ crop_center s' = crop_center s /\
  dragging s' = dragging s.
Proof.
  intros Hck. simpl. unfold load_images.
  rewrite returns_bind, exec_bind. simpl.
  match goal with |- context [for_each ?l ?b] =>
    set (loop := for_each l b);
    assert (returns loop s = Ok tt) as Hret;
    [|assert (preserves (fun s' => current_key s' = None /\
                                  zoom s' = zoom s /\
                                  crop_center s' = crop_center s /\
                                  dragging s' = dragging s) loop) as Hloop]
  end.
  { apply for_each_returns. intros [v|] s'; [|done].
    by destruct (ImageView.image v). }
  { apply preserves_for_each. intros [v|]; [|apply preserves_ret].
    destruct (ImageView.image v); [apply preserves_ret|].
    by intros s' (? & ? & ?). }
  specialize (Hloop s). unfold exec in Hloop. unfold returns in Hret.
  clearbody loop. rewrite returns_bind, exec_bind.
  destruct (loop s) as [[[]|e] s2]; [|done]. simpl in Hloop.
  destruct Hloop as (Hc & Hz & Hcc & Hd); [done|].
  rewrite returns_bind, exec_bind. simpl. by rewrite Hc.
Qed.

(** X21: [load_images] without a selected key removes every view and leaves
    zoom, crop centre and drag as they are. *)
Theorem load_images_without_key s :
  current_key s = None ->
  let s' := exec load_images s in
  returns load_images s = Ok tt /\
  image_views s' = [None; None; None; None] /\
  zoom s' = zoom s /\ crop_center s' = crop_center s /\
  dragging s' = dragging s.
Proof. apply load_images_no_key_views. Qed.

Lemma load_images_without_key_witness :
  let s' := exec load_images example_initial in
  returns load_images example_initial = Ok tt /\
  image_views s' = [None; None; None; None] /\
  zoom s' = zoom example_initial /\
  crop_center s' = crop_center example_initial /\
  dragging s' = dragging example_initial.
Proof. apply load_images_without_key. reflexivity. Defined.

(** ** Cancelling the decodes of the panes that are replaced *)

Lemma future_cancel_idemp f : future_cancel (future_cancel f) = future_cancel f.
Proof. unfold future_cancel. by destruct (state f) eqn:E; simpl; rewrite ?E. Qed.

Lemma cancel_body_run view s :
  cancel_body view s = (Ok tt, exec (cancel_body view) s).
Proof. destruct view as [v|]; [|done]. simpl. by destruct (ImageView.image v). Qed.

Lemma cancel_body_futures view s fid f :
  futures s !! fid = Some f ->
  futures (exec (cancel_body view) s) !! fid = Some f \/
  futures (exec (cancel_body view) s) !! fid = Some (future_cancel f).
Proof.
  intros Hf. destruct view as [v|]; simpl; [|by left].
  destruct (ImageView.image v); [by left|]. simpl.
  destruct (decide (ImageView.future v = fid)) as [->|Hne].
  - right. by rewrite list_lookup_alter_eq, Hf.
  - left. by rewrite list_lookup_alter_ne.
Qed.

Lemma cancel_loop_futures l s fid f :
  futures s !! fid = Some f ->
  futures (exec (for_each l cancel_body) s) !! fid = Some f \/
  futures (exec (for_each l cancel_body) s) !! fid = Some (future_cancel f).
Proof.
  induction l as [|view l IH] in s, f |- *; intros Hf; simpl; [by left|].
  erewrite exec_bind_ok by apply cancel_body_run.
  destruct (cancel_body_futures view s fid f Hf) as [H|H];
    apply IH in H; [done|].
  rewrite future_cancel_idemp in H. right. by destruct H.
Qed.

Lemma cancel_loop_cancels l s v f :
  Some v ∈ l -> ImageView.image v = None ->
  futures s !! ImageView.future v = Some f ->
  futures (exec (for_each l cancel_body) s) !! ImageView.future v
  = Some (future_cancel f).
Proof.
  induction l as [|view l IH] in s, f |- *; intros Hin Hv Hf.
  - by apply elem_of_nil in Hin.
  - simpl. erewrite exec_bind_ok by apply cancel_body_run.
    apply elem_of_cons in Hin as [<-|Hin].
    + simpl. rewrite Hv. simpl.
      match goal with |- futures (exec _ ?s1) !! _ = _ =>
        destruct (cancel_loop_futures l s1 (ImageView.future v)
                    (future_cancel f)) as [H|H]
      end; [simpl; by rewrite list_lookup_alter_eq, Hf|done|].
      by rewrite future_cancel_idemp in H.
    + destruct (cancel_body_futures view s _ f Hf) as [H|H].
      * by apply IH.
      * rewrite <- (future_cancel_idemp f). by apply IH.
Qed.

Lemma load_loop_keeps_futures key l s fid f :
  futures s !! fid = Some f ->
  futures (exec (for_each l (load_body key)) s) !! fid = Some f.
Proof.
  revert s. apply (preserves_for_each (I := fun s => futures s !! fid = Some f)).
  intros [i [src|]]; [|apply preserves_ret].
  intros s Hf.
  change (load_body key (i, Some src))
    with (path ← lift (ImageSource.get_file src key); load_view i path).
  rewrite exec_bind. unfold lift.
  destruct (ImageSource.get_file src key) as [path|e]; simpl; [|done].
  unfold exec. rewrite load_view_run. simpl.
  case_decide; simpl; by apply lookup_app_l_Some.
Qed.

(** X22: [load_images] cancels the task of every pane whose image has not been
    set: a pending task ends up cancelled, a task in any other state is left
    as it is. This holds also when [load_images] raises. *)
Theorem load_images_cancels_undecoded s i v f :
  image_views s !! i = Some (Some v) ->
  ImageView.image v = None ->
  futures s !! ImageView.future v = Some f ->
  futures (exec load_images s) !! ImageView.future v
  = Some (future_cancel f).
Proof.
  intros Hi Hv Hf. unfold load_images.
  rewrite exec_bind. simpl.
  change (for_each (image_views s) _) with (for_each (image_views s) cancel_body).
  pose proof (cancel_loop_cancels (image_views s) s v f
                (list_elem_of_lookup_2 _ _ _ Hi) Hv Hf) as Hc.
  assert (returns (for_each (image_views s) cancel_body) s = Ok tt) as Hret.
  { apply for_each_returns. intros [v'|] s'; [|done]. simpl.
    by destruct (ImageView.image v'). }
  unfold returns in Hret. unfold exec in Hc.
  rewrite exec_bind.
  destruct (for_each (image_views s) cancel_body s) as [[[]|e] s2]; [|done].
  simpl in Hc. clear Hret.
  rewrite exec_bind. simpl.
  destruct (current_key s2) as [ck|]; [|done].
  rewrite exec_bind. unfold lift.
  destruct (py_index (key_list s2) ck) as [key|e]; simpl; [|done].
  rewrite exec_bind.
  change (for_each (imap pair (image_sources s2)) _)
    with (for_each (imap pair (image_sources s2)) (load_body key)).
  pose proof (load_loop_keeps_futures key (imap pair (image_sources s2)) s2
                _ _ Hc) as Hl.
  unfold exec in Hl.
  by destruct (for_each (imap pair (image_sources s2)) (load_body key) s2)
    as [[[]|e] s3].
Qed.

Lemma load_images_cancels_undecoded_witness :
  futures (exec load_images example_half_decoded) !! 1%nat
  = Some {| task_path := "/d/A/img00001_a.png"; task_index := 0;
            state := CANCELLED |}.
Proof.
  apply (load_images_cancels_undecoded example_half_decoded 0%nat
           {| ImageView.path := "/d/A/img00001_a.png";
              ImageView.future := 1;
              ImageView.image := None;
              ImageView.comparison_text := None |}
           {| task_path := "/d/A/img00001_a.png"; task_index := 0;
              state := PENDING |}).
  - vm_compute. reflexivity.
  - reflexivity.
  - vm_compute. reflexivity.
Defined.

(** ** The key list and the sources agree *)

(** An operation that ends in [I] when it returns, followed by operations
    that keep [I]. *)
Lemma establish_bind {A B} (I : App -> Prop) (m : M A) (k : A -> M B) s :
  I (exec m s) -> (forall a, preserves I (k a)) -> I (exec (m ≫= k) s).
Proof.
  intros Hm Hk. rewrite exec_bind. unfold exec in Hm.
  destruct (m s) as [[a|e] s']; simpl in *; [by apply Hk|done].
Qed.

(** A first part that keeps [I1], which is enough for [I2], followed by a
    second part that leads from [I1] to [I2]. *)
Lemma switch_bind {A B} (I1 I2 : App -> Prop) (m : M A) (k : A -> M B) s :
  (forall s', I1 s' -> I2 s') -> preserves I1 m ->
  (forall a s', I1 s' -> I2 (exec (k a) s')) ->
  I1 s -> I2 (exec (m ≫= k) s).
Proof.
  intros H12 Hm Hk Hs. rewrite exec_bind. specialize (Hm s Hs).
  unfold exec in Hm. destruct (m s) as [[a|e] s']; simpl in *; auto.
Qed.

Lemma keys_resolve_no_keys s : key_list s = [] -> keys_resolve s.
Proof. intros E key src Hkey. rewrite E in Hkey. by apply elem_of_nil in Hkey. Qed.

Lemma update_key_list_keys_resolve indices s :
  keys_resolve (exec (update_key_list indices) s).
Proof.
  destruct (available_sources s) as [|src srcs] eqn:Hsrc.
  - assert (exec (update_key_list indices) s = s) as ->.
    { unfold update_key_list. erewrite exec_bind_ok by reflexivity.
      rewrite Hsrc. by erewrite exec_bind_raise by reflexivity. }
    intros key x _ Hx.
    assert (x ∈ available_sources s) as Hin
      by (apply list_elem_of_omap; by exists (Some x)).
    rewrite Hsrc in Hin. by apply elem_of_nil in Hin.
  - intros key x Hkey Hx.
    destruct (update_key_list_sorted_intersection indices s src srcs Hsrc)
      as (_ & _ & Hall).
    apply elem_of_dom, (proj1 (Hall key) Hkey). rewrite <- Hsrc.
    apply list_elem_of_omap. exists (Some x). split; [|done].
    rewrite (update_key_list_exec _ _ _ _ Hsrc) in Hx.
    unfold clamp_current_key in Hx. by repeat case_match.
Qed.

Lemma load_images_keys_resolve : preserves keys_resolve load_images.
Proof. apply load_images_preserves; intros; frame_atom. Qed.

Lemma show_keys_resolve cells : preserves keys_resolve (show cells).
Proof. apply show_preserves; intros; frame_atom. Qed.

Lemma redraw_keys_resolve :
  preserves keys_resolve (load_images;; show all_cells;; save_settings).
Proof.
  pres; first [apply load_images_keys_resolve | apply show_keys_resolve].
Qed.

Lemma assign_source_run i src s :
  assign_source i src s =
  if decide (i < length (image_sources s))%nat
  then (Ok tt, set_image_sources (<[i := Some src]> (image_sources s)) s)
  else (Raise IndexError, s).
Proof. unfold assign_source, py_setitem. run_m. by case_decide. Qed.

Lemma menu_change_view_keys_resolve exts index path fs :
  preserves keys_resolve (menu_change_view exts index path fs).
Proof.
  intros s Hs. unfold menu_change_view.
  destruct (String.eqb path ""); [done|].
  rewrite exec_bind. simpl. rewrite exec_bind. unfold lift.
  destruct (ImageSource.init exts fs path (prefix_length s)) as [source|e];
    simpl; [|done].
  rewrite exec_bind, assign_source_run.
  case_decide; [|done].
  rewrite exec_bind. simpl. rewrite exec_bind. simpl.
  rewrite exec_bind.
  match goal with |- context [(if ?c then _ else _) ?s1] =>
    assert (exists s2, (if c then modify (set_gt_index None) else mret tt) s1
                       = (Ok tt, s2)) as [s2 ->]
      by (destruct c; by eexists)
  end.
  apply establish_bind; [apply update_key_list_keys_resolve|].
  intros _. apply redraw_keys_resolve.
Qed.

Lemma configured_panes_four (sources : list (option ImageSource.t)) :
  length sources = 4%nat -> exists indices, configured_panes sources = Ok indices.
Proof.
  destruct sources as [|a [|b [|c [|d [|]]]]]; try done. intros _.
  by eexists.
Qed.

Lemma rebuild_sources_run exts fs n s :
  rebuild_sources exts fs n s =
  match mapM (rebuild_source exts fs n) (image_sources s) with
  | Ok sources => (Ok sources, set_image_sources sources s)
  | Raise e => (Raise e, s)
  end.
Proof. unfold rebuild_sources. run_m. by destruct (mapM _ _). Qed.

Lemma menu_enter_prefix_length_keys_resolve exts result fs s :
  length (image_sources s) = 4%nat ->
  keys_resolve s ->
  keys_resolve (exec (menu_enter_prefix_length exts result fs) s).
Proof.
  intros Hlen Hs. unfold menu_enter_prefix_length.
  destruct result as [n|]; [|exact Hs].
  rewrite exec_bind. simpl. rewrite exec_bind.
  rewrite rebuild_sources_run. simpl.
  destruct (mapM (rebuild_source exts fs n) (image_sources s))
    as [sources|e] eqn:Hmap; [|exact Hs].
  apply mapM_outcome_length in Hmap.
  destruct (configured_panes_four sources) as [indices Hi]; [congruence|].
  rewrite exec_bind, Hi. simpl.
  apply establish_bind; [apply update_key_list_keys_resolve|].
  intros _. apply redraw_keys_resolve.
Qed.

Lemma handle_keys_resolve exts e s :
  length (image_sources s) = 4%nat ->
  keys_resolve s -> keys_resolve (exec (handle exts e) s).
Proof.
  intros Hlen Hs.
  assert ((exists result fs, e = MenuEnterPrefixLength result fs) \/
          forall result fs, e <> MenuEnterPrefixLength result fs)
    as [(result & fs & ->)|He] by (destruct e; eauto).
  { simpl. destruct result as [n|]; [|exact Hs].
    destruct (_ && _); [|exact Hs].
    by apply menu_enter_prefix_length_keys_resolve. }
  clear Hlen. revert s Hs. change (preserves keys_resolve (handle exts e)).
  destruct e; simpl.
  - case_decide; [apply menu_change_view_keys_resolve|apply preserves_ret].
  - unfold menu_go_to_key.
    pres; first [ frame_atom | apply load_images_keys_resolve
                | apply show_keys_resolve ].
  - by destruct (He result fs).
  - pres. apply menu_set_gt_preserves; intros; frame_atom.
  - unfold next_image.
    pres; first [ frame_atom | apply load_images_keys_resolve
                | apply show_keys_resolve ].
  - unfold prev_image.
    pres; first [ frame_atom | apply load_images_keys_resolve
                | apply show_keys_resolve ].
  - apply on_zoom_preserves; intros; frame_atom.
  - by intros ? ?.
  - apply do_drag_preserves; intros; frame_atom.
  - apply stop_drag_preserves; intros; frame_atom.
  - by intros ? ?.
  - apply show_keys_resolve.
  - apply image_loaded_preserves; intros; frame_atom.
  - frame_atom.
  - frame_atom.
  - frame_atom.
  - frame_atom.
Qed.

Lemma init_keys_resolve exts savestate fs s :
  key_list s = [] -> keys_resolve (exec (init exts savestate fs) s).
Proof.
  intros Hs. unfold init.
  apply establish_bind; [|intros _; apply show_keys_resolve].
  unfold load_savestate.
  destruct savestate as [settings|]; [|by apply keys_resolve_no_keys].
  destruct (Settings.sources settings) as [paths|];
    [|by apply keys_resolve_no_keys].
  apply (switch_bind (fun s => key_list s = []) keys_resolve);
    [apply keys_resolve_no_keys | pres; frame_atom | | done].
  clear s Hs. intros _ s Hs.
  apply (switch_bind (fun s => key_list s = []) keys_resolve);
    [apply keys_resolve_no_keys | pres; frame_atom | | done].
  clear s Hs. intros _ s Hs.
  rewrite exec_bind. simpl. rewrite exec_bind. unfold lift.
  destruct (configured_panes (image_sources s)) as [indices|e]; simpl;
    [|by apply keys_resolve_no_keys].
  apply establish_bind; [apply update_key_list_keys_resolve|].
  intros _. unfold restore_key_index.
  pres; first [ frame_atom | apply load_images_keys_resolve ].
Qed.

Lemma keys_resolve_reachable exts s : reachable exts s -> keys_resolve s.
Proof.
  induction 1 as [savestate fs canvas s E|s e Hs IH].
  - replace s with (exec (init exts savestate fs) (initial canvas))
      by (unfold exec; by rewrite E).
    by apply init_keys_resolve.
  - apply handle_keys_resolve; [by eapply sources_length_reachable|done].
Qed.

(** X23: In every reachable state every key of the key list names a file in
    every configured source: looking up the file of a listed key never
    raises [KeyError]. *)
Theorem listed_keys_resolve exts s key src :
  reachable exts s ->
  key ∈ key_list s -> Some src ∈ image_sources s ->
  exists f,
    ImageSource.files src !! key = Some f /\
    ImageSource.get_file src key = Ok (path_join (ImageSource.path src) f).
Proof.
  intros Hs Hkey Hsrc.
  destruct (keys_resolve_reachable exts s Hs key src Hkey Hsrc) as [f Hf].
  exists f. split; [done|].
  unfold ImageSource.get_file. by rewrite Hf.
Qed.

Lemma run_pair {A} (m : M A) s : m s = (returns m s, exec m s).
Proof. unfold returns, exec. by destruct (m s). Qed.

Lemma py_index_in_bounds {A} (l : list A) i :
  0 <= i <= Z.of_nat (length l) - 1 ->
  exists x, py_index l i = Ok x /\ x ∈ l.
Proof.
  intros Hi. unfold py_index.
  replace (i <? 0) with false by lia.
  replace ((0 <=? i) && (i <? Z.of_nat (length l))) with true by lia.
  destruct (lookup_lt_is_Some_2 l (Z.to_nat i)) as [x Hx]; [lia|].
  rewrite Hx. exists x. split; [done|]. by eapply list_elem_of_lookup_2.
Qed.

Lemma load_loop_returns key l :
  forall off s,
    (forall j src, l !! j = Some (Some src) ->
       exists path, ImageSource.get_file src key = Ok path) ->
    (off + length l <= length (image_views s))%nat ->
    returns (for_each (imap (fun j => pair (off + j)%nat) l) (load_body key)) s
    = Ok tt.
Proof.
  induction l as [|x l IH]; intros off s Hfiles Hlen; [done|].
  assert (imap (fun j => pair (off + j)%nat) (x :: l) =
          (off, x) :: imap (fun j => pair (S off + j)%nat) l) as ->.
  { cbn [imap]. rewrite Nat.add_0_r. f_equal.
    apply imap_ext. intros j y _. simpl. f_equal. lia. }
  cbn [for_each]. simpl in Hlen.
  assert (forall s', length (image_views s') = length (image_views s) ->
            returns (for_each (imap (fun j => pair (S off + j)%nat) l)
                              (load_body key)) s' = Ok tt) as Hrest.
  { intros s' Hs'. apply IH; [|lia].
    intros j src Hj. by apply (Hfiles (S j)). }
  destruct x as [src|].
  - destruct (Hfiles 0%nat src) as [path Hpath]; [done|].
    change (load_body key (off, Some src))
      with (path ← lift (ImageSource.get_file src key); load_view off path).
    rewrite Hpath. rewrite returns_bind.
    unfold mbind at 1, M_bind, lift. simpl. rewrite load_view_run.
    rewrite decide_True by lia. apply Hrest. simpl.
    by rewrite length_insert.
  - rewrite returns_bind. simpl. by apply Hrest.
Qed.

Lemma load_images_returns_ok s :
  panes_ok s -> key_index_in_bounds s -> returns load_images s = Ok tt.
Proof.
  intros (Hsources & Hviews & _ & Hkeys) Hck.
  unfold load_images. rewrite returns_bind. simpl.
  change (for_each (image_views s) _) with (for_each (image_views s) cancel_body).
  assert (returns (for_each (image_views s) cancel_body) s = Ok tt) as Hret.
  { apply for_each_returns. intros view s'. unfold returns.
    by rewrite cancel_body_run. }
  assert (let s2 := exec (for_each (image_views s) cancel_body) s in
          key_list s2 = key_list s /\ current_key s2 = current_key s /\
          image_sources s2 = image_sources s /\
          image_views s2 = image_views s) as Hs2.
  { apply (preserves_for_each
             (I := fun s2 => key_list s2 = key_list s /\
                             current_key s2 = current_key s /\
                             image_sources s2 = image_sources s /\
                             image_views s2 = image_views s)); [|done].
    intros [v|]; [|apply preserves_ret]. simpl.
    destruct (ImageView.image v); [apply preserves_ret|].
    by intros s' (? & ? & ? & ?). }
  rewrite returns_bind, run_pair, Hret.
  set (s2 := exec (for_each (image_views s) cancel_body) s) in *.
  simpl in Hs2. destruct Hs2 as (Ek & Ec & Es & Ev). clearbody s2.
  rewrite returns_bind. simpl. rewrite Ec.
  unfold key_index_in_bounds in Hck.
  destruct (current_key s) as [ck|]; [|done].
  rewrite <- Ek in Hck.
  destruct (py_index_in_bounds (key_list s2) ck Hck) as (key & Hkey & Hin).
  rewrite returns_bind, Hkey. simpl.
  rewrite returns_bind, run_pair.
  change (for_each (imap pair (image_sources s2)) _)
    with (for_each (imap (fun j => pair (0 + j)%nat) (image_sources s2))
                   (load_body key)).
  rewrite load_loop_returns; [done| |simpl; rewrite Es, Ev; lia].
  intros j src Hj. rewrite Ek in Hin. rewrite Es in Hj.
  destruct (Hkeys key src Hin (list_elem_of_lookup_2 _ _ _ Hj)) as [f Hf].
  unfold ImageSource.get_file. rewrite Hf. by eexists.
Qed.

Lemma panes_ok_reachable exts s : reachable exts s -> panes_ok s.
Proof.
  intros Hs. split; [by eapply sources_length_reachable|].
  split; [by eapply views_length_reachable|].
  split; [by eapply views_have_sources_reachable|].
  by eapply keys_resolve_reachable.
Qed.

(** X24: In a reachable state whose key index is within the key list,
    [load_images] returns: the key exists, every source has a file for it,
    and every pane has a slot. *)
Theorem load_images_returns exts s :
  reachable exts s -> key_index_in_bounds s ->
  returns load_images s = Ok tt.
Proof.
  intros Hs. apply load_images_returns_ok. by eapply panes_ok_reachable.
Qed.

Lemma listed_keys_resolve_witness :
  exists f,
    ImageSource.files example_source_a !! "img00001" = Some f /\
    ImageSource.get_file example_source_a "img00001"
    = Ok (path_join (ImageSource.path example_source_a) f).
Proof.
  apply (listed_keys_resolve example_extensions example_half_decoded).
  - apply reachable_run, example_initial_reachable.
  - vm_compute. left.
  - apply (list_elem_of_lookup_2 _ 0%nat). vm_compute. reflexivity.
Defined.

Lemma load_images_returns_witness :
  returns load_images example_half_decoded = Ok tt.
Proof.
  apply (load_images_returns example_extensions).
  - apply reachable_run, example_initial_reachable.
  - vm_compute. split; discriminate.
Defined.

(** ** A key is selected whenever the key list is not empty *)

Lemma update_key_list_key_selected indices :
  preserves key_selected (update_key_list indices).
Proof.
  intros s Hs. destruct (available_sources s) as [|src srcs] eqn:Hsrc.
  - unfold update_key_list. erewrite exec_bind_ok by reflexivity.
    rewrite Hsrc. by erewrite exec_bind_raise by reflexivity.
  - rewrite (update_key_list_exec _ _ _ _ Hsrc).
    unfold clamp_current_key, key_selected. simpl.
    destruct (sorted_keys _); [done|]. by destruct (current_key s).
Qed.

Lemma load_images_key_selected : preserves key_selected load_images.
Proof. apply load_images_preserves; intros; frame_atom. Qed.

Lemma show_key_selected cells : preserves key_selected (show cells).
Proof. apply show_preserves; intros; frame_atom. Qed.

Lemma key_selected_reachable exts s : reachable exts s -> key_selected s.
Proof.
  assert (forall k, preserves key_selected (modify (set_current_key (Some k))))
    as Hsome by (by intros k s' _).
  intros Hs. induction Hs as [savestate fs canvas s E|s e _ IH].
  - replace s with (exec (init exts savestate fs) (initial canvas))
      by (unfold exec; by rewrite E).
    assert (key_selected (initial canvas)) as H0 by done.
    revert H0. generalize (initial canvas).
    change (preserves key_selected (init exts savestate fs)).
    unfold init, load_savestate, restore_key_index.
    pres; first [ apply Hsome | frame_atom | apply update_key_list_key_selected
                | apply load_images_key_selected | apply show_key_selected ].
  - revert s IH. change (preserves key_selected (handle exts e)).
    destruct e; simpl.
    + case_decide; [|apply preserves_ret]. unfold menu_change_view.
      pres; first [ frame_atom | apply update_key_list_key_selected
                  | apply load_images_key_selected | apply show_key_selected ].
    + unfold menu_go_to_key.
      pres; first [ apply Hsome | apply load_images_key_selected
                  | apply show_key_selected ].
    + assert (preserves key_selected
                (menu_enter_prefix_length exts result fs)).
      { unfold menu_enter_prefix_length.
        pres; first [ frame_atom | apply update_key_list_key_selected
                    | apply load_images_key_selected
                    | apply show_key_selected ]. }
      destruct result; [|done]. by destruct (_ && _); [|apply preserves_ret].
    + pres. apply menu_set_gt_preserves; intros; frame_atom.
    + unfold next_image.
      pres; first [ apply Hsome | apply load_images_key_selected
                  | apply show_key_selected ].
    + unfold prev_image.
      pres; first [ apply Hsome | apply load_images_key_selected
                  | apply show_key_selected ].
    + apply on_zoom_preserves; intros; frame_atom.
    + by intros ? ?.
    + apply do_drag_preserves; intros; frame_atom.
    + apply stop_drag_preserves; intros; frame_atom.
    + by intros ? ?.
    + apply show_key_selected.
    + apply image_loaded_preserves; intros; frame_atom.
    + frame_atom.
    + frame_atom.
    + frame_atom.
    + frame_atom.
Qed.

(** ** No view waits for a cancelled task *)

Section Alive.

Variables (P : Prop) (ks : list string) (k : option Z).

Lemma on_view_alive {A} i
    (method : ImageView.t -> list Future -> outcome (ImageView.t * A)) :
  (forall pool v v' a,
     method v pool = Ok (v', a) -> ImageView.future v' = ImageView.future v) ->
  preserves (keeps_alive P ks k) (on_view i method).
Proof.
  intros Hm s (Hks & Hk & Hs). unfold exec.
  destruct (on_view_cases i method s)
    as [[e ->]|(p & v & v' & a & _ & Hp & Hmv & ->)]; simpl; [done|].
  split; [done|]. split; [done|]. intros HP j w f. simpl.
  destruct (decide (j = p)) as [->|Hne].
  - rewrite list_lookup_insert_eq by by eapply lookup_lt_Some.
    intros [= <-]. rewrite (Hm _ _ _ _ Hmv). by eapply Hs.
  - rewrite list_lookup_insert_ne by done. by apply Hs.
Qed.

Lemma pane_get_image_alive i : preserves (keeps_alive P ks k) (pane_get_image i).
Proof.
  apply on_view_alive. intros pool v v' a Hg.
  by apply get_image_cases in Hg as (_ & ? & _).
Qed.

Lemma pane_set_gt_alive i : preserves (keeps_alive P ks k) (pane_set_gt i).
Proof. apply on_view_alive. by intros pool v v' a [= <- _]. Qed.

Lemma pane_calculate_psnr_alive i gt :
  preserves (keeps_alive P ks k) (pane_calculate_psnr i gt).
Proof.
  apply on_view_alive. intros pool v v' a Hc.
  destruct (ImageView.calculate_psnr v gt) as [w|] eqn:Hw; [|done].
  injection Hc as <- _. by apply calculate_psnr_cases in Hw as (_ & ? & _).
Qed.

Lemma set_future_state_alive fid st s :
  st <> CANCELLED ->
  keeps_alive P ks k s -> keeps_alive P ks k (set_future_state fid st s).
Proof.
  intros Hst (Hks & Hk & Hs). split; [done|]. split; [done|].
  intros HP j w f Hj. simpl.
  destruct (decide (fid = ImageView.future w)) as [->|Hne].
  - rewrite list_lookup_alter_eq.
    destruct (futures s !! ImageView.future w); [|done].
    by intros [= <-].
  - rewrite list_lookup_alter_ne by done. by eapply Hs.
Qed.

Lemma worker_start_alive fid : preserves (keeps_alive P ks k) (worker_start fid).
Proof.
  intros s Hs. unfold worker_start. run_m.
  destruct (futures s !! fid) as [h|]; simpl; [|done].
  destruct (state h); simpl; try done. by apply set_future_state_alive.
Qed.

Lemma worker_decoded_alive fid bytes :
  preserves (keeps_alive P ks k) (worker_decoded fid bytes).
Proof.
  intros s Hs. unfold worker_decoded. run_m.
  destruct (futures s !! fid) as [h|]; simpl; [|done].
  destruct (state h) as [|[]| |]; simpl; try done.
  by apply (set_future_state_alive fid
              (RUNNING (Some {| filename := task_path h;
                                tobytes := bytes |})) s).
Qed.

Lemma worker_failed_alive fid : preserves (keeps_alive P ks k) (worker_failed fid).
Proof.
  intros s Hs. unfold worker_failed. run_m.
  destruct (futures s !! fid) as [h|]; simpl; [|done].
  destruct (state h) as [|[]| |]; simpl; try done.
  by apply set_future_state_alive.
Qed.

Lemma worker_return_alive fid : preserves (keeps_alive P ks k) (worker_return fid).
Proof.
  intros s Hs. unfold worker_return. run_m.
  destruct (futures s !! fid) as [h|]; simpl; [|done].
  destruct (state h) as [|[]| |]; simpl; try done.
  by apply set_future_state_alive.
Qed.

Lemma show_alive cells : preserves (keeps_alive P ks k) (show cells).
Proof.
  apply show_preserves; intros; first [apply pane_get_image_alive | frame_atom].
Qed.

End Alive.

Ltac alive_atom :=
  first [ apply pane_get_image_alive | apply pane_set_gt_alive
        | apply pane_calculate_psnr_alive | apply worker_start_alive
        | apply worker_decoded_alive | apply worker_failed_alive
        | apply worker_return_alive | frame_atom ].

(** An operation that keeps the key list, the key index and the views alive
    keeps [views_alive]. *)
Lemma views_alive_kept {A} (m : M A) s :
  (forall P ks k, preserves (keeps_alive P ks k) m) ->
  views_alive s -> views_alive (exec m s).
Proof.
  intros Hm Hs.
  destruct (Hm (key_index_in_bounds s) (key_list s) (current_key s) s)
    as (Hks & Hk & HN); [done|].
  intros Hb. apply HN. unfold key_index_in_bounds in *. by rewrite <- Hks, <- Hk.
Qed.

Lemma load_images_panes_ok : preserves panes_ok load_images.
Proof.
  intros s (Hsources & Hviews & Hhave & Hkeys).
  split; [|split; [|split]].
  - clear Hviews Hhave Hkeys. revert s Hsources.
    apply (load_images_preserves
             (I := fun s => length (image_sources s) = 4%nat));
      intros; frame_atom.
  - clear Hsources Hhave Hkeys. revert s Hviews.
    apply (load_images_preserves
             (I := fun s => length (image_views s) = 4%nat));
      intros; try frame_atom.
    intros s _ Hs. unfold exec. rewrite load_view_run.
    case_decide; simpl; [by rewrite length_insert|done].
  - clear Hsources Hviews Hkeys. revert s Hhave.
    apply load_images_preserves; intros;
      try first [ apply load_view_have_sources | frame_atom ].
    intros s _. by intros [|[|[|[|]]]].
  - by apply load_images_keys_resolve.
Qed.

Lemma load_images_sources : forall srcs,
  preserves (fun s => image_sources s = srcs) load_images.
Proof. intros srcs. apply load_images_preserves; intros; frame_atom. Qed.

(** After [load_images] has returned, every view is new. *)
Lemma load_images_all_new s :
  views_have_sources s -> returns load_images s = Ok tt ->
  no_cancelled_view (exec load_images s).
Proof.
  intros Hhave Hret i v f Hv Hf.
  destruct (current_key s) as [ck|] eqn:Hck.
  - destruct (load_images_current_key_views s ck Hck Hret)
      as (_ & key & _ & Hviews).
    assert (views_have_sources (exec load_images s)) as Hhave'.
    { clear Hret Hv Hf Hck Hviews. revert s Hhave.
      apply load_images_preserves; intros;
        try first [ apply load_view_have_sources | frame_atom ].
      intros s _. by intros [|[|[|[|]]]]. }
    destruct (Hhave' i v Hv) as [src Hsrc].
    rewrite (load_images_sources (image_sources s) s eq_refl) in Hsrc.
    destruct (Hviews i src Hsrc) as (path & fid & _ & Hv' & Hfid).
    rewrite Hv in Hv'. injection Hv' as ->. simpl in Hf.
    rewrite Hfid in Hf. by injection Hf as <-.
  - destruct (load_images_no_key_views s Hck) as (_ & Hnone & _).
    rewrite Hnone in Hv. by destruct i as [|[|[|[|]]]].
Qed.

Lemma redraw_alive P ks k :
  preserves (keeps_alive P ks k) (show all_cells;; save_settings).
Proof. pres. apply show_alive. Qed.

(** Loading and redrawing leave no view waiting for a cancelled task,
    provided the key index is within the key list. *)
Lemma load_show_alive s :
  panes_ok s ->
  views_alive (exec (load_images;; show all_cells;; save_settings) s).
Proof.
  intros Hok Hb.
  destruct (load_show_keep_keys (key_list s) (current_key s) s) as [Hks Hk];
    [done|].
  assert (key_index_in_bounds s) as Hb0.
  { unfold key_index_in_bounds in *. by rewrite <- Hks, <- Hk. }
  pose proof (load_images_returns_ok s Hok Hb0) as Hret.
  erewrite exec_bind_ok by (rewrite run_pair, Hret; reflexivity).
  set (s1 := exec load_images s).
  apply (redraw_alive True (key_list s1) (current_key s1) s1); [|done].
  split; [done|]. split; [done|]. intros _.
  apply load_images_all_new; [apply Hok|done].
Qed.

Lemma load_images_alive s : panes_ok s -> views_alive (exec load_images s).
Proof.
  intros Hok Hb.
  assert (key_list (exec load_images s) = key_list s /\
          current_key (exec load_images s) = current_key s) as [Hks Hk].
  { apply (load_images_preserves
             (I := fun s' => key_list s' = key_list s /\
                             current_key s' = current_key s));
      intros; try frame_atom. done. }
  apply load_images_all_new; [apply Hok|].
  apply load_images_returns_ok; [done|].
  unfold key_index_in_bounds in *. by rewrite <- Hks, <- Hk.
Qed.

(** An operation that ends in [I1], followed by operations that lead from
    [I1] to [I2]. *)
Lemma lead_bind {A B} (I1 I2 : App -> Prop) (m : M A) (k : A -> M B) s :
  (forall s', I1 s' -> I2 s') ->
  I1 (exec m s) ->
  (forall a s', I1 s' -> I2 (exec (k a) s')) ->
  I2 (exec (m ≫= k) s).
Proof.
  intros H12 Hm Hk. rewrite exec_bind. unfold exec in Hm.
  destruct (m s) as [[a|e] s']; simpl in *; auto.
Qed.

Lemma no_views_alive s :
  image_views s = [None; None; None; None] -> views_alive s.
Proof. intros E _ i v f Hv. rewrite E in Hv. by destruct i as [|[|[|[|]]]]. Qed.

Lemma no_views_have_sources s :
  image_views s = [None; None; None; None] -> views_have_sources s.
Proof. intros E i v Hv. rewrite E in Hv. by destruct i as [|[|[|[|]]]]. Qed.

Lemma init_alive exts savestate fs canvas :
  views_alive (exec (init exts savestate fs) (initial canvas)).
Proof.
  set (W0 := fun s : App =>
    length (image_sources s) = 4%nat /\
    image_views s = [None; None; None; None] /\ key_list s = []).
  set (W1 := fun s : App =>
    length (image_sources s) = 4%nat /\
    image_views s = [None; None; None; None] /\ keys_resolve s).
  assert (forall s, W0 s -> views_alive s) as H0
    by (intros s (_ & E & _); by apply no_views_alive).
  assert (forall s, W1 s -> views_alive s) as H1
    by (intros s (_ & E & _); by apply no_views_alive).
  assert (W0 (initial canvas)) as Hinit by done.
  revert Hinit. generalize (initial canvas). intros s Hs.
  unfold init.
  apply establish_bind;
    [|intros _ s'; apply views_alive_kept; intros; apply show_alive].
  unfold load_savestate.
  destruct savestate as [settings|]; [|by apply H0].
  destruct (Settings.sources settings) as [paths|]; [|by apply H0].
  apply (switch_bind W0 views_alive); [done|pres; frame_atom| |done].
  clear s Hs. intros _ s Hs.
  apply (switch_bind W0 views_alive); [done| |  |done].
  { pres; try frame_atom.
    intros s' (Hlen & Hv & Hk). unfold exec. rewrite assign_source_run.
    case_decide; [|done]. unfold W0. simpl.
    by rewrite length_insert. }
  clear s Hs. intros _ s Hs.
  rewrite exec_bind. simpl. rewrite exec_bind. unfold lift.
  destruct (configured_panes (image_sources s)) as [indices|e]; simpl;
    [|by apply H0].
  apply (lead_bind W1 views_alive); [done| |].
  { destruct Hs as (Hlen & Hv & _).
    split; [|split; [|apply update_key_list_keys_resolve]].
    - clear Hv. revert s Hlen.
      apply (update_key_list_preserves
               (I := fun s => length (image_sources s) = 4%nat));
        intros; frame_atom.
    - clear Hlen. revert s Hv.
      apply (update_key_list_preserves
               (I := fun s => image_views s = [None; None; None; None]));
        intros; frame_atom. }
  clear s Hs. intros _ s Hs.
  apply (switch_bind W1 views_alive); [done| | |done].
  { unfold restore_key_index. pres; frame_atom. }
  clear s Hs. intros _ s Hs.
  apply (switch_bind W1 views_alive); [done|pres; frame_atom| |done].
  clear s Hs. intros _ s (Hlen & Hv & Hkeys).
  apply load_images_alive. split; [done|]. split; [by rewrite Hv|].
  split; [by apply no_views_have_sources|done].
Qed.

Lemma update_key_list_returns indices s src srcs :
  available_sources s = src :: srcs ->
  (forall index, index ∈ indices ->
     exists x, image_sources s !! index = Some (Some x)) ->
  returns (update_key_list indices) s = Ok tt.
Proof.
  intros Hsrc Hall. unfold update_key_list.
  erewrite returns_bind_okk by reflexivity. rewrite Hsrc. cbn [fmap list_fmap].
  erewrite returns_bind_okk by reflexivity.
  erewrite returns_bind_okk by reflexivity.
  erewrite returns_bind_okk by reflexivity.
  match goal with |- returns _ ?s1 = _ =>
    assert (image_sources s1 = image_sources s) as Es
      by (unfold clamp_current_key; simpl; by repeat case_match);
    generalize dependent s1
  end.
  intros s1 Es. rewrite <- Es in Hall. clear Es Hsrc.
  induction indices as [|index indices IH]; [done|].
  cbn [for_each]. destruct (Hall index) as [x Hx]; [left|].
  assert (py_index (image_sources s1) (Z.of_nat index) = Ok (Some x)) as Hi.
  { unfold py_index. pose proof (lookup_lt_Some _ _ _ Hx).
    replace (Z.of_nat index <? 0) with false by lia.
    replace ((0 <=? Z.of_nat index) &&
             (Z.of_nat index <? Z.of_nat (length (image_sources s1))))
      with true by lia.
    by rewrite Nat2Z.id, Hx. }
  erewrite returns_bind_okk
    by (erewrite (surjective_pairing (_ s1)); unfold mbind, M_bind, get, lift;
        simpl; rewrite Hi; reflexivity).
  apply IH. intros i Hin. apply Hall. by right.
Qed.

Lemma update_key_list_panes_ok indices s :
  length (image_sources s) = 4%nat -> length (image_views s) = 4%nat ->
  views_have_sources s -> panes_ok (exec (update_key_list indices) s).
Proof.
  intros Hsources Hviews Hhave.
  split; [|split; [|split; [|apply update_key_list_keys_resolve]]].
  - revert s Hsources Hviews Hhave. intros s Hs _ _. revert s Hs.
    apply (update_key_list_preserves
             (I := fun s => length (image_sources s) = 4%nat));
      intros; frame_atom.
  - clear Hsources Hhave. revert s Hviews.
    apply (update_key_list_preserves
             (I := fun s => length (image_views s) = 4%nat));
      intros; frame_atom.
  - clear Hsources Hviews. revert s Hhave.
    apply update_key_list_preserves; intros; frame_atom.
Qed.

Lemma update_load_alive indices s :
  length (image_sources s) = 4%nat -> length (image_views s) = 4%nat ->
  views_have_sources s -> views_alive s ->
  (forall index, index ∈ indices ->
     exists x, image_sources s !! index = Some (Some x)) ->
  views_alive (exec (update_key_list indices;; load_images;;
                     show all_cells;; save_settings) s).
Proof.
  intros Hsources Hviews Hhave Halive Hall.
  destruct (available_sources s) as [|src srcs] eqn:Hsrc.
  - assert (update_key_list indices s = (Raise TypeError, s)) as E.
    { unfold update_key_list, mbind, M_bind, get, lift. simpl.
      by rewrite Hsrc. }
    by rewrite exec_bind, E.
  - pose proof (update_key_list_returns indices s src srcs Hsrc Hall) as Hret.
    erewrite exec_bind_ok by (rewrite run_pair, Hret; reflexivity).
    apply load_show_alive. by apply update_key_list_panes_ok.
Qed.

Lemma configured_panes_lookup (sources : list (option ImageSource.t))
    indices index :
  length sources = 4%nat ->
  configured_panes sources = Ok indices -> index ∈ indices ->
  exists x, sources !! index = Some (Some x).
Proof.
  destruct sources as [|a [|b [|c [|d [|]]]]]; try done. intros _.
  unfold configured_panes. cbn. intros [= <-].
  destruct a, b, c, d; cbn; intros Hin;
    repeat (apply elem_of_cons in Hin as [->|Hin]; [by eexists|]);
    by apply elem_of_nil in Hin.
Qed.

Lemma handle_alive exts e s :
  panes_ok s -> views_alive s -> views_alive (exec (handle exts e) s).
Proof.
  intros Hok Halive.
  assert (forall k,
            views_alive
              (exec (modify (set_current_key (Some k));; load_images;;
                     show all_cells;; save_settings) s)) as Hnav.
  { intros k. erewrite exec_bind_ok by reflexivity.
    by apply load_show_alive. }
  destruct Hok as (Hsources & Hviews & Hhave & Hkeys).
  destruct e; simpl.
  - case_decide; [|done]. unfold menu_change_view.
    destruct (String.eqb path ""); [done|].
    rewrite exec_bind. simpl. rewrite exec_bind. unfold lift.
    destruct (ImageSource.init exts fs path (prefix_length s)) as [source|e];
      simpl; [|done].
    rewrite exec_bind, assign_source_run.
    rewrite decide_True by lia.
    rewrite exec_bind. simpl. rewrite exec_bind. simpl.
    rewrite exec_bind.
    match goal with |- context [(if ?c then _ else _) ?s1] =>
      assert (exists g, (if c then modify (set_gt_index None) else mret tt) s1
                        = (Ok tt, set_gt_index g s1)) as [g ->]
        by (destruct c; [by exists None|by exists (gt_index s1)])
    end.
    apply update_load_alive; simpl.
    + by rewrite length_insert.
    + done.
    + intros j w Hj. simpl in *. destruct (decide (j = index)) as [->|Hne].
      * exists source. by rewrite list_lookup_insert_eq by lia.
      * rewrite list_lookup_insert_ne by done. by eapply Hhave.
    + done.
    + intros j [->|Hin%elem_of_nil]%elem_of_cons; [|done].
      exists source. by rewrite list_lookup_insert_eq by lia.
  - rewrite exec_bind. simpl. case_decide; [|done]. apply Hnav.
  - destruct result as [n|]; [|done].
    destruct (_ && _); [|done].
    unfold menu_enter_prefix_length.
    rewrite exec_bind. simpl. rewrite exec_bind.
    rewrite rebuild_sources_run. simpl.
    destruct (mapM (rebuild_source exts fs n) (image_sources s))
      as [sources|e] eqn:Hmap; [|done].
    pose proof (mapM_outcome_length _ _ _ Hmap) as Hlen.
    destruct (configured_panes_four sources) as [indices Hi]; [congruence|].
    rewrite exec_bind, Hi. simpl.
    apply update_load_alive; simpl.
    + congruence.
    + done.
    + intros j w Hj. simpl in *. destruct (Hhave j w Hj) as [src Hsrc].
      destruct (mapM_outcome_lookup _ _ _ _ _ Hmap Hsrc) as (y & Hy & Hlook).
      unfold rebuild_source, mbind, outcome_bind, mret, outcome_ret in Hy.
      destruct (ImageSource.init _ _ _ _) as [src'|]; simplify_eq/=. eauto.
    + done.
    + intros j Hj. eapply configured_panes_lookup; [|done..]. congruence.
  - apply views_alive_kept; [|done]. intros.
    pres. apply menu_set_gt_preserves; intros; alive_atom.
  - unfold next_image. rewrite exec_bind. simpl.
    destruct (current_key s) as [ck|]; [|done].
    destruct (_ =? 0); [done|]. apply Hnav.
  - unfold prev_image. rewrite exec_bind. simpl.
    destruct (current_key s) as [ck|]; [|done].
    destruct (_ =? 0); [done|]. apply Hnav.
  - apply views_alive_kept; [|done]. intros.
    apply on_zoom_preserves; intros; alive_atom.
  - done.
  - apply views_alive_kept; [|done]. intros.
    apply do_drag_preserves; intros; alive_atom.
  - apply views_alive_kept; [|done]. intros.
    apply stop_drag_preserves; intros; alive_atom.
  - done.
  - apply views_alive_kept; [|done]. intros. apply show_alive.
  - apply views_alive_kept; [|done]. intros.
    apply image_loaded_preserves; intros; alive_atom.
  - apply views_alive_kept; [|done]. intros. apply worker_start_alive.
  - apply views_alive_kept; [|done]. intros. apply worker_decoded_alive.
  - apply views_alive_kept; [|done]. intros. apply worker_failed_alive.
  - apply views_alive_kept; [|done]. intros. apply worker_return_alive.
Qed.

Lemma views_alive_reachable exts s : reachable exts s -> views_alive s.
Proof.
  intros Hs. induction Hs as [savestate fs canvas s E|s e Hs IH].
  - replace s with (exec (init exts savestate fs) (initial canvas))
      by (unfold exec; by rewrite E).
    apply init_alive.
  - apply handle_alive; [by eapply panes_ok_reachable|done].
Qed.

(** ** Redrawing and navigating without exceptions *)

Lemma py_index_nat {A} (l : list A) i x :
  l !! i = Some x -> py_index l (Z.of_nat i) = Ok x.
Proof.
  intros Hx. unfold py_index. pose proof (lookup_lt_Some _ _ _ Hx).
  replace (Z.of_nat i <? 0) with false by lia.
  replace ((0 <=? Z.of_nat i) && (Z.of_nat i <? Z.of_nat (length l)))
    with true by lia.
  by rewrite Nat2Z.id, Hx.
Qed.

Lemma get_image_alive_ok v f :
  state f <> CANCELLED -> exists v' r, ImageView.get_image v f = Ok (v', r).
Proof.
  intros Hf. unfold ImageView.get_image, future_done, future_result.
  destruct (ImageView.image v); [by eexists _, _|].
  destruct (state f); try done; by eexists _, _.
Qed.

Lemma show_cell_returns i s :
  drawable s -> (i < 4)%nat ->
  returns (show_cell i) s = Ok tt /\ drawable (exec (show_cell i) s).
Proof.
  intros (Hsources & Hviews & Hhave & Halive & Hsel) Hi.
  destruct (lookup_lt_is_Some_2 (image_views s) i) as [view Hview]; [lia|].
  unfold show_cell, get_view.
  assert ((s0 ← get; lift (py_index (image_views s0) (Z.of_nat i))) s
          = (Ok view, s)) as E.
  { unfold mbind, M_bind, get, lift. simpl.
    by rewrite (py_index_nat _ _ _ Hview). }
  erewrite returns_bind_okk, exec_bind_ok by exact E.
  destruct view as [v|]; [|done].
  destruct (Hhave i v Hview) as [src Hsrc].
  assert (state (future_of (futures s) (ImageView.future v)) <> CANCELLED)
    as Hf.
  { unfold future_of.
    destruct (futures s !! ImageView.future v) as [f|] eqn:Ef; [|done].
    simpl. by eapply Halive. }
  destruct (get_image_alive_ok v _ Hf) as (v' & r & Hget).
  assert (pane_get_image (Z.of_nat i) s
          = (Ok r, set_image_views (<[i := Some v']> (image_views s)) s))
    as Hpane.
  { unfold pane_get_image, on_view, mbind, M_bind, get, lift, modify. simpl.
    rewrite py_pos_nat by lia. simpl. rewrite Hview, Hget. done. }
  erewrite returns_bind_okk, exec_bind_ok by exact Hpane.
  erewrite returns_bind_okk, exec_bind_ok by reflexivity.
  simpl. rewrite (py_index_nat _ _ _ Hsrc).
  split; [done|].
  change (drawable (set_image_views (<[i := Some v']> (image_views s)) s)).
  split; [done|]. split; [simpl; by rewrite length_insert|].
  apply get_image_cases in Hget as (_ & Hfut & _).
  split; [|split; [|done]].
  - intros j w. simpl. destruct (decide (j = i)) as [->|Hne].
    + intros _. eauto.
    + rewrite list_lookup_insert_ne by done. apply Hhave.
  - intros j w f. simpl. destruct (decide (j = i)) as [->|Hne].
    + rewrite list_lookup_insert_eq by lia. intros [= <-].
      rewrite Hfut. by eapply Halive.
    + rewrite list_lookup_insert_ne by done. by apply Halive.
Qed.

Lemma show_cells_return cells s :
  drawable s -> Forall (fun i => i < 4)%nat cells ->
  returns (for_each cells show_cell) s = Ok tt /\
  drawable (exec (for_each cells show_cell) s).
Proof.
  intros Hs Hcells. revert s Hs.
  induction Hcells as [|i cells Hi _ IH]; intros s Hs; [done|].
  cbn [for_each].
  destruct (show_cell_returns i s Hs Hi) as [Hret Hs'].
  erewrite returns_bind_okk, exec_bind_ok by (rewrite run_pair, Hret; reflexivity).
  by apply IH.
Qed.

Lemma show_returns_ok cells s :
  drawable s -> Forall (fun i => i < 4)%nat cells ->
  returns (show cells) s = Ok tt /\ drawable (exec (show cells) s).
Proof.
  intros Hs Hcells. unfold show.
  rewrite returns_bind, exec_bind. simpl.
  destruct (current_cell_size s) as [cell_w cell_h].
  destruct (_ || _); [done|].
  change (for_each cells _) with (for_each cells show_cell).
  destruct (show_cells_return cells s Hs Hcells) as [Hret Hs'].
  erewrite returns_bind_okk, exec_bind_ok by (rewrite run_pair, Hret; reflexivity).
  rewrite returns_bind, exec_bind. simpl.
  set (s' := exec (for_each cells show_cell) s) in *.
  pose proof Hs' as (_ & _ & _ & _ & Hsel). unfold key_selected in Hsel.
  destruct (key_list s') as [|key keys], (current_key s') as [ck|];
    first [ by specialize (Hsel eq_refl) | split; [done|exact Hs'] ].
Qed.

Lemma drawable_reachable exts s :
  reachable exts s -> key_index_in_bounds s -> drawable s.
Proof.
  intros Hs Hb. destruct (panes_ok_reachable exts s Hs) as (? & ? & ? & _).
  split; [done|]. split; [done|]. split; [done|].
  split; [by apply (views_alive_reachable exts)|].
  by apply (key_selected_reachable exts).
Qed.

(** X25: In a reachable state whose key index is within the key list, a redraw
    of any panes returns: every slot, source and title it reads is there,
    and no view it polls waits for a cancelled task. *)
Theorem show_returns exts s cells :
  reachable exts s -> key_index_in_bounds s ->
  Forall (fun i => i < 4)%nat cells ->
  returns (show cells) s = Ok tt.
Proof.
  intros Hs Hb Hcells.
  by apply show_returns_ok; [eapply drawable_reachable|].
Qed.

Lemma show_returns_witness :
  returns (show all_cells) example_half_decoded = Ok tt.
Proof.
  apply (show_returns example_extensions).
  - apply reachable_run, example_initial_reachable.
  - vm_compute. split; discriminate.
  - repeat constructor.
Defined.

Lemma select_key_returns s k :
  panes_ok s -> 0 <= k <= Z.of_nat (length (key_list s)) - 1 ->
  returns (modify (set_current_key (Some k));; load_images;;
           show all_cells;; save_settings) s = Ok tt.
Proof.
  intros Hok Hk. erewrite returns_bind_okk by reflexivity.
  set (s1 := set_current_key (Some k) s).
  assert (panes_ok s1) as Hok1 by exact Hok.
  assert (key_index_in_bounds s1) as Hb1 by exact Hk.
  pose proof (load_images_returns_ok s1 Hok1 Hb1) as Hret.
  erewrite returns_bind_okk by (rewrite run_pair, Hret; reflexivity).
  assert (drawable (exec load_images s1)) as Hd.
  { destruct (load_images_panes_ok s1 Hok1) as (? & ? & ? & _).
    split; [done|]. split; [done|]. split; [done|].
    split; [apply load_images_all_new; [apply Hok1|done]|].
    by apply load_images_key_selected. }
  destruct (show_returns_ok all_cells _ Hd) as [Hshow _];
    [repeat constructor|].
  by erewrite returns_bind_okk by (rewrite run_pair, Hshow; reflexivity).
Qed.

(** X26: In a reachable state with a key list that is not empty, [next_image],
    [prev_image] and the command of every entry of the images menu return;
    the exceptions of navigation are those of the empty key list. *)
Theorem navigation_returns exts s :
  reachable exts s -> key_list s <> [] ->
  returns next_image s = Ok tt /\ returns prev_image s = Ok tt /\
  forall index, (index < length (key_list s))%nat ->
    returns (menu_go_to_key (Z.of_nat index)) s = Ok tt.
Proof.
  intros Hs Hne.
  pose proof (panes_ok_reachable exts s Hs) as Hok.
  pose proof (key_selected_reachable exts s Hs) as Hsel.
  assert (0 < Z.of_nat (length (key_list s))) as Hlen
    by (destruct (key_list s); [done|simpl; lia]).
  destruct (current_key s) as [ck|] eqn:Hck; [|by specialize (Hsel Hck)].
  split; [|split].
  - unfold next_image. rewrite returns_bind. simpl. rewrite Hck.
    replace (Z.of_nat (length (key_list s)) =? 0) with false by lia.
    apply select_key_returns; [done|].
    pose proof (Z.mod_pos_bound (ck + 1) (Z.of_nat (length (key_list s)))).
    lia.
  - unfold prev_image. rewrite returns_bind. simpl. rewrite Hck.
    replace (Z.of_nat (length (key_list s)) =? 0) with false by lia.
    apply select_key_returns; [done|].
    pose proof (Z.mod_pos_bound (ck + Z.of_nat (length (key_list s)) - 1)
                  (Z.of_nat (length (key_list s)))).
    lia.
  - intros index Hi. unfold menu_go_to_key.
    apply select_key_returns; [done|lia].
Qed.

Lemma navigation_returns_witness :
  returns next_image example_half_decoded = Ok tt /\
  returns prev_image example_half_decoded = Ok tt /\
  forall index, (index < length (key_list example_half_decoded))%nat ->
    returns (menu_go_to_key (Z.of_nat index)) example_half_decoded = Ok tt.
Proof.
  apply (navigation_returns example_extensions).
  - apply reachable_run, example_initial_reachable.
  - vm_compute. discriminate.
Defined.

(** X27: In every reachable state a key is selected unless the key list is
    empty, and while the selected index is within the key list no view
    waits for a cancelled task, so that polling a view never raises
    [CancelledError]. *)
Theorem views_never_wait_for_cancelled exts s :
  reachable exts s ->
  (current_key s = None -> key_list s = []) /\
  (key_index_in_bounds s ->
   forall i v, image_views s !! i = Some (Some v) ->
     exists v' r,
       ImageView.get_image v (future_of (futures s) (ImageView.future v))
       = Ok (v', r)).
Proof.
  intros Hs. split; [by apply (key_selected_reachable exts)|].
  intros Hb i v Hv. apply get_image_alive_ok. unfold future_of.
  destruct (futures s !! ImageView.future v) as [f|] eqn:Ef; [|done].
  simpl. by eapply (views_alive_reachable exts).
Qed.

Lemma views_never_wait_for_cancelled_witness :
  (current_key example_half_decoded = None ->
   key_list example_half_decoded = []) /\
  (key_index_in_bounds example_half_decoded ->
   forall i v, image_views example_half_decoded !! i = Some (Some v) ->
     exists v' r,
       ImageView.get_image v
         (future_of (futures example_half_decoded) (ImageView.future v))
       = Ok (v', r)).
Proof.
  apply (views_never_wait_for_cancelled example_extensions).
  apply reachable_run, example_initial_reachable.
Defined.

(** ** The key list is up to date *)

Lemma update_key_list_keys_current indices s :
  (available_sources s = [] -> key_list s = []) ->
  keys_current (exec (update_key_list indices) s).
Proof.
  intros Hnone. unfold keys_current.
  destruct (available_sources s) as [|src srcs] eqn:Hsrc.
  - assert (exec (update_key_list indices) s = s) as ->.
    { unfold update_key_list. erewrite exec_bind_ok by reflexivity.
      rewrite Hsrc. by erewrite exec_bind_raise by reflexivity. }
    rewrite Hsrc. by apply Hnone.
  - rewrite (update_key_list_exec _ _ _ _ Hsrc).
    assert (forall s0, available_sources (clamp_current_key s0)
                       = available_sources s0 /\
                       key_list (clamp_current_key s0) = key_list s0) as Hc.
    { intros s0. unfold clamp_current_key. by repeat case_match. }
    destruct (Hc (set_key_list (sorted_keys (common_keys src srcs)) s))
      as [-> ->].
    unfold available_sources in *. simpl. by rewrite Hsrc.
Qed.

Lemma keys_current_frame s s' :
  image_sources s' = image_sources s -> key_list s' = key_list s ->
  keys_current s -> keys_current s'.
Proof.
  unfold keys_current, available_sources. by intros -> ->.
Qed.

Lemma redraw_keys_current :
  preserves keys_current (load_images;; show all_cells;; save_settings).
Proof.
  intros s Hs.
  set (m := load_images;; show all_cells;; save_settings).
  assert (image_sources (exec m s) = image_sources s /\
          key_list (exec m s) = key_list s) as [E1 E2].
  { apply (preserves_bind
             (I := fun s' => image_sources s' = image_sources s /\
                             key_list s' = key_list s)); [| |done].
    - apply load_images_preserves; intros; frame_atom.
    - intros _. apply preserves_bind; [|intros _; apply preserves_ret].
      apply show_preserves; intros; frame_atom. }
  by apply (keys_current_frame s).
Qed.

Lemma load_images_keys_current : preserves keys_current load_images.
Proof.
  intros s Hs.
  assert (image_sources (exec load_images s) = image_sources s /\
          key_list (exec load_images s) = key_list s) as [E1 E2].
  { apply (load_images_preserves
             (I := fun s' => image_sources s' = image_sources s /\
                             key_list s' = key_list s));
      intros; try frame_atom. done. }
  by apply (keys_current_frame s).
Qed.

Lemma show_keys_current cells : preserves keys_current (show cells).
Proof. apply show_preserves; intros; frame_atom. Qed.

Lemma rebuild_source_available exts fs n sources sources' :
  mapM (rebuild_source exts fs n) sources = Ok sources' ->
  omap id sources = [] -> omap id sources' = [].
Proof.
  revert sources'. induction sources as [|x l IH]; intros l'; simpl.
  - by intros [= <-].
  - destruct x as [src|]; simpl; [done|].
    destruct (mapM _ l) as [k|]; simpl; [|done].
    intros [= <-] Hl. simpl. by apply IH.
Qed.

Lemma handle_keys_current exts e s :
  length (image_sources s) = 4%nat ->
  keys_current s -> keys_current (exec (handle exts e) s).
Proof.
  intros Hlen Hs.
  assert ((exists index path fs, e = MenuChangeView index path fs) \/
          (exists result fs, e = MenuEnterPrefixLength result fs) \/
          (forall index path fs, e <> MenuChangeView index path fs) /\
          (forall result fs, e <> MenuEnterPrefixLength result fs))
    as [(index & path & fs & ->)|[(result & fs & ->)|[He1 He2]]]
    by (destruct e; eauto 10).
  - simpl. case_decide; [|done]. unfold menu_change_view.
    destruct (String.eqb path ""); [done|].
    rewrite exec_bind. simpl. rewrite exec_bind. unfold lift.
    destruct (ImageSource.init exts fs path (prefix_length s)) as [source|e];
      simpl; [|done].
    rewrite exec_bind, assign_source_run.
    rewrite decide_True by lia.
    rewrite exec_bind. simpl. rewrite exec_bind. simpl.
    rewrite exec_bind.
    match goal with |- context [(if ?c then _ else _) ?s1] =>
      assert (exists g, (if c then modify (set_gt_index None) else mret tt) s1
                        = (Ok tt, set_gt_index g s1)) as [g ->]
        by (destruct c; [by exists None|by exists (gt_index s1)])
    end.
    apply establish_bind; [|intros _; apply redraw_keys_current].
    apply update_key_list_keys_current. unfold available_sources. simpl.
    intros Hnone.
    assert (source ∈ omap id (<[index := Some source]> (image_sources s)))
      as Hin.
    { apply list_elem_of_omap. exists (Some source). split; [|done].
      apply (list_elem_of_lookup_2 _ index).
      by rewrite list_lookup_insert_eq by lia. }
    rewrite Hnone in Hin. by apply elem_of_nil in Hin.
  - simpl. destruct result as [n|]; [|done].
    destruct (_ && _); [|done].
    unfold menu_enter_prefix_length.
    rewrite exec_bind. simpl. rewrite exec_bind.
    rewrite rebuild_sources_run. simpl.
    destruct (mapM (rebuild_source exts fs n) (image_sources s))
      as [sources|e] eqn:Hmap; [|done].
    pose proof (mapM_outcome_length _ _ _ Hmap) as Hlen'.
    destruct (configured_panes_four sources) as [indices Hi]; [congruence|].
    rewrite exec_bind, Hi. simpl.
    apply establish_bind; [|intros _; apply redraw_keys_current].
    apply update_key_list_keys_current. unfold available_sources. simpl.
    intros Hnone. unfold keys_current, available_sources in Hs.
    destruct (omap id (image_sources s)) as [|src srcs] eqn:Hold; [done|].
    exfalso. clear Hs.
    assert (exists i, image_sources s !! i = Some (Some src)) as [i Hsrc].
    { assert (src ∈ omap id (image_sources s)) as Hin by (rewrite Hold; left).
      apply list_elem_of_omap in Hin as ([x|] & Hx & [= ->]).
      by apply list_elem_of_lookup_1 in Hx. }
    destruct (mapM_outcome_lookup _ _ _ _ _ Hmap Hsrc) as (y & Hy & Hlook).
    unfold rebuild_source, mbind, outcome_bind, mret, outcome_ret in Hy.
    destruct (ImageSource.init _ _ _ _) as [src'|]; simplify_eq/=.
    assert (src' ∈ omap id sources) as Hin.
    { apply list_elem_of_omap. exists (Some src'). split; [|done].
      by eapply list_elem_of_lookup_2. }
    rewrite Hnone in Hin. by apply elem_of_nil in Hin.
  - clear Hlen. revert s Hs. change (preserves keys_current (handle exts e)).
    destruct e; simpl.
    + by destruct (He1 index path fs).
    + unfold menu_go_to_key.
      pres; first [ frame_atom | apply load_images_keys_current
                  | apply show_keys_current ].
    + by destruct (He2 result fs).
    + pres. apply menu_set_gt_preserves; intros; frame_atom.
    + unfold next_image.
      pres; first [ frame_atom | apply load_images_keys_current
                  | apply show_keys_current ].
    + unfold prev_image.
      pres; first [ frame_atom | apply load_images_keys_current
                  | apply show_keys_current ].
    + apply on_zoom_preserves; intros; frame_atom.
    + by intros ? ?.
    + apply do_drag_preserves; intros; frame_atom.
    + apply stop_drag_preserves; intros; frame_atom.
    + by intros ? ?.
    + apply show_keys_current.
    + apply image_loaded_preserves; intros; frame_atom.
    + frame_atom.
    + frame_atom.
    + frame_atom.
    + frame_atom.
Qed.

Lemma init_keys_current exts savestate fs s :
  key_list s = [] -> available_sources s = [] ->
  returns (init exts savestate fs) s = Ok tt ->
  keys_current (exec (init exts savestate fs) s).
Proof.
  intros Hk Hnone Hret.
  assert (keys_current s) as Hs by (unfold keys_current; by rewrite Hnone).
  unfold init in *.
  apply returns_bind_ok in Hret as ([] & Hret & _ & ->).
  apply show_keys_current.
  unfold load_savestate in *.
  destruct savestate as [settings|]; [|done].
  destruct (Settings.sources settings) as [paths|]; [|done].
  apply returns_bind_ok in Hret as ([] & _ & Hret & ->).
  match type of Hret with returns _ (exec ?m s) = _ =>
    assert (preserves (fun s => key_list s = []) m) as Hpre
      by (pres; frame_atom);
    pose proof (Hpre s Hk) as Hk1; clear Hpre;
    set (s1 := exec m s) in *; clearbody s1
  end.
  clear s Hk Hnone Hs.
  apply returns_bind_ok in Hret as ([] & _ & Hret & ->).
  match type of Hret with returns _ (exec ?m s1) = _ =>
    assert (preserves (fun s => key_list s = []) m) as Hpre
      by (pres; frame_atom);
    pose proof (Hpre s1 Hk1) as Hk2; clear Hpre;
    set (s2 := exec m s1) in *; clearbody s2
  end.
  clear s1 Hk1.
  apply returns_bind_ok in Hret as (s2' & [= <-] & Hret & ->).
  change (exec get s2) with s2 in *.
  apply returns_bind_ok in Hret as (indices & Hind & Hret & ->).
  apply lift_ok in Hind as [_ ->].
  apply establish_bind; [by apply update_key_list_keys_current|].
  intros _. unfold restore_key_index.
  pres; first [ frame_atom | apply load_images_keys_current ].
Qed.

Lemma keys_current_reachable exts s : reachable exts s -> keys_current s.
Proof.
  intros Hs. induction Hs as [savestate fs canvas s E|s e Hs IH].
  - replace s with (exec (init exts savestate fs) (initial canvas))
      by (unfold exec; by rewrite E).
    apply init_keys_current; [done|done|]. unfold returns. by rewrite E.
  - apply handle_keys_current; [by eapply sources_length_reachable|done].
Qed.

(** ** Saving and restoring the settings *)

Lemma restore_source_run exts fs i x s :
  fs "" = None ->
  (forall src, x = Some src ->
     ImageSource.init exts fs (ImageSource.path src) (prefix_length s)
     = Ok src) ->
  (i < length (image_sources s))%nat ->
  restore_source exts fs (i, saved_path x) s =
  (Ok tt, match x with
          | Some src =>
              set_image_sources (<[i := Some src]> (image_sources s)) s
          | None => s
          end).
Proof.
  intros Hempty Hsame Hi. unfold restore_source.
  destruct x as [src|]; simpl; [|by rewrite Hempty].
  specialize (Hsame src eq_refl).
  destruct (fs (ImageSource.path src)) as [d|] eqn:Hd;
    [|by unfold ImageSource.init in Hsame; rewrite Hd in Hsame].
  unfold mbind, M_bind, get, lift. simpl. rewrite Hsame. simpl.
  rewrite assign_source_run. by rewrite decide_True.
Qed.

Lemma restore_sources_run exts fs canvas n a b c d :
  fs "" = None ->
  (forall src, Some src ∈ [a; b; c; d] ->
     ImageSource.init exts fs (ImageSource.path src) n = Ok src) ->
  for_each (imap pair (saved_path <$> [a; b; c; d])) (restore_source exts fs)
           (set_prefix_length n (initial canvas))
  = (Ok tt, set_image_sources [a; b; c; d]
              (set_prefix_length n (initial canvas))).
Proof.
  intros Hempty Hsame.
  cbn [imap fmap list_fmap for_each compose].
  destruct a, b, c, d;
    repeat (unfold mbind at 1, M_bind;
            rewrite restore_source_run;
            [ | done | intros ? [= <-]; simpl; apply Hsame; set_solver
              | simpl; lia ];
            cbv beta iota);
    reflexivity.
Qed.

Lemma bind_ok_run {A B} (m : M A) (k : A -> M B) s a s' :
  m s = (Ok a, s') -> (m ≫= k) s = k a s'.
Proof. intros E. unfold mbind, M_bind. by rewrite E. Qed.

Lemma same_settings_kept s :
  preserves (same_settings s) load_images /\
  forall cells, preserves (same_settings s) (show cells).
Proof.
  split; [|intros cells].
  - apply load_images_preserves; intros; frame_atom.
  - apply show_preserves; intros; frame_atom.
Qed.

(** The state in which [__init__] calls [load_images] when it reads the
    settings saved in [s]. *)
Lemma restore_saved_settings exts fs canvas s src srcs :
  length (image_sources s) = 4%nat ->
  keys_current s -> key_selected s -> key_index_in_bounds s ->
  available_sources s = src :: srcs ->
  fs "" = None ->
  (forall x, Some x ∈ image_sources s ->
     ImageSource.init exts fs (ImageSource.path x) (prefix_length s) = Ok x) ->
  exists s5,
    load_savestate exts (Some (saved_settings s)) fs (initial canvas)
    = load_images s5 /\
    same_settings s s5 /\ image_views s5 = [None; None; None; None].
Proof.
  intros Hlen Hcur Hsel Hb Hsrc Hempty Hsame.
  destruct (image_sources s) as [|a [|b [|c [|d [|]]]]] eqn:Hsources;
    try done. clear Hlen.
  unfold load_savestate, saved_settings. cbn [Settings.sources
    Settings.prefix_length Settings.key_index Settings.gt_index].
  rewrite Hsources.
  erewrite bind_ok_run by reflexivity.
  change (for_each ?l _) with (for_each l (restore_source exts fs)).
  erewrite bind_ok_run by (by apply restore_sources_run).
  set (s2 := set_image_sources [a; b; c; d]
               (set_prefix_length (prefix_length s) (initial canvas))).
  erewrite bind_ok_run by reflexivity.
  destruct (configured_panes_four (image_sources s2)) as [indices Hi];
    [done|].
  erewrite bind_ok_run by (unfold lift; rewrite Hi; reflexivity).
  assert (available_sources s2 = src :: srcs) as Hsrc2.
  { unfold available_sources in *. rewrite Hsources in Hsrc. exact Hsrc. }
  assert (update_key_list indices s2
          = (Ok tt, clamp_current_key
                      (set_key_list (sorted_keys (common_keys src srcs)) s2)))
    as Hupd.
  { rewrite run_pair, (update_key_list_exec _ _ _ _ Hsrc2).
    rewrite (update_key_list_returns indices s2 src srcs Hsrc2); [done|].
    intros index Hin. by eapply configured_panes_lookup. }
  erewrite bind_ok_run by exact Hupd.
  unfold keys_current in Hcur. rewrite Hsrc in Hcur. rewrite <- Hcur.
  set (s3 := clamp_current_key (set_key_list (key_list s) s2)).
  assert (image_sources s3 = [a; b; c; d] /\ key_list s3 = key_list s /\
          gt_index s3 = None /\ prefix_length s3 = prefix_length s /\
          image_views s3 = [None; None; None; None] /\
          current_key s3 = match key_list s with [] => None | _ => Some 0 end)
    as (E1 & E2 & E3 & E4 & E5 & E6).
  { subst s3. unfold clamp_current_key. simpl. by destruct (key_list s). }
  clearbody s3. clear s2 Hi Hsrc2 Hupd.
  assert (exists s4, restore_key_index (saved_settings s) s3 = (Ok tt, s4) /\
            image_sources s4 = [a; b; c; d] /\ key_list s4 = key_list s /\
            gt_index s4 = None /\ prefix_length s4 = prefix_length s /\
            image_views s4 = [None; None; None; None] /\
            current_key s4 = current_key s) as (s4 & Hres & F1 & F2 & F3 & F4 & F5 & F6).
  { unfold restore_key_index, saved_settings, mbind, M_bind, get. simpl.
    unfold key_index_in_bounds in Hb. unfold key_selected in Hsel.
    destruct (current_key s) as [k|] eqn:Hk.
    - rewrite E2. replace (0 <? Z.of_nat (length (key_list s))) with true by lia.
      eexists. split; [reflexivity|]. simpl.
      repeat split; try done. unfold py_minZ.
      by replace (Z.of_nat (length (key_list s)) <? k) with false by lia.
    - exists s3. split; [done|]. repeat split; try done.
      by rewrite E6, (Hsel eq_refl). }
  change (restore_key_index (saved_settings s)) with
    (restore_key_index
       {| Settings.sources := Some (saved_path <$> [a; b; c; d]);
          Settings.key_index :=
            Some match current_key s with
                 | Some k => JInt k
                 | None => JOther
                 end;
          Settings.gt_index :=
            Some match gt_index s with
                 | Some g => JInt g
                 | None => JOther
                 end;
          Settings.prefix_length := Some (JInt (prefix_length s)) |}) in Hres.
  erewrite bind_ok_run by exact Hres.
  destruct (gt_index s) as [g|] eqn:Hg.
  - erewrite bind_ok_run by reflexivity.
    eexists. split; [reflexivity|]. unfold same_settings. simpl.
    rewrite Hsources, Hg. by repeat split.
  - erewrite bind_ok_run by reflexivity.
    exists s4. split; [reflexivity|]. unfold same_settings.
    rewrite Hsources, Hg. by repeat split.
Qed.

(** X28: In every reachable state with a source, the key list holds the keys
    that every configured source has, each once, in ascending order. *)
Theorem key_list_is_common_keys exts s src srcs :
  reachable exts s ->
  available_sources s = src :: srcs ->
  Sorted String.le (key_list s) /\ NoDup (key_list s) /\
  forall k, k ∈ key_list s <->
            forall x, x ∈ src :: srcs -> k ∈ dom (ImageSource.files x).
Proof.
  intros Hs Hsrc.
  pose proof (keys_current_reachable exts s Hs) as Hcur.
  unfold keys_current in Hcur. rewrite Hsrc in Hcur. rewrite Hcur.
  unfold sorted_keys. split; [apply Sorted_merge_sort; apply _|].
  split; [rewrite merge_sort_Permutation; apply NoDup_elements|].
  intros k. rewrite merge_sort_Permutation, elem_of_elements.
  unfold common_keys. rewrite elem_of_foldl_intersection. split.
  - intros [Hk Hall] x [->|Hx]%elem_of_cons; [done|].
    apply Hall. apply list_elem_of_fmap. eauto.
  - intros Hall. split; [apply Hall; left|].
    intros y (x & -> & Hx)%list_elem_of_fmap. apply Hall. by right.
Qed.

Lemma key_list_is_common_keys_witness :
  exists src srcs,
    available_sources example_half_decoded = src :: srcs /\
    Sorted String.le (key_list example_half_decoded) /\
    NoDup (key_list example_half_decoded) /\
    forall k, k ∈ key_list example_half_decoded <->
              forall x, x ∈ src :: srcs -> k ∈ dom (ImageSource.files x).
Proof.
  eexists _, _. split; [vm_compute; reflexivity|].
  apply (key_list_is_common_keys example_extensions).
  - apply reachable_run, example_initial_reachable.
  - vm_compute. reflexivity.
Defined.

(** X29: The settings that [save_settings] writes in a reachable state, with a
    source and the key index within the key list, start the application
    again, as long as the directories are unchanged: [__init__] returns, and
    the sources, the key list, the key index, the ground truth and the
    prefix length are those of the state that was saved. *)
Theorem saved_settings_restore exts fs canvas s :
  reachable exts s ->
  key_index_in_bounds s ->
  available_sources s <> [] ->
  fs "" = None ->
  (forall x, Some x ∈ image_sources s ->
     ImageSource.init exts fs (ImageSource.path x) (prefix_length s) = Ok x) ->
  let restart := init exts (Some (saved_settings s)) fs in
  let s' := exec restart (initial canvas) in
  returns restart (initial canvas) = Ok tt /\
  image_sources s' = image_sources s /\ key_list s' = key_list s /\
  current_key s' = current_key s /\ gt_index s' = gt_index s /\
  prefix_length s' = prefix_length s.
Proof.
  intros Hs Hb Hav Hempty Hsame.
  destruct (available_sources s) as [|src srcs] eqn:Hsrc; [done|]. clear Hav.
  pose proof (panes_ok_reachable exts s Hs) as (Hlen & _ & _ & Hkeys).
  pose proof (key_selected_reachable exts s Hs) as Hsel.
  destruct (restore_saved_settings exts fs canvas s src srcs Hlen
              (keys_current_reachable exts s Hs) Hsel Hb Hsrc Hempty Hsame)
    as (s5 & Erun & Hsame5 & Hviews5).
  pose proof Hsame5 as (E1 & E2 & E3 & E4 & E5).
  assert (panes_ok s5) as Hok5.
  { split; [by rewrite E1|]. split; [by rewrite Hviews5|].
    split; [by apply no_views_have_sources|].
    intros key x. rewrite E1, E2. apply Hkeys. }
  assert (key_index_in_bounds s5) as Hb5
    by (unfold key_index_in_bounds in *; by rewrite E2, E3).
  pose proof (load_images_returns_ok s5 Hok5 Hb5) as Hret.
  set (s6 := exec load_images s5).
  assert (same_settings s s6) as Hsame6
    by (by apply (proj1 (same_settings_kept s))).
  assert (drawable s6) as Hd6.
  { destruct (load_images_panes_ok s5 Hok5) as (? & ? & ? & _).
    split; [done|]. split; [done|]. split; [done|].
    split; [apply load_images_all_new; [apply Hok5|done]|].
    destruct Hsame6 as (_ & F2 & F3 & _).
    unfold key_selected in *. fold s6. by rewrite F2, F3. }
  destruct (show_returns_ok all_cells s6 Hd6) as [Hshow _];
    [repeat constructor|].
  assert (init exts (Some (saved_settings s)) fs (initial canvas)
          = (Ok tt, exec (show all_cells) s6)) as Einit.
  { unfold init. unfold mbind at 1, M_bind. rewrite Erun.
    rewrite (run_pair load_images), Hret. fold s6.
    by rewrite (run_pair (show all_cells)), Hshow. }
  simpl. unfold returns, exec. rewrite Einit. simpl.
  split; [done|].
  by apply (proj2 (same_settings_kept s) all_cells s6).
Qed.

Lemma saved_settings_restore_witness :
  let s := example_half_decoded in
  let restart := init example_extensions (Some (saved_settings s)) example_fs in
  let s' := exec restart (initial example_canvas) in
  returns restart (initial example_canvas) = Ok tt /\
  image_sources s' = image_sources s /\ key_list s' = key_list s /\
  current_key s' = current_key s /\ gt_index s' = gt_index s /\
  prefix_length s' = prefix_length s.
Proof.
  apply (saved_settings_restore example_extensions example_fs example_canvas
           example_half_decoded).
  - apply reachable_run, example_initial_reachable.
  - vm_compute. split; discriminate.
  - vm_compute. discriminate.
  - reflexivity.
  - intros x Hx.
    assert (image_sources example_half_decoded !! 0%nat = Some (Some x) \/
            image_sources example_half_decoded !! 1%nat = Some (Some x))
      as [E|E].
    { apply list_elem_of_lookup_1 in Hx as [i Hi].
      destruct i as [|[|[|[|i]]]]; [by left|by right|..];
        vm_compute in Hi; discriminate. }
    + vm_compute in E. injection E as <-. vm_compute. reflexivity.
    + vm_compute in E. injection E as <-. vm_compute. reflexivity.
Defined.

(** ** Choosing the ground truth *)

Lemma get_view_run i s view :
  image_views s !! i = Some view -> get_view (Z.of_nat i) s = (Ok view, s).
Proof.
  intros Hv. unfold get_view, mbind, M_bind, get, lift. simpl.
  by rewrite (py_index_nat _ _ _ Hv).
Qed.

Lemma on_view_run {A} i
    (method : ImageView.t -> list Future -> outcome (ImageView.t * A)) s w :
  image_views s !! i = Some (Some w) ->
  on_view (Z.of_nat i) method s =
  match method w (futures s) with
  | Ok (w', a) =>
      (Ok a, set_image_views (<[i := Some w']> (image_views s)) s)
  | Raise e => (Raise e, s)
  end.
Proof.
  intros Hw. pose proof (lookup_lt_Some _ _ _ Hw).
  unfold on_view, mbind, M_bind, get, lift, modify. simpl.
  rewrite py_pos_nat by done. simpl. rewrite Hw.
  by destruct (method w (futures s)) as [[w' a]|e].
Qed.

Lemma set_gt_body_run index i s g :
  image_views s !! index = Some (Some g) ->
  set_gt_body index i s =
  match image_views s !! i with
  | Some (Some w) =>
      if decide (i = index)
      then (Ok tt, set_image_views
                     (<[i := Some (ImageView.set_gt w)]> (image_views s)) s)
      else match ImageView.image g with
           | Some im =>
               match ImageView.calculate_psnr w (Some im) with
               | Ok w' =>
                   (Ok tt, set_image_views (<[i := Some w']> (image_views s)) s)
               | Raise e => (Raise e, s)
               end
           | None => (Ok tt, s)
           end
  | Some None => (Ok tt, s)
  | None => (Raise IndexError, s)
  end.
Proof.
  intros Hg. unfold set_gt_body.
  destruct (image_views s !! i) as [[w|]|] eqn:Hw.
  - erewrite bind_ok_run by (by apply get_view_run).
    case_decide.
    + unfold pane_set_gt. by rewrite (on_view_run _ _ _ _ Hw).
    + erewrite bind_ok_run by (by apply get_view_run).
      cbv beta iota. destruct (ImageView.image g) as [im|]; [|done].
      unfold pane_calculate_psnr. rewrite (on_view_run _ _ _ _ Hw).
      by destruct (ImageView.calculate_psnr w (Some im)).
  - by erewrite bind_ok_run by (by apply get_view_run).
  - unfold get_view, mbind, M_bind, get, lift. simpl.
    apply lookup_ge_None in Hw. unfold py_index.
    replace (Z.of_nat i <? 0) with false by lia.
    by replace ((0 <=? Z.of_nat i) &&
                (Z.of_nat i <? Z.of_nat (length (image_views s))))
      with false by lia.
Qed.

Lemma set_gt_loop index g l :
  NoDup l ->
  forall s,
    (exists g', image_views s !! index = Some (Some g') /\
                ImageView.image g' = ImageView.image g) ->
    returns (for_each l (set_gt_body index)) s = Ok tt ->
    let s' := exec (for_each l (set_gt_body index)) s in
    gt_index s' = gt_index s /\
    (exists g', image_views s' !! index = Some (Some g') /\
                ImageView.image g' = ImageView.image g) /\
    forall j,
      (j ∉ l -> image_views s' !! j = image_views s !! j) /\
      (j ∈ l -> forall w, image_views s !! j = Some (Some w) ->
         if decide (j = index)
         then image_views s' !! j = Some (Some (ImageView.set_gt w))
         else match ImageView.image g with
              | Some im =>
                  exists w', ImageView.calculate_psnr w (Some im) = Ok w' /\
                             image_views s' !! j = Some (Some w')
              | None => image_views s' !! j = Some (Some w)
              end).
Proof.
  induction 1 as [|i l Hi Hl IH]; intros s Hg Hret.
  - simpl. split; [done|]. split; [done|]. intros j. split; [done|].
    by intros ?%elem_of_nil.
  - cbn [for_each] in *. destruct Hg as (g' & Hg' & Hig).
    apply returns_bind_ok in Hret as ([] & Hbody & Hrest & ->).
    pose proof (set_gt_body_run index i s g' Hg') as Hrun.
    pose proof (run_pair (set_gt_body index i) s) as E.
    rewrite Hbody in E. rewrite E in Hrun. clear E Hbody.
    set (s1 := exec (set_gt_body index i) s) in *. clearbody s1.
    assert (gt_index s1 = gt_index s /\
            (exists g1, image_views s1 !! index = Some (Some g1) /\
                        ImageView.image g1 = ImageView.image g) /\
            (forall j, j <> i -> image_views s1 !! j = image_views s !! j) /\
            (forall w, image_views s !! i = Some (Some w) ->
               if decide (i = index)
               then image_views s1 !! i = Some (Some (ImageView.set_gt w))
               else match ImageView.image g with
                    | Some im =>
                        exists w', ImageView.calculate_psnr w (Some im) = Ok w' /\
                                   image_views s1 !! i = Some (Some w')
                    | None => image_views s1 !! i = Some (Some w)
                    end)) as (Hgt1 & Hg1 & Hother & Hthis).
    { destruct (image_views s !! i) as [[w|]|] eqn:Hw; simplify_eq.
      - pose proof (lookup_lt_Some _ _ _ Hw) as Hlt.
        case_decide as Hidx.
        + subst i. simplify_eq. simpl.
          split; [done|]. split.
          * exists (ImageView.set_gt g'). by rewrite list_lookup_insert_eq.
          * split; [intros j Hj; by rewrite list_lookup_insert_ne|].
            intros w [= <-]. by rewrite list_lookup_insert_eq.
        + rewrite Hig in Hrun. destruct (ImageView.image g) as [im|].
          * destruct (ImageView.calculate_psnr w (Some im)) as [w'|] eqn:Hc;
              simplify_eq. simpl.
            split; [done|]. split.
            -- exists g'. by rewrite list_lookup_insert_ne.
            -- split; [intros j Hj; by rewrite list_lookup_insert_ne|].
               intros w0 [= <-]. exists w'.
               by rewrite list_lookup_insert_eq.
          * simplify_eq. split; [done|]. split; [by exists g'|].
            split; [done|]. by intros w0 [= <-].
      - split; [done|]. split; [by exists g'|]. split; [done|]. done. }
    destruct (IH s1 Hg1 Hrest) as (Hgt' & Hg'' & Hall).
    split; [congruence|]. split; [done|].
    intros j. destruct (Hall j) as [Hout Hin]. split.
    + intros Hj. rewrite Hout by (intros ?; apply Hj; by right).
      apply Hother. intros ->. apply Hj. left.
    + intros [->|Hj]%elem_of_cons w Hw.
      * rewrite Hout by done. by apply Hthis.
      * assert (j <> i) as Hne by (by intros ->).
        apply Hin; [done|]. by rewrite Hother.
Qed.

Lemma show_labels (labels : nat -> option comparison) gt cells :
  preserves (fun s => (forall j, pane_label s j = labels j) /\ gt_index s = gt)
            (show cells).
Proof.
  apply show_preserves; intros; try frame_atom.
  intros s [Hl Hg]. unfold pane_get_image, exec.
  destruct (on_view_cases i
              (fun v pool => ImageView.get_image v
                               (future_of pool (ImageView.future v))) s)
    as [[e ->]|(p & v & v' & a & _ & Hp & Hget & ->)]; simpl; [done|].
  split; [|done]. intros j. rewrite <- Hl. unfold pane_label. simpl.
  destruct (decide (j = p)) as [->|Hne].
  - rewrite list_lookup_insert_eq by by eapply lookup_lt_Some.
    rewrite Hp. by apply get_image_cases in Hget as (_ & _ & ? & _).
  - by rewrite list_lookup_insert_ne.
Qed.

(** X30: When [menu_set_gt] returns for a pane that has a view, that pane
    is recorded as the ground truth and is labelled GT.  If the view has its
    image, every other pane with a view is labelled with the PSNR of its own
    image against that image; if it has not, the other labels stay as they
    were. *)
Theorem menu_set_gt_labels index s g :
  image_views s !! index = Some (Some g) ->
  returns (menu_set_gt index) s = Ok tt ->
  let s' := exec (menu_set_gt index) s in
  gt_index s' = Some (Z.of_nat index) /\
  pane_label s' index = Some GT /\
  forall j w, j <> index -> image_views s !! j = Some (Some w) ->
    match ImageView.image g with
    | Some gt =>
        exists im m,
          ImageView.image w = Some im /\ ImageView.mse im gt = Ok m /\
          pane_label s' j = Some (PSNR m)
    | None => pane_label s' j = ImageView.comparison_text w
    end.
Proof.
  intros Hg Hret. unfold menu_set_gt in *.
  apply returns_bind_ok in Hret as ([] & _ & Hret & ->).
  set (s0 := set_gt_index (Some (Z.of_nat index)) s) in *.
  change (exec (modify (set_gt_index (Some (Z.of_nat index)))) s) with s0
    in *.
  apply returns_bind_ok in Hret as (s0' & [= <-] & Hret & ->).
  change (exec get s0) with s0 in *.
  change (for_each ?l _) with (for_each l (set_gt_body index)) in *.
  apply returns_bind_ok in Hret as ([] & Hloop & Hshow & ->).
  destruct (set_gt_loop index g (seq 0 (length (image_views s0)))
              (NoDup_seq _ _) s0) as (Hgt & _ & Hall);
    [by exists g|done|].
  set (s1 := exec (for_each (seq 0 (length (image_views s0)))
                            (set_gt_body index)) s0) in *.
  clearbody s1.
  assert (forall j w, image_views s !! j = Some (Some w) ->
            j ∈ seq 0 (length (image_views s0))) as Hseq.
  { intros j w Hw. apply elem_of_seq. apply lookup_lt_Some in Hw.
    simpl. lia. }
  assert (preserves
            (fun s2 => (forall j, pane_label s2 j = pane_label s1 j) /\
                       gt_index s2 = Some (Z.of_nat index))
            (show all_cells;; save_settings)) as Hkeep.
  { pres. apply show_labels. }
  destruct (Hkeep s1) as [Hlabels Hgt']; [split; [done|by rewrite Hgt]|].
  clear Hkeep.
  simpl. split; [done|]. split.
  - rewrite Hlabels. unfold pane_label.
    pose proof (proj2 (Hall index) (Hseq _ _ Hg) g Hg) as Hi.
    rewrite decide_True in Hi by done. by rewrite Hi.
  - intros j w Hne Hw. rewrite Hlabels. unfold pane_label.
    pose proof (proj2 (Hall j) (Hseq _ _ Hw) w Hw) as Hj.
    rewrite decide_False in Hj by done.
    destruct (ImageView.image g) as [gt|].
    + destruct Hj as (w' & Hc & ->).
      unfold ImageView.calculate_psnr in Hc.
      destruct (ImageView.image w) as [im|]; [|discriminate Hc].
      destruct (ImageView.mse im gt) as [m|] eqn:Hm; [|discriminate Hc].
      destruct (log10_defined m); [|discriminate Hc].
      injection Hc as <-. exists im, m. split; [done|]. split; [done|].
      reflexivity.
    + by rewrite Hj.
Qed.

Lemma menu_set_gt_labels_witness :
  let s := exec (handle example_extensions (ImageLoaded 0))
             (run example_extensions
                [WorkerStart 1; WorkerDecoded 1 [11; 20; 30]; WorkerReturn 1]
                example_half_decoded) in
  let s' := exec (menu_set_gt 1) s in
  gt_index s' = Some 1 /\
  pane_label s' 1%nat = Some GT /\
  pane_label s' 0%nat = Some (PSNR (Fin (1 # 3))).
Proof.
  set (g := {| ImageView.path := "/d/B/img00001_b.png";
               ImageView.future := 2%nat;
               ImageView.image :=
                 Some {| filename := "/d/B/img00001_b.png";
                         tobytes := [10; 20; 30] |};
               ImageView.comparison_text := None |}).
  destruct (menu_set_gt_labels 1%nat
              (exec (handle example_extensions (ImageLoaded 0))
                 (run example_extensions
                    [WorkerStart 1; WorkerDecoded 1 [11; 20; 30];
                     WorkerReturn 1]
                    example_half_decoded)) g)
    as (Hgt & Hlabel & Hothers).
  - vm_compute. reflexivity.
  - vm_compute. reflexivity.
  - split; [exact Hgt|]. split; [exact Hlabel|].
    vm_compute. reflexivity.
Defined.
